(** * prezzemolo.graph: a shallow embedding of [Graph] and its searches

    The development follows [src/prezzemolo/graph.py].  Python objects are
    modelled as follows.

    - A [Vertex] is compared and hashed by its name only, so a vertex is
      identified with its name: the type [V] is the finite collection of
      vertex objects alive in the program, one object per name.
    - [float] values are exact rationals ([Q]); the distance table also
      holds [float("inf")], the constructor [Inf].  Rounding and NaN are
      outside the model.
    - [dict] and [set] are [gmap] and [gset]; [deque] is a list with
      [popleft] at the head and [append] at the tail.
    - [queue.PriorityQueue] is Python's library class: it is modelled by
      its contract (the class [PriorityQueue] below), so every statement
      holds for every tie-break among entries of equal distance.
    - An exception is a value of [outcome]; a [while] loop is a function
      with a fuel argument, and the public operations pass a fuel that
      is proved to be enough.
    - The [for] loops over [vertex.neighbors] are structural recursions on
      the neighbor list, an early [return] ends the recursion. *)

From Stdlib Require Import QArith Lqa.
From stdpp Require Import gmap list finite strings sorting.

Section graph.

Context `{Countable V, !Finite V}.

(** ** Vertex *)

(** Modelled from the spec: the [Vertex] class ([prezzemolo/vertex.py]) is
    not among the sources.  The spec gives a vertex an ordered mapping
    from neighbor to edge weight: [edges v] lists the pairs in insertion
    order, [neighbors] iterates over the keys in that order and
    [get_weight] fails with a lookup error on a vertex that is not a
    recorded neighbor.  Edges are fixed once the vertices are in a graph. *)
Variable edges : V → list (V * Q).

Definition neighbors (v : V) : list V := (edges v).*1.

Fixpoint assoc_weight (l : list (V * Q)) (neighbor : V) : option Q :=
  match l with
  | [] => None
  | (n, w) :: rest => if decide (n = neighbor) then Some w else assoc_weight rest neighbor
  end.

Definition get_weight (v neighbor : V) : option Q := assoc_weight (edges v) neighbor.

(** ** _ShortestDistance *)

Record _ShortestDistance := ShortestDistance { distance : Q; vertex : V }.

(** The operands a comparison can meet: Python values with their truth
    value ([bool(x)]) and their class. *)
Inductive pyobject :=
  | PyNone
  | PyBool (b : bool)
  | PyInt (z : Z)
  | PyFloat (q : Q)
  | PyStr (s : string)
  | PyVertex (v : V)
  | PyShortestDistance (sd : _ShortestDistance).

Definition truthy (o : pyobject) : bool :=
  match o with
  | PyNone => false
  | PyBool b => b
  | PyInt z => negb (Z.eqb z 0)
  | PyFloat q => negb (Qeq_bool q 0)
  | PyStr s => negb (String.eqb s EmptyString)
  | PyVertex _ => true
  | PyShortestDistance _ => true
  end.

Definition isinstance_ShortestDistance (o : pyobject) : bool :=
  match o with PyShortestDistance _ => true | _ => false end.

Inductive exn :=
  | ValueError (offending : V)
  | KeyError (key : V)
  | TypeError (operand : pyobject).

Inductive outcome (A : Type) :=
  | Return (a : A)
  | Raise (e : exn)
  | OutOfFuel.
Global Arguments Return {A} a.
Global Arguments Raise {A} e.
Global Arguments OutOfFuel {A}.

Definition outcome_bind {A B} (f : A → outcome B) (m : outcome A) : outcome B :=
  match m with
  | Return a => f a
  | Raise e => Raise e
  | OutOfFuel => OutOfFuel
  end.

Notation "x ←! m ; k" := (outcome_bind (λ x, k) m)
  (at level 20, m at level 100, k at level 200, only parsing).

Definition Qltb (x y : Q) : bool :=
  match Qlt_le_dec x y with left _ => true | right _ => false end.

Definition __lt__ (self : _ShortestDistance) (other : pyobject) : outcome bool :=
  if negb (truthy other) then Return false
  else match other with
       | PyShortestDistance o => Return (Qltb (distance self) (distance o))
       | _ => Raise (TypeError other)
       end.

Definition __gt__ (self : _ShortestDistance) (other : pyobject) : outcome bool :=
  if negb (truthy other) then Return false
  else match other with
       | PyShortestDistance o => Return (Qltb (distance o) (distance self))
       | _ => Raise (TypeError other)
       end.

(** ** queue.PriorityQueue, by its contract

    [pq_items] is the multiset of entries held; [pq_get] removes an entry
    that no other entry is smaller than ([__lt__] on two instances compares
    the distances), and says nothing about ties. *)
Class PriorityQueue (T : Type) := {
  pq_new : T;
  pq_put : _ShortestDistance → T → T;
  pq_get : T → option (_ShortestDistance * T);
  pq_items : T → list _ShortestDistance;
  pq_items_new : pq_items pq_new = [];
  pq_items_put : ∀ x q, pq_items (pq_put x q) ≡ₚ x :: pq_items q;
  pq_get_None : ∀ q, pq_get q = None ↔ pq_items q = [];
  pq_get_Some : ∀ q x q', pq_get q = Some (x, q') →
    pq_items q ≡ₚ x :: pq_items q' ∧
    ∀ y, y ∈ pq_items q → (distance x <= distance y)%Q
}.

(** A reference implementation: an unordered list, [get] takes the first
    entry of least distance. *)
Fixpoint list_pq_get (q : list _ShortestDistance) : option (_ShortestDistance * list _ShortestDistance) :=
  match q with
  | [] => None
  | x :: rest =>
    match list_pq_get rest with
    | None => Some (x, [])
    | Some (y, rest') =>
      if Qltb (distance y) (distance x) then Some (y, x :: rest') else Some (x, rest)
    end
  end.

(** ** Graph *)

Record Graph := mkGraph {
  __vertexes : gmap V V;
  __non_validated_vertexes : gset V
}.

Fixpoint all_neighbors_in (index : gmap V V) (ns : list V) : bool :=
  match ns with
  | [] => true
  | neighbor :: rest =>
    if decide (index !! neighbor = None) then false else all_neighbors_in index rest
  end.

Definition _validate_vertex (self : Graph) (vertex : V) : bool * Graph :=
  if decide (vertex ∉ __non_validated_vertexes self) then (true, self)
  else if all_neighbors_in (__vertexes self) (neighbors vertex)
  then (true, mkGraph (__vertexes self) (__non_validated_vertexes self ∖ {[vertex]}))
  else (false, self).

Definition vertexes (self : Graph) : list V := (map_to_list (__vertexes self)).*1.

(** [Graph.__init__]: [None] and the empty list both take the [else]
    branches.  The keys are validated in the order of the map; a
    validation reads the index only, which the loop does not change. *)
Definition Graph_init (initial : option (list V)) : Graph :=
  let l := default [] initial in
  let self := mkGraph (list_to_map ((λ v, (v, v)) <$> l)) (list_to_set l) in
  foldl (λ g v, (_validate_vertex g v).2) self (vertexes self).

Definition add_vertex (self : Graph) (vertex : V) : Graph :=
  let self1 := mkGraph (<[vertex := vertex]> (__vertexes self))
                       ({[vertex]} ∪ __non_validated_vertexes self) in
  (_validate_vertex self1 vertex).2.

(** ** Path extraction *)

(** [while current_vertex:] a vertex is true, [None] is false; the lookup
    [vertex_2_parent[current_vertex]] raises [KeyError] on a missing key. *)
Fixpoint extract_while (fuel : nat) (vertex_2_parent : gmap V (option V))
    (current_vertex : option V) (result : list V) : outcome (list V) :=
  match current_vertex with
  | None => Return result
  | Some v =>
    match fuel with
    | O => OutOfFuel
    | S fuel' =>
      match vertex_2_parent !! v with
      | None => Raise (KeyError v)
      | Some parent => extract_while fuel' vertex_2_parent parent (result ++ [v])
      end
    end
  end.

(** A walk along parent links that takes more steps than the dictionary
    has keys has met a key twice and never ends: the fuel [S (size _)]
    loses no result ([extract_fuel_enough] below). *)
Definition _extract_path_from_parent_dictionary (last : V)
    (vertex_2_parent : gmap V (option V)) : outcome (list V) :=
  extract_while (S (size vertex_2_parent)) vertex_2_parent (Some last) [].

(** ** Breadth-first search *)

(** The local variables of [_breadth_first_search]; [bfs_self] is the graph,
    whose non-validated set the loop updates.  [bfs_dequeued] is a ghost
    field: the vertices taken by [popleft], in order. *)
Record bfs_state := mkBfs {
  bfs_self : Graph;
  bfs_queue : list V;
  bfs_marked_set : gset V;
  bfs_vertex_2_parent : option (gmap V (option V));
  bfs_dequeued : list V
}.

Definition bfs_mark (vertex neighbor : V) (st : bfs_state) : bfs_state :=
  mkBfs (bfs_self st)
        (bfs_queue st ++ [neighbor])
        ({[neighbor]} ∪ bfs_marked_set st)
        ((λ m, <[neighbor := Some vertex]> m) <$> bfs_vertex_2_parent st)
        (bfs_dequeued st).

(** [for neighbor in vertex.neighbors]: the result is [true] when the loop
    left through [return True]. *)
Fixpoint bfs_for (vertex : V) (end_ : option V) (ns : list V) (st : bfs_state)
    : bool * bfs_state :=
  match ns with
  | [] => (false, st)
  | neighbor :: rest =>
    let st' := if decide (neighbor ∈ bfs_marked_set st) then st
               else bfs_mark vertex neighbor st in
    if decide (Some neighbor = end_) then (true, st')
    else bfs_for vertex end_ rest st'
  end.

Definition bfs_popleft (vertex : V) (queue : list V) (self : Graph) (st : bfs_state) : bfs_state :=
  mkBfs self queue (bfs_marked_set st) (bfs_vertex_2_parent st) (bfs_dequeued st ++ [vertex]).

Fixpoint bfs_while (fuel : nat) (end_ : option V) (st : bfs_state)
    : outcome bool * bfs_state :=
  match bfs_queue st with
  | [] => (Return false, st)
  | vertex :: queue =>
    match fuel with
    | O => (OutOfFuel, st)
    | S fuel' =>
      let '(valid, self') :=
        if decide (vertex ∈ __non_validated_vertexes (bfs_self st))
        then _validate_vertex (bfs_self st) vertex
        else (true, bfs_self st) in
      let st1 := bfs_popleft vertex queue self' st in
      if valid then
        let '(found, st2) := bfs_for vertex end_ (neighbors vertex) st1 in
        if found then (Return true, st2) else bfs_while fuel' end_ st2
      else (Raise (ValueError vertex), st1)
    end
  end.

Definition bfs_init (self : Graph) (start : V)
    (vertex_2_parent : option (gmap V (option V))) : bfs_state :=
  mkBfs self [start] {[start]} ((λ m, <[start := None]> m) <$> vertex_2_parent) [].

(** Every vertex enters the queue at most once, so [S (card V)] rounds
    empty it ([bfs_fuel_enough] below). *)
Definition _breadth_first_search (self : Graph) (start : V) (end_ : option V)
    (vertex_2_parent : option (gmap V (option V))) : outcome bool * bfs_state :=
  bfs_while (S (card V)) end_ (bfs_init self start vertex_2_parent).

Definition breadth_first_search (self : Graph) (start end_ : V) : outcome bool * Graph :=
  let r := _breadth_first_search self start (Some end_) None in
  (r.1, bfs_self r.2).

(** An iterator is the list of the elements it yields. *)
Definition find_shortest_path (self : Graph) (start end_ : V) (reverse : bool)
    : outcome (option (list V)) * Graph :=
  let r := _breadth_first_search self start (Some end_) (Some ∅) in
  (found ←! r.1;
   if (found : bool) then
     result ←! _extract_path_from_parent_dictionary end_
                 (default ∅ (bfs_vertex_2_parent r.2));
     if negb reverse then Return (Some (rev result)) else Return (Some result)
   else Return None,
   bfs_self r.2).

(** ** Dijkstra *)

Inductive pyfloat := Real (q : Q) | Inf.

(** [x < d] for a finite [x] and an entry [d] of the distance table. *)
Definition float_ltb (x : Q) (d : pyfloat) : bool :=
  match d with
  | Real y => Qltb x y
  | Inf => true
  end.

Context `{PriorityQueue PQ}.

(** The local variables of [_dijkstra_search]; [dj_finalized] is a ghost
    field: the vertices added to [visited], in order. *)
Record dijkstra_state := mkDj {
  dj_distance : gmap V pyfloat;
  dj_remaining_vertexes : PQ;
  dj_visited : gset V;
  dj_vertex_2_parent : option (gmap V (option V));
  dj_finalized : list V
}.

Definition dj_relax (current_vertex neighbor : V) (neighbor_distance : Q)
    (st : dijkstra_state) : dijkstra_state :=
  mkDj (<[neighbor := Real neighbor_distance]> (dj_distance st))
       (pq_put (ShortestDistance neighbor_distance neighbor) (dj_remaining_vertexes st))
       (dj_visited st)
       ((λ m, <[neighbor := Some current_vertex]> m) <$> dj_vertex_2_parent st)
       (dj_finalized st).

(** [for neighbor in current_vertex.neighbors]: [get_weight] and
    [distance[neighbor]] raise [KeyError] on a missing key. *)
Fixpoint dijkstra_for (current_vertex : V) (current_distance : Q) (ns : list V)
    (st : dijkstra_state) : outcome dijkstra_state :=
  match ns with
  | [] => Return st
  | neighbor :: rest =>
    match get_weight current_vertex neighbor with
    | None => Raise (KeyError neighbor)
    | Some weight =>
      let neighbor_distance := (current_distance + weight)%Q in
      match dj_distance st !! neighbor with
      | None => Raise (KeyError neighbor)
      | Some d =>
        if float_ltb neighbor_distance d
        then dijkstra_for current_vertex current_distance rest
               (dj_relax current_vertex neighbor neighbor_distance st)
        else dijkstra_for current_vertex current_distance rest st
      end
    end
  end.

Definition dj_get (remaining : PQ) (st : dijkstra_state) : dijkstra_state :=
  mkDj (dj_distance st) remaining (dj_visited st) (dj_vertex_2_parent st) (dj_finalized st).

Definition dj_visit (current_vertex : V) (st : dijkstra_state) : dijkstra_state :=
  mkDj (dj_distance st) (dj_remaining_vertexes st) ({[current_vertex]} ∪ dj_visited st)
       (dj_vertex_2_parent st) (dj_finalized st ++ [current_vertex]).

Fixpoint dijkstra_while (fuel : nat) (end_ : option V) (st : dijkstra_state)
    : outcome bool * dijkstra_state :=
  match pq_get (dj_remaining_vertexes st) with
  | None => (Return false, st)
  | Some (next_vertex, remaining) =>
    match fuel with
    | O => (OutOfFuel, st)
    | S fuel' =>
      let current_distance := distance next_vertex in
      let current_vertex := vertex next_vertex in
      let st1 := dj_get remaining st in
      if decide (current_vertex ∈ dj_visited st1) then dijkstra_while fuel' end_ st1
      else
        let st2 := dj_visit current_vertex st1 in
        match dijkstra_for current_vertex current_distance (neighbors current_vertex) st2 with
        | Return st3 =>
          if decide (Some current_vertex = end_) then (Return true, st3)
          else dijkstra_while fuel' end_ st3
        | Raise e => (Raise e, st2)
        | OutOfFuel => (OutOfFuel, st2)
        end
    end
  end.

Definition dijkstra_init (self : Graph) (start : V)
    (vertex_2_parent : option (gmap V (option V))) : dijkstra_state :=
  mkDj (<[start := Real 0]> ((λ _, Inf) <$> __vertexes self))
       (pq_put (ShortestDistance 0 start) pq_new)
       ∅
       vertex_2_parent
       [].

(** Entries are put only while a vertex is finalized, one per neighbor at
    most, so the loop takes at most one round per edge and one for the
    first entry ([dijkstra_fuel_enough] below). *)
Definition dijkstra_fuel : nat := 2 + sum_list ((λ v, length (neighbors v)) <$> enum V).

Definition _dijkstra_search (self : Graph) (start : V) (end_ : option V)
    (vertex_2_parent : option (gmap V (option V))) : outcome bool * dijkstra_state :=
  dijkstra_while dijkstra_fuel end_ (dijkstra_init self start vertex_2_parent).

Definition dijkstra_search (self : Graph) (start end_ : V) : outcome bool :=
  (_dijkstra_search self start (Some end_) None).1.

Definition find_weighted_shortest_path (self : Graph) (start end_ : V) (reverse : bool)
    : outcome (option (list V)) :=
  let r := _dijkstra_search self start (Some end_) (Some ((λ _, None) <$> __vertexes self)) in
  found ←! r.1;
  if (found : bool) then
    result ←! _extract_path_from_parent_dictionary end_
                (default ∅ (dj_vertex_2_parent r.2));
    if negb reverse then Return (Some (rev result)) else Return (Some result)
  else Return None.

(** ** Directed paths

    [path a p b]: [p] lists the vertices of a directed path from [a] to
    [b], both ends included; the path of a single vertex has no edge. *)
Inductive path (a : V) : list V → V → Prop :=
  | path_start : path a [a] a
  | path_edge p u v : path a p u → v ∈ neighbors u → path a (p ++ [v]) v.

Definition edge_count (p : list V) : nat := pred (length p).

Fixpoint path_weight (p : list V) : Q :=
  match p with
  | u :: ((v :: _) as rest) => (default 0 (get_weight u v) + path_weight rest)%Q
  | _ => 0%Q
  end.

(** Reachability in the usual sense (every vertex reaches itself), and
    reachability along at least one edge. *)
Definition reachable (a b : V) : Prop := ∃ p, path a p b.

Definition reachable_by_edge (a b : V) : Prop := ∃ p, path a p b ∧ 1 ≤ edge_count p.

Definition nonnegative_weights : Prop :=
  ∀ u v w, get_weight u v = Some w → (0 <= w)%Q.

(** A vertex at which the lazy validation of BFS fails. *)
Definition fails_validation (self : Graph) (v : V) : Prop :=
  v ∈ __non_validated_vertexes self ∧ all_neighbors_in (__vertexes self) (neighbors v) = false.

(** The invariant of a graph built by [Graph_init] and [add_vertex]: a
    vertex of the index that left the non-validated set has its neighbors
    in the index. *)
Definition graph_wf (self : Graph) : Prop :=
  ∀ v, is_Some (__vertexes self !! v) → v ∉ __non_validated_vertexes self →
    all_neighbors_in (__vertexes self) (neighbors v) = true.

(** The chain of parent links from a vertex to the root, as
    [_extract_path_from_parent_dictionary] walks it. *)
Inductive parent_chain (m : gmap V (option V)) : V → list V → Prop :=
  | chain_root v : m !! v = Some None → parent_chain m v [v]
  | chain_link v u l : m !! v = Some (Some u) → parent_chain m u l → parent_chain m v (v :: l).

(** * Properties *)

(** ** Lists, weights and paths *)

Lemma assoc_weight_None l n : assoc_weight l n = None ↔ n ∉ l.*1.
Proof.
  induction l as [|[x w] l IH]; simpl.
  - split; [intros _; apply not_elem_of_nil | done].
  - rewrite not_elem_of_cons. destruct (decide (x = n)) as [->|Hne].
    + split; [done | intros [? _]; done].
    + rewrite IH. naive_solver.
Qed.

Lemma get_weight_neighbor u n : n ∈ neighbors u → is_Some (get_weight u n).
Proof.
  intros Hn. destruct (get_weight u n) eqn:E; [by eexists|].
  apply assoc_weight_None in E. done.
Qed.

Lemma get_weight_Some u n w : get_weight u n = Some w → n ∈ neighbors u.
Proof.
  intros E. destruct (decide (n ∈ neighbors u)) as [|Hn]; [done|].
  apply assoc_weight_None in Hn. unfold get_weight in E. congruence.
Qed.

Lemma all_neighbors_in_true index ns :
  all_neighbors_in index ns = true ↔ ∀ n, n ∈ ns → is_Some (index !! n).
Proof.
  induction ns as [|x ns IH]; simpl.
  - split; [intros _ n Hn; by apply elem_of_nil in Hn | done].
  - destruct (decide (index !! x = None)) as [E|E].
    + split; [done|]. intros Hall. destruct (Hall x) as [? ?]; [left|congruence].
    + rewrite IH. split.
      * intros Hall n [->|Hn]%elem_of_cons; [|by apply Hall].
        by destruct (index !! x); [eexists|].
      * intros Hall n Hn. apply Hall. by right.
Qed.

Lemma all_neighbors_in_false index ns :
  all_neighbors_in index ns = false ↔ ∃ n, n ∈ ns ∧ index !! n = None.
Proof.
  induction ns as [|x ns IH]; simpl.
  - split; [done | by intros (n & Hn%elem_of_nil & _)].
  - destruct (decide (index !! x = None)) as [E|E].
    + split; [|done]. intros _. exists x. split; [left|done].
    + rewrite IH. split.
      * intros (n & Hn & Hnone). exists n. split; [by right|done].
      * intros (n & [->|Hn]%elem_of_cons & Hnone); [done|]. by exists n.
Qed.

Lemma all_neighbors_in_dom index index' ns :
  dom index = dom index' → all_neighbors_in index ns = all_neighbors_in index' ns.
Proof.
  intros Hdom. induction ns as [|x ns IH]; simpl; [done|].
  assert (index !! x = None ↔ index' !! x = None) as Hx.
  { by rewrite <-!not_elem_of_dom, Hdom. }
  do 2 case_decide; naive_solver.
Qed.

Lemma last_rev (l : list V) : last (rev l) = head l.
Proof. rewrite rev_alt. apply last_reverse. Qed.

Lemma head_rev (l : list V) : head (rev l) = last l.
Proof. rewrite <-(rev_involutive l) at 2. by rewrite last_rev. Qed.

Lemma path_head a p b : path a p b → ∃ l, p = a :: l.
Proof.
  induction 1 as [|p u v _ [l ->] _]; [by exists [] | by exists (l ++ [v])].
Qed.

Lemma path_last a p b : path a p b → last p = Some b.
Proof. destruct 1; [done | by rewrite last_snoc]. Qed.

Lemma path_length a p b : path a p b → 1 ≤ length p.
Proof. intros [l ->]%path_head. simpl. lia. Qed.

Lemma edge_count_snoc a p u v : path a p u → edge_count (p ++ [v]) = S (edge_count p).
Proof.
  intros Hp%path_length. unfold edge_count. rewrite length_app. simpl. lia.
Qed.

Lemma path_weight_snoc p u v :
  last p = Some u →
  (path_weight (p ++ [v]) == path_weight p + default 0 (get_weight u v))%Q.
Proof.
  induction p as [|x [|y p] IH]; intros Hlast.
  - done.
  - simpl in *. injection Hlast as ->. lra.
  - specialize (IH Hlast).
    change (path_weight ((x :: y :: p) ++ [v]))
      with (default 0 (get_weight x y) + path_weight ((y :: p) ++ [v]))%Q.
    change (path_weight (x :: y :: p))
      with (default 0 (get_weight x y) + path_weight (y :: p))%Q.
    lra.
Qed.

Lemma path_weight_nonneg p : nonnegative_weights → (0 <= path_weight p)%Q.
Proof.
  intros Hnn. induction p as [|x [|y p] IH]; [simpl; lra..|].
  change (path_weight (x :: y :: p))
    with (default 0 (get_weight x y) + path_weight (y :: p))%Q.
  assert (0 <= default 0 (get_weight x y))%Q.
  { destruct (get_weight x y) as [w|] eqn:E; simpl; [by apply Hnn in E | lra]. }
  lra.
Qed.



Lemma reachable_by_edge_last a b :
  reachable_by_edge a b ↔ ∃ u, reachable a u ∧ b ∈ neighbors u.
Proof.
  split.
  - intros (p & Hp & Hlen). destruct Hp as [|p u v Hp Hv]; [cbv in Hlen; lia|].
    exists u. split; [by exists p | done].
  - intros (u & [p Hp] & Hb). exists (p ++ [b]). split; [by econstructor|].
    erewrite edge_count_snoc by done. lia.
Qed.

(** ** Path extraction *)

Lemma extract_while_chain m v l fuel acc :
  parent_chain m v l → length l ≤ fuel →
  extract_while fuel m (Some v) acc = Return (acc ++ l).
Proof.
  intros Hc. revert fuel acc.
  induction Hc as [v Hv|v u l Hv Hc IH]; intros [|fuel] acc Hlen; simpl in *; try lia.
  - rewrite Hv. by destruct fuel.
  - rewrite Hv, IH by lia. by rewrite <-app_assoc.
Qed.

Lemma parent_chain_head m v l : parent_chain m v l → head l = Some v.
Proof. by destruct 1. Qed.

(** [walk_ends m v l]: the walk along parent links from [v] visits the
    vertices [l] and stops, at a root or at a missing key. *)
Inductive walk_ends (m : gmap V (option V)) : V → list V → Prop :=
  | walk_root v : m !! v = Some None → walk_ends m v [v]
  | walk_missing v : m !! v = None → walk_ends m v [v]
  | walk_link v u l : m !! v = Some (Some u) → walk_ends m u l → walk_ends m v (v :: l).

Lemma walk_ends_unique m v l l' : walk_ends m v l → walk_ends m v l' → l = l'.
Proof.
  intros Hl. revert l'. induction Hl as [v Hv|v Hv|v u l Hv Hl IH]; intros l' Hl';
    destruct Hl' as [v Hv'|v Hv'|v u' l' Hv' Hl']; try congruence.
  rewrite Hv in Hv'. injection Hv' as <-. f_equal. by apply IH.
Qed.

Lemma walk_ends_from m v l x :
  walk_ends m v l → x ∈ l → ∃ l', walk_ends m x l' ∧ length l' ≤ length l.
Proof.
  induction 1 as [v Hv|v Hv|v u l Hv Hl IH].
  - intros ->%list_elem_of_singleton. exists [v]. split; [by constructor|done].
  - intros ->%list_elem_of_singleton. exists [v]. split; [by apply walk_missing|done].
  - intros [->|Hx]%elem_of_cons.
    + exists (v :: l). split; [by econstructor|done].
    + destruct (IH Hx) as (l' & Hl' & Hlen). exists l'. split; [done|]. simpl. lia.
Qed.

Lemma walk_ends_NoDup m v l : walk_ends m v l → NoDup l.
Proof.
  induction 1 as [v Hv|v Hv|v u l Hv Hl IH]; [apply NoDup_singleton..|].
  apply NoDup_cons. split; [|done]. intros Hin.
  destruct (walk_ends_from m u l v Hl Hin) as (l' & Hl' & Hlen).
  pose proof (walk_ends_unique m v l' (v :: l) Hl' ltac:(by econstructor)) as ->.
  simpl in Hlen. lia.
Qed.

Lemma walk_ends_dom m v l :
  walk_ends m v l → ∃ l' x, l = l' ++ [x] ∧ ∀ y, y ∈ l' → y ∈ dom m.
Proof.
  induction 1 as [v Hv|v Hv|v u l Hv Hl (l' & x & -> & Hdom)].
  - exists [], v. split; [done|]. by intros y ?%elem_of_nil.
  - exists [], v. split; [done|]. by intros y ?%elem_of_nil.
  - exists (v :: l'), x. split; [done|].
    intros y [->|Hy]%elem_of_cons; [|by apply Hdom]. apply elem_of_dom. by eexists.
Qed.

Lemma walk_ends_length m v l : walk_ends m v l → length l ≤ S (size m).
Proof.
  intros Hl. pose proof (walk_ends_NoDup m v l Hl) as Hnd.
  destruct (walk_ends_dom m v l Hl) as (l' & x & -> & Hdom).
  apply NoDup_app in Hnd as (Hnd & _ & _).
  assert (list_to_set l' ⊆ dom m) as Hsub.
  { intros y Hy%elem_of_list_to_set. by apply Hdom. }
  apply subseteq_size in Hsub. rewrite size_list_to_set, size_dom in Hsub by done.
  rewrite length_app. simpl. lia.
Qed.

Lemma extract_while_ends m fuel : ∀ v acc,
  extract_while fuel m (Some v) acc ≠ OutOfFuel → ∃ l, walk_ends m v l.
Proof.
  induction fuel as [|fuel IH]; intros v acc Hrun; simpl in Hrun; [done|].
  destruct (m !! v) as [[u|]|] eqn:Hv.
  - destruct (IH u _ Hrun) as [l Hl]. exists (v :: l). by econstructor.
  - exists [v]. by constructor.
  - exists [v]. by apply walk_missing.
Qed.

Lemma extract_while_walk m v l : walk_ends m v l → ∀ fuel fuel' acc,
  length l ≤ fuel → length l ≤ fuel' →
  extract_while fuel m (Some v) acc = extract_while fuel' m (Some v) acc ∧
  extract_while fuel m (Some v) acc ≠ OutOfFuel.
Proof.
  induction 1 as [v Hv|v Hv|v u l Hv Hl IH]; intros [|fuel] [|fuel'] acc Hle Hle';
    simpl in *; try lia; rewrite Hv.
  - by destruct fuel, fuel'.
  - done.
  - apply IH; lia.
Qed.

(** The fuel of [_extract_path_from_parent_dictionary] is enough: a walk
    that is cut off there is cut off with any fuel, and a walk that ends
    with some fuel gives the same result there. *)
Lemma extract_fuel_enough m v fuel :
  extract_while fuel m (Some v) [] ≠ OutOfFuel →
  _extract_path_from_parent_dictionary v m = extract_while fuel m (Some v) [].
Proof.
  intros Hrun. destruct (extract_while_ends m fuel v [] Hrun) as [l Hl].
  pose proof (walk_ends_length m v l Hl) as Hlen.
  unfold _extract_path_from_parent_dictionary.
  destruct (le_lt_dec (length l) fuel) as [Hle|Hlt].
  - by apply (extract_while_walk m v l Hl).
  - exfalso. apply Hrun. clear Hrun Hlen. revert fuel Hlt.
    generalize (@nil V). induction Hl as [v Hv|v Hv|v u l Hv Hl IH];
      intros acc [|fuel] Hlt; simpl in *; try lia; try done.
    rewrite Hv. apply IH. lia.
Qed.

(** ** Breadth-first search: the loop ends *)

Definition unmarked (X : gset V) (l : list V) : nat := length (filter (λ v, v ∉ X) l).

Definition bfs_potential (st : bfs_state) : nat :=
  length (bfs_queue st) + unmarked (bfs_marked_set st) (enum V).

Lemma unmarked_absent (X : gset V) n l :
  n ∉ l → unmarked ({[n]} ∪ X) l = unmarked X l.
Proof.
  unfold unmarked. induction l as [|x l IH]; [done|].
  intros [Hx Hl]%not_elem_of_cons. rewrite !filter_cons.
  specialize (IH Hl). repeat case_decide; simpl; try lia; set_solver.
Qed.

Lemma unmarked_mark (X : gset V) n l :
  NoDup l → n ∈ l → n ∉ X → unmarked X l = S (unmarked ({[n]} ∪ X) l).
Proof.
  unfold unmarked. induction l as [|x l IH]; intros Hnd Hn HX.
  - by apply elem_of_nil in Hn.
  - apply NoDup_cons in Hnd as [Hx Hnd]. rewrite !filter_cons.
    destruct (decide (x = n)) as [->|Hne].
    + pose proof (unmarked_absent X n l Hx) as Habs. unfold unmarked in Habs.
      repeat case_decide; simpl; try lia; set_solver.
    + apply elem_of_cons in Hn as [->|Hn]; [done|].
      specialize (IH Hnd Hn HX). repeat case_decide; simpl; try lia; set_solver.
Qed.

Lemma unmarked_le (X : gset V) l : unmarked X l ≤ length l.
Proof. apply length_filter. Qed.

Lemma bfs_for_potential vertex end_ ns st :
  bfs_potential (bfs_for vertex end_ ns st).2 = bfs_potential st.
Proof.
  revert st. induction ns as [|n ns IH]; intros st; simpl; [done|].
  assert (bfs_potential (if decide (n ∈ bfs_marked_set st) then st
                         else bfs_mark vertex n st) = bfs_potential st) as Hstep.
  { case_decide as Hn; [done|]. unfold bfs_potential, bfs_mark. simpl.
    rewrite length_app. simpl.
    rewrite (unmarked_mark (bfs_marked_set st) n (enum V));
      [lia | apply NoDup_enum | apply elem_of_enum | done]. }
  destruct (decide (Some n = end_)); simpl; [done|]. by rewrite IH.
Qed.

Lemma bfs_while_fuel fuel end_ st :
  bfs_potential st ≤ fuel → (bfs_while fuel end_ st).1 ≠ OutOfFuel.
Proof.
  revert st. induction fuel as [|fuel IH]; intros st Hpot.
  - unfold bfs_potential in Hpot. destruct st as [g [|v q] mk vp dq]; simpl in *; [done|lia].
  - simpl. destruct (bfs_queue st) as [|v q] eqn:Hq; [done|].
    destruct (if decide (v ∈ _) then _ else _) as [valid self'].
    destruct valid; [|done].
    destruct (bfs_for v end_ (neighbors v) (bfs_popleft v q self' st)) as [found st2] eqn:Hfor.
    destruct found; [done|]. apply IH.
    pose proof (bfs_for_potential v end_ (neighbors v) (bfs_popleft v q self' st)) as Hp.
    rewrite Hfor in Hp. simpl in Hp. rewrite Hp.
    unfold bfs_potential in *. rewrite Hq in Hpot. simpl in *. lia.
Qed.

Lemma bfs_fuel_enough self start end_ vertex_2_parent :
  (_breadth_first_search self start end_ vertex_2_parent).1 ≠ OutOfFuel.
Proof.
  apply bfs_while_fuel. unfold bfs_potential, bfs_init, card. simpl.
  pose proof (unmarked_le {[start]} (enum V)). lia.
Qed.

(** ** Breadth-first search: the parent dictionary does not steer the loop *)

Definition bfs_forget (st : bfs_state) : bfs_state :=
  mkBfs (bfs_self st) (bfs_queue st) (bfs_marked_set st) None (bfs_dequeued st).

Lemma bfs_for_forget vertex end_ ns st :
  bfs_for vertex end_ ns (bfs_forget st) =
  ((bfs_for vertex end_ ns st).1, bfs_forget (bfs_for vertex end_ ns st).2).
Proof.
  revert st. induction ns as [|n ns IH]; intros st; simpl; [done|].
  assert ((if decide (n ∈ bfs_marked_set st) then bfs_forget st
           else bfs_mark vertex n (bfs_forget st)) =
          bfs_forget (if decide (n ∈ bfs_marked_set st) then st
                      else bfs_mark vertex n st)) as ->.
  { by case_decide. }
  destruct (decide (Some n = end_)); [done|]. apply IH.
Qed.

Lemma bfs_while_forget fuel end_ st :
  bfs_while fuel end_ (bfs_forget st) =
  ((bfs_while fuel end_ st).1, bfs_forget (bfs_while fuel end_ st).2).
Proof.
  revert st. induction fuel as [|fuel IH]; intros st; simpl.
  - by destruct (bfs_queue st).
  - destruct (bfs_queue st) as [|v q]; [done|].
    destruct (if decide (v ∈ _) then _ else _) as [valid self'].
    destruct valid; [|done].
    change (bfs_popleft v q self' (bfs_forget st))
      with (bfs_forget (bfs_popleft v q self' st)).
    rewrite bfs_for_forget.
    destruct (bfs_for v end_ (neighbors v) (bfs_popleft v q self' st)) as [[] st2];
      simpl; [done|]. apply IH.
Qed.

(** ** Breadth-first search: the loop invariant *)

Section bfs_invariant.

Variables (self0 : Graph) (start : V).

(** The depth of the vertex dequeued last. *)
Definition bfs_depth (d : V → nat) (st : bfs_state) : nat :=
  from_option d 0 (last (bfs_dequeued st)).

(** [d] gives every marked vertex its number of edges from [start];
    [todo] holds the neighbors of the vertex dequeued last that the [for]
    loop has not seen yet. *)
Record bfs_inv (d : V → nat) (todo : list V) (st : bfs_state) : Prop := BfsInv {
  bi_marked : bfs_marked_set st = list_to_set (bfs_dequeued st ++ bfs_queue st);
  bi_nodup : NoDup (bfs_dequeued st ++ bfs_queue st);
  bi_start : start ∈ bfs_marked_set st;
  bi_start_depth : d start = 0;
  bi_index : __vertexes (bfs_self st) = __vertexes self0;
  bi_nv : ∀ v, v ∈ __non_validated_vertexes (bfs_self st) ↔
               v ∈ __non_validated_vertexes self0 ∧ v ∉ bfs_dequeued st;
  bi_valid : ∀ v, v ∈ bfs_dequeued st → ¬ fails_validation self0 v;
  bi_reach : ∀ v, v ∈ bfs_marked_set st → reachable start v;
  bi_scan : ∀ u n, u ∈ bfs_dequeued st → n ∈ neighbors u →
      (n ∈ bfs_marked_set st ∧ d n ≤ S (d u)) ∨
      (last (bfs_dequeued st) = Some u ∧ n ∈ todo);
  bi_past : ∀ x, x ∈ bfs_dequeued st → d x ≤ bfs_depth d st;
  bi_band : ∀ y, y ∈ bfs_queue st → bfs_depth d st ≤ d y ≤ S (bfs_depth d st);
  bi_sorted : StronglySorted le (d <$> bfs_queue st);
  bi_size : ∀ v, v ∈ bfs_marked_set st → d v < size (bfs_marked_set st);
  bi_parent : ∀ m, bfs_vertex_2_parent st = Some m →
      bfs_marked_set st ⊆ dom m ∧ m !! start = Some None ∧
      ∀ v, v ∈ bfs_marked_set st → v ≠ start →
        ∃ u, m !! v = Some (Some u) ∧ u ∈ bfs_marked_set st ∧
             v ∈ neighbors u ∧ d v = S (d u)
}.

(** Until the loop returns [True], [end_] has not been met as a neighbor. *)
Definition bfs_noend (end_ : option V) (todo : list V) (st : bfs_state) : Prop :=
  (∀ v, v ∈ bfs_marked_set st → Some v = end_ → v = start) ∧
  (∀ u n, u ∈ bfs_dequeued st → n ∈ neighbors u → Some n = end_ →
     last (bfs_dequeued st) = Some u ∧ n ∈ todo).

Ltac bfs_simpl :=
  cbn [bfs_self bfs_queue bfs_marked_set bfs_vertex_2_parent bfs_dequeued
       bfs_init bfs_mark bfs_popleft bfs_forget fst snd] in *.

Lemma bfs_init_inv vertex_2_parent :
  bfs_inv (λ _, 0) [] (bfs_init self0 start vertex_2_parent).
Proof.
  split; bfs_simpl.
  - set_solver.
  - apply NoDup_singleton.
  - set_solver.
  - done.
  - done.
  - intros v. rewrite elem_of_nil. naive_solver.
  - by intros v ?%elem_of_nil.
  - intros v ->%elem_of_singleton. exists [start]. constructor.
  - by intros u n ?%elem_of_nil.
  - by intros x ?%elem_of_nil.
  - intros y _. unfold bfs_depth. simpl. lia.
  - repeat constructor.
  - intros v _. rewrite size_singleton. lia.
  - intros m Hm. destruct vertex_2_parent as [m0|]; [|done].
    injection Hm as <-.
    split; [|split].
    + rewrite dom_insert_L. set_solver.
    + apply lookup_insert_eq.
    + intros v ->%elem_of_singleton. done.
Qed.

Lemma bfs_inv_dequeued_marked d todo st x :
  bfs_inv d todo st → x ∈ bfs_dequeued st → x ∈ bfs_marked_set st.
Proof. intros Hinv Hx. rewrite (bi_marked _ _ _ Hinv). set_solver. Qed.

Lemma bfs_inv_queue_marked d todo st x :
  bfs_inv d todo st → x ∈ bfs_queue st → x ∈ bfs_marked_set st.
Proof. intros Hinv Hx. rewrite (bi_marked _ _ _ Hinv). set_solver. Qed.

Lemma bfs_depth_ext d d' st :
  (∀ v, v ∈ bfs_dequeued st → d' v = d v) → bfs_depth d' st = bfs_depth d st.
Proof.
  intros Hext. unfold bfs_depth.
  destruct (last (bfs_dequeued st)) as [c|] eqn:Hc; [|done].
  simpl. apply Hext. by eapply last_Some_elem_of.
Qed.

(** Only the depths of marked vertices matter. *)
Lemma bfs_inv_ext d d' todo st :
  (∀ v, v ∈ bfs_marked_set st → d' v = d v) →
  bfs_inv d todo st → bfs_inv d' todo st.
Proof.
  intros Hext Hinv.
  assert (∀ v, v ∈ bfs_dequeued st → d' v = d v) as Hdq.
  { intros v Hv. eapply Hext, bfs_inv_dequeued_marked; eauto. }
  assert (∀ v, v ∈ bfs_queue st → d' v = d v) as Hq.
  { intros v Hv. eapply Hext, bfs_inv_queue_marked; eauto. }
  pose proof (bfs_depth_ext d d' st Hdq) as Hdepth.
  destruct Hinv as [Hmk Hnd Hst Hsd Hix Hnv Hval Hre Hsc Hpa Hba Hso Hsz Hpar].
  split; try done.
  - by rewrite Hext.
  - intros u n Hu Hn. destruct (Hsc u n Hu Hn) as [[Hm Hle]|?]; [left|by right].
    split; [done|]. by rewrite (Hext n), (Hdq u).
  - intros x Hx. rewrite Hdepth, Hdq by done. by apply Hpa.
  - intros y Hy. rewrite Hdepth, Hq by done. by apply Hba.
  - replace (d' <$> bfs_queue st) with (d <$> bfs_queue st); [done|].
    apply list_fmap_ext. intros i x Hx. symmetry. apply Hq.
    by eapply list_elem_of_lookup_2.
  - intros v Hv. rewrite Hext by done. by apply Hsz.
  - intros m Hm. destruct (Hpar m Hm) as (Hdom & Hroot & Hlink).
    split; [done|]. split; [done|].
    intros v Hv Hne. destruct (Hlink v Hv Hne) as (u & ? & ? & ? & ?).
    exists u. by rewrite (Hext v), (Hext u).
Qed.

(** Every path from [start] ends at a marked vertex no deeper than the path
    is long, or is longer than the depth of the vertex dequeued last. *)
Lemma bfs_lower_bound d todo st cur p x :
  bfs_inv d todo st → last (bfs_dequeued st) = Some cur →
  path start p x →
  (x ∈ bfs_marked_set st ∧ d x ≤ edge_count p) ∨ S (d cur) ≤ edge_count p.
Proof.
  intros Hinv Hcur Hp.
  assert (bfs_depth d st = d cur) as Hdepth by (unfold bfs_depth; by rewrite Hcur).
  induction Hp as [|p u v Hp IH Hv].
  - left. split; [apply Hinv|]. rewrite (bi_start_depth _ _ _ Hinv). lia.
  - erewrite edge_count_snoc by done.
    destruct IH as [[Hu Hle]|Hle]; [|right; lia].
    rewrite (bi_marked _ _ _ Hinv), elem_of_list_to_set, elem_of_app in Hu.
    destruct Hu as [Hu|Hu].
    + destruct (bi_scan _ _ _ Hinv u v Hu Hv) as [[Hm Hd]|[Hlast _]].
      * left. split; [done|lia].
      * right. rewrite Hcur in Hlast. injection Hlast as ->. lia.
    + right. pose proof (bi_band _ _ _ Hinv u Hu). lia.
Qed.

(** One round of the [for] loop on a neighbor that is marked already. *)
Lemma bfs_skip_inv d n rest st cur :
  bfs_inv d (n :: rest) st → last (bfs_dequeued st) = Some cur →
  n ∈ bfs_marked_set st → bfs_inv d rest st.
Proof.
  intros Hinv Hcur Hn.
  assert (bfs_depth d st = d cur) as Hdepth by (unfold bfs_depth; by rewrite Hcur).
  pose proof Hinv as [Hmk Hnd Hst Hsd Hix Hnv Hval Hre Hsc Hpa Hba Hso Hsz Hpar].
  split; try done.
  intros u n' Hu Hn'. destruct (Hsc u n' Hu Hn') as [?|[Hlast Htodo]]; [by left|].
  apply elem_of_cons in Htodo as [->|Htodo]; [left|by right].
  split; [done|]. rewrite Hcur in Hlast. injection Hlast as <-.
  rewrite Hmk, elem_of_list_to_set, elem_of_app in Hn. destruct Hn as [Hn|Hn].
  - pose proof (Hpa n Hn). lia.
  - pose proof (Hba n Hn). lia.
Qed.

(** One round of the [for] loop on a neighbor that is not marked yet. *)
Lemma bfs_mark_inv d n rest st cur :
  bfs_inv d (n :: rest) st → last (bfs_dequeued st) = Some cur →
  n ∈ neighbors cur → n ∉ bfs_marked_set st → d n = S (d cur) →
  bfs_inv d rest (bfs_mark cur n st).
Proof.
  intros Hinv Hcur Hedge Hn Hdn.
  assert (bfs_depth d st = d cur) as Hdepth by (unfold bfs_depth; by rewrite Hcur).
  assert (cur ∈ bfs_dequeued st) as Hcurdq by (by eapply last_Some_elem_of).
  assert (cur ∈ bfs_marked_set st) as Hcurm by (by eapply bfs_inv_dequeued_marked).
  pose proof Hinv as [Hmk Hnd Hst Hsd Hix Hnv Hval Hre Hsc Hpa Hba Hso Hsz Hpar].
  assert (size ({[n]} ∪ bfs_marked_set st) = S (size (bfs_marked_set st))) as Hsize.
  { rewrite size_union, size_singleton by set_solver. done. }
  split; bfs_simpl; try done.
  - rewrite Hmk, app_assoc, !list_to_set_app_L. set_solver.
  - rewrite app_assoc. apply NoDup_app. split; [done|]. split; [|apply NoDup_singleton].
    intros x Hx ->%list_elem_of_singleton. apply Hn. rewrite Hmk. set_solver.
  - set_solver.
  - intros v [->%elem_of_singleton|Hv]%elem_of_union; [|by apply Hre].
    destruct (Hre cur Hcurm) as [p Hp]. exists (p ++ [n]). by econstructor.
  - intros u n' Hu Hn'. destruct (Hsc u n' Hu Hn') as [[? ?]|[Hlast Htodo]].
    { left. split; [set_solver|done]. }
    apply elem_of_cons in Htodo as [->|Htodo]; [left|by right].
    rewrite Hcur in Hlast. injection Hlast as <-. split; [set_solver|lia].
  - intros y [Hy| ->%list_elem_of_singleton]%elem_of_app; [by apply Hba|].
    unfold bfs_depth. bfs_simpl. rewrite Hcur. simpl. lia.
  - rewrite fmap_app. apply StronglySorted_app. split; [|split; [done|repeat constructor]].
    intros x1 x2 (y & -> & Hy)%list_elem_of_fmap ->%list_elem_of_singleton.
    pose proof (Hba y Hy). lia.
  - rewrite Hsize. intros v [->%elem_of_singleton|Hv]%elem_of_union.
    + pose proof (Hsz cur Hcurm). lia.
    + pose proof (Hsz v Hv). lia.
  - intros m' Hm'. destruct (bfs_vertex_2_parent st) as [m|]; [|done].
    injection Hm' as <-. destruct (Hpar m eq_refl) as (Hdom & Hroot & Hlink).
    assert (start ≠ n) as Hsn by (intros ->; done).
    split; [rewrite dom_insert_L; set_solver|].
    split; [by rewrite lookup_insert_ne|].
    intros v [->%elem_of_singleton|Hv]%elem_of_union Hvs.
    + exists cur. rewrite lookup_insert_eq. split; [done|]. split; [set_solver|done].
    + destruct (Hlink v Hv Hvs) as (u & ? & ? & ? & ?). exists u.
      rewrite lookup_insert_ne by (intros ->; done). split; [done|]. split; [set_solver|done].
Qed.

Lemma bfs_noend_step end_ n rest st cur :
  bfs_noend end_ (n :: rest) st → Some n ≠ end_ →
  bfs_noend end_ rest
    (if decide (n ∈ bfs_marked_set st) then st else bfs_mark cur n st).
Proof.
  intros [Hmarked Hscan] Hne. split.
  - intros v Hv Hend. apply Hmarked; [|done].
    case_decide; [done|]. bfs_simpl.
    apply elem_of_union in Hv as [->%elem_of_singleton|Hv]; done.
  - intros u n' Hu Hn' Hend.
    assert (u ∈ bfs_dequeued st) as Hu' by (by case_decide).
    destruct (Hscan u n' Hu' Hn' Hend) as [Hlast Htodo].
    split; [by case_decide|].
    apply elem_of_cons in Htodo as [->|Htodo]; done.
Qed.

(** The state in which the loop returns [True]: [end_] is a neighbor of
    the vertex dequeued last, and when it was marked in this call no path
    reaches it in fewer edges than its depth. *)
Definition bfs_found (end_ : option V) (st : bfs_state) : Prop :=
  ∃ d cur n todo,
    last (bfs_dequeued st) = Some cur ∧ Some n = end_ ∧ n ∈ neighbors cur ∧
    n ∈ bfs_marked_set st ∧ bfs_inv d todo st ∧
    (n ≠ start → ∀ p, path start p n → d n ≤ edge_count p).

Lemma bfs_for_inv cur end_ todo : ∀ st d,
  last (bfs_dequeued st) = Some cur →
  (∀ n, n ∈ todo → n ∈ neighbors cur) →
  bfs_inv d todo st → bfs_noend end_ todo st →
  bfs_self (bfs_for cur end_ todo st).2 = bfs_self st ∧
  bfs_dequeued (bfs_for cur end_ todo st).2 = bfs_dequeued st ∧
  if (bfs_for cur end_ todo st).1 then bfs_found end_ (bfs_for cur end_ todo st).2
  else ∃ d', bfs_inv d' [] (bfs_for cur end_ todo st).2 ∧
             bfs_noend end_ [] (bfs_for cur end_ todo st).2.
Proof.
  induction todo as [|n rest IH]; intros st d Hcur Htodo Hinv Hnoend.
  { simpl. split; [done|]. split; [done|]. by exists d. }
  assert (n ∈ neighbors cur) as Hedge by (apply Htodo; left).
  assert (∀ n', n' ∈ rest → n' ∈ neighbors cur) as Hrest by (intros; apply Htodo; by right).
  cbn [bfs_for]. destruct (decide (n ∈ bfs_marked_set st)) as [Hn|Hn].
  - pose proof (bfs_skip_inv d n rest st cur Hinv Hcur Hn) as Hinv'.
    destruct (decide (Some n = end_)) as [Hend|Hend].
    + cbn [fst snd]. split; [done|]. split; [done|].
      exists d, cur, n, rest. repeat (split; [done|]).
      intros Hne. destruct Hne. by apply Hnoend.
    + pose proof (bfs_noend_step end_ n rest st cur Hnoend Hend) as Hnoend'.
      rewrite decide_True in Hnoend' by done. by apply (IH st d).
  - set (d' := λ x, if decide (x = n) then S (d cur) else d x).
    assert (bfs_inv d' (n :: rest) st) as Hinv1.
    { apply (bfs_inv_ext d); [|done]. intros v Hv. unfold d'.
      rewrite decide_False; [done|]. by intros ->. }
    assert (cur ≠ n) as Hcn.
    { intros ->. apply Hn. eapply bfs_inv_dequeued_marked; [done|].
      by eapply last_Some_elem_of. }
    assert (d' n = S (d' cur)) as Hdn.
    { unfold d'. by rewrite decide_True, decide_False. }
    pose proof (bfs_mark_inv d' n rest st cur Hinv1 Hcur Hedge Hn Hdn) as Hinv'.
    destruct (decide (Some n = end_)) as [Hend|Hend].
    + cbn [fst snd]. split; [done|]. split; [done|].
      exists d', cur, n, rest. bfs_simpl. split; [done|]. split; [done|]. split; [done|].
      split; [set_solver|]. split; [done|].
      intros _ p Hp. destruct (bfs_lower_bound d (n :: rest) st cur p n Hinv Hcur Hp)
        as [[? _]|Hle]; [done|].
      unfold d'. rewrite decide_True by done. done.
    + pose proof (bfs_noend_step end_ n rest st cur Hnoend Hend) as Hnoend'.
      rewrite decide_False in Hnoend' by done.
      by apply (IH (bfs_mark cur n st) d').
Qed.

(** Taking the head of the queue, when its validation succeeds. *)
Lemma bfs_popleft_inv d end_ st v q self' :
  bfs_queue st = v :: q →
  bfs_inv d [] st → bfs_noend end_ [] st →
  __vertexes self' = __vertexes (bfs_self st) →
  (∀ x, x ∈ __non_validated_vertexes self' ↔
        x ∈ __non_validated_vertexes (bfs_self st) ∧ x ≠ v) →
  ¬ fails_validation self0 v →
  bfs_inv d (neighbors v) (bfs_popleft v q self' st) ∧
  bfs_noend end_ (neighbors v) (bfs_popleft v q self' st).
Proof.
  intros Hq Hinv [Hend1 Hend2] Hix' Hnv' Hvalid.
  pose proof Hinv as [Hmk Hnd Hst Hsd Hix Hnv Hval Hre Hsc Hpa Hba Hso Hsz Hpar].
  rewrite Hq in *.
  assert (bfs_depth d (bfs_popleft v q self' st) = d v) as Hdepth.
  { unfold bfs_depth. bfs_simpl. by rewrite last_snoc. }
  assert ((bfs_dequeued st ++ [v]) ++ q = bfs_dequeued st ++ v :: q) as Happ.
  { by rewrite <-app_assoc. }
  pose proof (Hba v ltac:(left)) as Hv.
  rewrite fmap_cons in Hso. apply StronglySorted_cons in Hso as [Hhd Hso].
  split; [split|]; bfs_simpl; try done.
  - by rewrite Happ.
  - by rewrite Happ.
  - congruence.
  - intros x. rewrite Hnv', Hnv, elem_of_app, list_elem_of_singleton. naive_solver.
  - intros x [Hx| ->%list_elem_of_singleton]%elem_of_app; [by apply Hval|done].
  - intros u n [Hu| ->%list_elem_of_singleton]%elem_of_app Hn.
    + destruct (Hsc u n Hu Hn) as [?|[_ []%elem_of_nil]]. by left.
    + right. by rewrite last_snoc.
  - rewrite Hdepth. intros x [Hx| ->%list_elem_of_singleton]%elem_of_app; [|done].
    pose proof (Hpa x Hx). lia.
  - rewrite Hdepth. intros y Hy. pose proof (Hba y ltac:(by right)).
    rewrite Forall_forall in Hhd. pose proof (Hhd (d y) ltac:(by apply list_elem_of_fmap_2)).
    lia.
  - split; [done|]. intros u n [Hu| ->%list_elem_of_singleton]%elem_of_app Hn He.
    + by destruct (Hend2 u n Hu Hn He) as [_ []%elem_of_nil].
    + bfs_simpl. by rewrite last_snoc.
Qed.

(** The state in which the loop raises: the vertex dequeued last fails
    its validation and stays in the non-validated set. *)
Definition bfs_raised (e : exn) (st : bfs_state) : Prop :=
  ∃ v dq,
    e = ValueError v ∧ bfs_dequeued st = dq ++ [v] ∧
    fails_validation self0 v ∧ reachable start v ∧
    v ∈ __non_validated_vertexes (bfs_self st) ∧
    (∀ u, u ∈ dq → ¬ fails_validation self0 u) ∧
    NoDup (bfs_dequeued st ++ bfs_queue st) ∧
    __vertexes (bfs_self st) = __vertexes self0 ∧
    (∀ x, x ∈ __non_validated_vertexes (bfs_self st) ↔
          x ∈ __non_validated_vertexes self0 ∧ x ∉ dq).

Definition bfs_post (end_ : option V) (r : outcome bool * bfs_state) : Prop :=
  match r.1 with
  | Return true => bfs_found end_ r.2
  | Return false =>
      ∃ d, bfs_inv d [] r.2 ∧ bfs_noend end_ [] r.2 ∧ bfs_queue r.2 = []
  | Raise e => bfs_raised e r.2
  | OutOfFuel => True
  end.

Lemma bfs_while_inv fuel end_ : ∀ st d,
  bfs_inv d [] st → bfs_noend end_ [] st → bfs_post end_ (bfs_while fuel end_ st).
Proof.
  induction fuel as [|fuel IH]; intros st d Hinv Hnoend.
  { simpl. destruct (bfs_queue st) eqn:Hq; [|done]. by exists d. }
  simpl. destruct (bfs_queue st) as [|v q] eqn:Hq; [by exists d|].
  assert (v ∉ bfs_dequeued st) as Hvdq.
  { pose proof (bi_nodup _ _ _ Hinv) as Hnd. rewrite Hq in Hnd.
    apply NoDup_app in Hnd as (_ & Hnd & _). intros Hv. apply (Hnd v Hv). left. }
  assert (∀ self', __vertexes self' = __vertexes (bfs_self st) →
            (∀ x, x ∈ __non_validated_vertexes self' ↔
                  x ∈ __non_validated_vertexes (bfs_self st) ∧ x ≠ v) →
            ¬ fails_validation self0 v →
            bfs_post end_
              (let '(found, st2) := bfs_for v end_ (neighbors v) (bfs_popleft v q self' st) in
               if found then (Return true, st2) else bfs_while fuel end_ st2)) as Hround.
  { intros self' Hix' Hnv' Hvalid.
    destruct (bfs_popleft_inv d end_ st v q self' Hq Hinv Hnoend Hix' Hnv' Hvalid)
      as [Hinv1 Hnoend1].
    destruct (bfs_for_inv v end_ (neighbors v) (bfs_popleft v q self' st) d)
      as (_ & _ & Hfor); try done.
    { bfs_simpl. by rewrite last_snoc. }
    destruct (bfs_for v end_ (neighbors v) (bfs_popleft v q self' st)) as [[] st2];
      cbn [fst snd] in Hfor; [done|].
    destruct Hfor as (d' & Hinv2 & Hnoend2). by apply (IH st2 d'). }
  destruct (decide (v ∈ __non_validated_vertexes (bfs_self st))) as [Hv|Hv].
  - unfold _validate_vertex. rewrite decide_False by (by intros ?).
    destruct (all_neighbors_in (__vertexes (bfs_self st)) (neighbors v)) eqn:Hall.
    + apply Hround; [done|simpl; set_solver|].
      intros [_ Hfail]. rewrite <-(bi_index _ _ _ Hinv) in Hfail. congruence.
    + unfold bfs_post. cbn [fst snd]. exists v, (bfs_dequeued st). bfs_simpl.
      split; [done|]. split; [done|].
      split. { split; [by apply (bi_nv _ _ _ Hinv)| by rewrite <-(bi_index _ _ _ Hinv)]. }
      split. { eapply bi_reach, bfs_inv_queue_marked; [done..|]. rewrite Hq. left. }
      split; [done|]. split; [apply Hinv|].
      split. { rewrite <-app_assoc. simpl. rewrite <-Hq. apply Hinv. }
      split; apply Hinv.
  - apply Hround; [done| |].
    + intros x. split; [|naive_solver]. intros Hx. split; [done|]. by intros ->.
    + intros [Hv0 _]. apply Hv, (bi_nv _ _ _ Hinv). done.
Qed.

Lemma bfs_search_post end_ vertex_2_parent :
  bfs_post end_ (_breadth_first_search self0 start end_ vertex_2_parent).
Proof.
  apply (bfs_while_inv _ _ _ (λ _, 0)); [apply bfs_init_inv|].
  split; bfs_simpl.
  - by intros v ->%elem_of_singleton.
  - by intros u n ?%elem_of_nil.
Qed.

(** When the queue has run empty, every vertex within reach was dequeued. *)
Lemma bfs_exhausted d st u :
  bfs_inv d [] st → bfs_queue st = [] → reachable start u → u ∈ bfs_dequeued st.
Proof.
  intros Hinv Hq [p Hp].
  assert (∀ x, x ∈ bfs_marked_set st → x ∈ bfs_dequeued st) as Hmk.
  { intros x. rewrite (bi_marked _ _ _ Hinv), Hq, app_nil_r. set_solver. }
  induction Hp as [|p u v Hp IH Hv]; [apply Hmk, Hinv|].
  destruct (bi_scan _ _ _ Hinv u v IH Hv) as [[? _]|[_ []%elem_of_nil]]. by apply Hmk.
Qed.

Lemma bfs_found_reachable end_ st b :
  bfs_found end_ st → end_ = Some b → reachable_by_edge start b.
Proof.
  intros (d & cur & n & todo & Hcur & Hn & Hedge & _ & Hinv & _) ->.
  injection Hn as ->. apply reachable_by_edge_last. exists cur. split; [|done].
  eapply bi_reach, bfs_inv_dequeued_marked; [done..|]. by eapply last_Some_elem_of.
Qed.

Lemma bfs_not_found_unreachable d st b :
  bfs_inv d [] st → bfs_noend (Some b) [] st → bfs_queue st = [] →
  ¬ reachable_by_edge start b.
Proof.
  intros Hinv [_ Hscan] Hq (u & Hu & Hb)%reachable_by_edge_last.
  pose proof (bfs_exhausted d st u Hinv Hq Hu) as Hdq.
  by destruct (Hscan u b Hdq Hb eq_refl) as [_ []%elem_of_nil].
Qed.

(** The parent links of a marked vertex lead to [start] along a path of as
    many edges as the depth of the vertex. *)
Lemma bfs_parent_chain d todo st m :
  bfs_inv d todo st → bfs_vertex_2_parent st = Some m →
  ∀ k v, d v = k → v ∈ bfs_marked_set st →
    ∃ l, parent_chain m v l ∧ path start (rev l) v ∧ length l = S k ∧
         last l = Some start.
Proof.
  intros Hinv Hm. destruct (bi_parent _ _ _ Hinv m Hm) as (_ & Hroot & Hlink).
  induction k as [|k IH]; intros v Hk Hv.
  - destruct (decide (v = start)) as [->|Hne].
    + exists [start]. split; [by constructor|]. split; [constructor|done].
    + destruct (Hlink v Hv Hne) as (u & _ & _ & _ & Hd). lia.
  - destruct (decide (v = start)) as [->|Hne].
    { rewrite (bi_start_depth _ _ _ Hinv) in Hk. lia. }
    destruct (Hlink v Hv Hne) as (u & Hmv & Hu & Hedge & Hd).
    destruct (IH u ltac:(lia) Hu) as (l & Hchain & Hpath & Hlen & Hlast).
    exists (v :: l). split; [by econstructor|]. split; [|split].
    + simpl. by econstructor.
    + simpl. lia.
    + destruct l; [done|]. by rewrite last_cons_cons.
Qed.

Lemma bfs_extract d todo st m v :
  bfs_inv d todo st → bfs_vertex_2_parent st = Some m → v ∈ bfs_marked_set st →
  ∃ l, _extract_path_from_parent_dictionary v m = Return l ∧
       path start (rev l) v ∧ length l = S (d v) ∧
       head l = Some v ∧ last l = Some start.
Proof.
  intros Hinv Hm Hv.
  destruct (bfs_parent_chain d todo st m Hinv Hm (d v) v eq_refl Hv)
    as (l & Hchain & Hpath & Hlen & Hlast).
  exists l. split; [|by eauto using parent_chain_head].
  unfold _extract_path_from_parent_dictionary.
  rewrite (extract_while_chain m v l); [done..|].
  destruct (bi_parent _ _ _ Hinv m Hm) as (Hdom & _ & _).
  pose proof (bi_size _ _ _ Hinv v Hv). apply subseteq_size in Hdom.
  rewrite size_dom in Hdom. lia.
Qed.

End bfs_invariant.

Lemma bfs_for_parent_Some vertex end_ ns st :
  is_Some (bfs_vertex_2_parent st) →
  is_Some (bfs_vertex_2_parent (bfs_for vertex end_ ns st).2).
Proof.
  revert st. induction ns as [|n ns IH]; intros st Hst; simpl; [done|].
  assert (is_Some (bfs_vertex_2_parent
            (if decide (n ∈ bfs_marked_set st) then st else bfs_mark vertex n st))).
  { case_decide; [done|]. destruct Hst as [m Hm]. simpl. rewrite Hm. by eexists. }
  destruct (decide (Some n = end_)); [done|]. by apply IH.
Qed.

Lemma bfs_while_parent_Some fuel end_ st :
  is_Some (bfs_vertex_2_parent st) →
  is_Some (bfs_vertex_2_parent (bfs_while fuel end_ st).2).
Proof.
  revert st. induction fuel as [|fuel IH]; intros st Hst; simpl.
  - by destruct (bfs_queue st).
  - destruct (bfs_queue st) as [|v q]; [done|].
    destruct (if decide (v ∈ _) then _ else _) as [valid self'].
    destruct valid; [|done].
    pose proof (bfs_for_parent_Some v end_ (neighbors v) (bfs_popleft v q self' st) Hst) as Hfor.
    destruct (bfs_for v end_ (neighbors v) (bfs_popleft v q self' st)) as [[] st2];
      simpl in *; [done|]. by apply IH.
Qed.

Lemma bfs_search_forget self start end_ m :
  _breadth_first_search self start end_ None =
  ((_breadth_first_search self start end_ (Some m)).1,
   bfs_forget (_breadth_first_search self start end_ (Some m)).2).
Proof.
  unfold _breadth_first_search. rewrite <-bfs_while_forget. done.
Qed.

(** ** Breadth-first search: what the public operations return *)

Lemma bfs_outcome_spec self a b vertex_2_parent :
  match (_breadth_first_search self a (Some b) vertex_2_parent).1 with
  | Return true => reachable_by_edge a b
  | Return false => ¬ reachable_by_edge a b
  | Raise e => ∃ v, e = ValueError v ∧ reachable a v ∧ fails_validation self v
  | OutOfFuel => False
  end.
Proof.
  pose proof (bfs_search_post self a (Some b) vertex_2_parent) as Hpost.
  pose proof (bfs_fuel_enough self a (Some b) vertex_2_parent) as Hfuel.
  unfold bfs_post in Hpost.
  destruct (_breadth_first_search self a (Some b) vertex_2_parent) as [[[]|e|] st];
    cbn [fst snd] in *; [| | |done].
  - by eapply bfs_found_reachable.
  - destruct Hpost as (d & Hinv & Hnoend & Hq). by eapply bfs_not_found_unreachable.
  - destruct Hpost as (v & dq & -> & _ & Hfail & Hreach & _). by exists v.
Qed.

Lemma breadth_first_search_outcome self a b m :
  (breadth_first_search self a b).1 = (_breadth_first_search self a (Some b) (Some m)).1.
Proof. unfold breadth_first_search. by rewrite (bfs_search_forget _ _ _ m). Qed.

Lemma find_shortest_path_spec self a b :
  match (breadth_first_search self a b).1 with
  | Return true =>
      ∃ l, (∀ reverse, (find_shortest_path self a b reverse).1
                       = Return (Some (if reverse then l else rev l))) ∧
           head l = Some b ∧ last l = Some a ∧ path a (rev l) b ∧
           (a ≠ b → ∀ p, path a p b → edge_count (rev l) ≤ edge_count p) ∧
           (a = b → l = [a])
  | Return false => ∀ reverse, (find_shortest_path self a b reverse).1 = Return None
  | Raise e => ∀ reverse, (find_shortest_path self a b reverse).1 = Raise e
  | OutOfFuel => False
  end.
Proof.
  rewrite (breadth_first_search_outcome self a b ∅).
  pose proof (bfs_search_post self a (Some b) (Some ∅)) as Hpost.
  pose proof (bfs_fuel_enough self a (Some b) (Some ∅)) as Hfuel.
  pose proof (bfs_while_parent_Some (S (card V)) (Some b) (bfs_init self a (Some ∅))
                ltac:(by eexists)) as [m Hm].
  fold (_breadth_first_search self a (Some b) (Some ∅)) in Hm.
  unfold bfs_post in Hpost.
  destruct (_breadth_first_search self a (Some b) (Some ∅)) as [out st] eqn:Hrun.
  cbn [fst snd] in *.
  destruct out as [[]|e|]; [| | |done].
  2: { intros reverse. unfold find_shortest_path. by rewrite Hrun. }
  2: { intros reverse. unfold find_shortest_path. by rewrite Hrun. }
  destruct Hpost as (d & cur & n & todo & Hcur & Hn & Hedge & Hmarked & Hinv & Hlow).
  injection Hn as ->.
  destruct (bfs_extract self a d todo st m b Hinv Hm Hmarked)
    as (l & Hext & Hpath & Hlen & Hhead & Hlast).
  assert (edge_count (rev l) = d b) as Hcount.
  { unfold edge_count. rewrite length_rev, Hlen. done. }
  exists l. split; [|repeat (split; [done|]); split].
  - intros reverse. unfold find_shortest_path. rewrite Hrun. cbn [fst snd outcome_bind].
    rewrite Hm. cbn [default from_option id]. rewrite Hext. cbn [outcome_bind].
    by destruct reverse.
  - intros Hne p Hp. rewrite Hcount. apply Hlow; [by intros ->|done].
  - intros <-. rewrite (bi_start_depth _ _ _ _ _ Hinv) in Hlen.
    destruct l as [|x [|]]; simpl in *; try lia. by injection Hhead as ->.
Qed.

(** ** Dijkstra: the loop ends *)

Ltac dj_simpl :=
  cbn [dj_distance dj_remaining_vertexes dj_visited dj_vertex_2_parent dj_finalized
       dijkstra_init dj_relax dj_get dj_visit distance vertex fst snd] in *.

(** The edges that leave the vertices not finalized yet. *)
Definition pending (X : gset V) (l : list V) : nat :=
  sum_list ((λ v, length (neighbors v)) <$> filter (λ v, v ∉ X) l).

Definition dj_potential (st : dijkstra_state) : nat :=
  length (pq_items (dj_remaining_vertexes st)) + pending (dj_visited st) (enum V).

Lemma pending_absent (X : gset V) u l :
  u ∉ l → pending ({[u]} ∪ X) l = pending X l.
Proof.
  unfold pending. induction l as [|x l IH]; [done|].
  intros [Hx Hl]%not_elem_of_cons. rewrite !filter_cons.
  specialize (IH Hl). repeat case_decide; csimpl in *; try lia; set_solver.
Qed.

Lemma pending_visit (X : gset V) u l :
  NoDup l → u ∈ l → u ∉ X →
  pending X l = length (neighbors u) + pending ({[u]} ∪ X) l.
Proof.
  unfold pending. induction l as [|x l IH]; intros Hnd Hu HX.
  - by apply elem_of_nil in Hu.
  - apply NoDup_cons in Hnd as [Hx Hnd]. rewrite !filter_cons.
    destruct (decide (x = u)) as [->|Hne].
    + pose proof (pending_absent X u l Hx) as Habs. unfold pending in Habs.
      repeat case_decide; csimpl in *; try lia; set_solver.
    + apply elem_of_cons in Hu as [->|Hu]; [done|].
      specialize (IH Hnd Hu HX). repeat case_decide; csimpl in *; try lia; set_solver.
Qed.

Lemma pending_le (X : gset V) l :
  pending X l ≤ sum_list ((λ v, length (neighbors v)) <$> l).
Proof.
  unfold pending. induction l as [|x l IH]; [done|].
  rewrite filter_cons. case_decide; csimpl in *; lia.
Qed.

Lemma dijkstra_for_frame current_vertex current_distance ns : ∀ st,
  (∀ n, n ∈ ns → n ∈ neighbors current_vertex) →
  match dijkstra_for current_vertex current_distance ns st with
  | Return st' =>
      length (pq_items (dj_remaining_vertexes st'))
        ≤ length (pq_items (dj_remaining_vertexes st)) + length ns ∧
      dj_visited st' = dj_visited st ∧ dj_finalized st' = dj_finalized st ∧
      dom (dj_distance st') = dom (dj_distance st) ∧
      ∀ n, n ∈ ns → n ∈ dom (dj_distance st)
  | Raise e => ∃ n, e = KeyError n ∧ n ∈ ns ∧ n ∉ dom (dj_distance st)
  | OutOfFuel => False
  end.
Proof.
  induction ns as [|n ns IH]; intros st Hns0; simpl.
  { split; [lia|]. repeat (split; [done|]). by intros n ?%elem_of_nil. }
  assert (∀ n', n' ∈ ns → n' ∈ neighbors current_vertex) as Hns1.
  { intros n' Hn'. apply Hns0. by right. }
  destruct (get_weight_neighbor current_vertex n) as [w Hw]; [apply Hns0; left|].
  rewrite Hw.
  destruct (dj_distance st !! n) as [d0|] eqn:Hd; cycle 1.
  { exists n. split; [done|]. split; [left|]. by apply not_elem_of_dom. }
  assert (n ∈ dom (dj_distance st)) as Hn by (apply elem_of_dom; by eexists).
  destruct (float_ltb (current_distance + w) d0).
  - specialize (IH (dj_relax current_vertex n (current_distance + w)%Q st) Hns1).
    destruct (dijkstra_for _ _ ns _) as [st'|e|]; [| |done].
    + dj_simpl. destruct IH as (Hlen & Hvis & Hfin & Hdom & Hns).
      rewrite pq_items_put in Hlen. simpl in Hlen.
      rewrite dom_insert_L in Hdom, Hns.
      split; [lia|]. split; [done|]. split; [done|]. split; [set_solver|].
      intros n' [->|Hn']%elem_of_cons; [done|]. specialize (Hns n' Hn'). set_solver.
    + destruct IH as (n' & -> & Hn' & Hnone). exists n'. split; [done|].
      split; [by right|]. dj_simpl. rewrite dom_insert_L in Hnone. set_solver.
  - specialize (IH st Hns1). destruct (dijkstra_for _ _ ns _) as [st'|e|]; [| |done].
    + destruct IH as (Hlen & Hvis & Hfin & Hdom & Hns).
      split; [lia|]. repeat (split; [done|]).
      intros n' [->|Hn']%elem_of_cons; [done|]. by apply Hns.
    + destruct IH as (n' & -> & Hn' & Hnone). exists n'. split; [done|].
      split; [by right|done].
Qed.

Lemma pq_get_length (q q' : PQ) x :
  pq_get q = Some (x, q') → length (pq_items q) = S (length (pq_items q')).
Proof. intros [Hperm _]%pq_get_Some. by rewrite Hperm. Qed.

Lemma dijkstra_while_fuel fuel end_ : ∀ st,
  dj_potential st ≤ fuel → (dijkstra_while fuel end_ st).1 ≠ OutOfFuel.
Proof.
  induction fuel as [|fuel IH]; intros st Hpot; simpl;
    destruct (pq_get (dj_remaining_vertexes st)) as [[x q']|] eqn:Hget; try done;
    apply pq_get_length in Hget; unfold dj_potential in Hpot.
  { lia. }
  destruct (decide (vertex x ∈ dj_visited st)) as [Hvis|Hvis].
  { apply IH. unfold dj_potential. dj_simpl. lia. }
  pose proof (dijkstra_for_frame (vertex x) (distance x) (neighbors (vertex x))
                (dj_visit (vertex x) (dj_get q' st)) ltac:(done)) as Hfor.
  destruct (dijkstra_for _ _ _ _) as [st3|e|]; [|done..].
  destruct Hfor as (Hlen & Hv & _). dj_simpl.
  destruct (decide (Some (vertex x) = end_)); [done|]. apply IH.
  unfold dj_potential. rewrite Hv.
  rewrite (pending_visit (dj_visited st) (vertex x) (enum V)) in Hpot;
    [lia | apply NoDup_enum | apply elem_of_enum | done].
Qed.

Lemma dijkstra_fuel_enough self start end_ vertex_2_parent :
  (_dijkstra_search self start end_ vertex_2_parent).1 ≠ OutOfFuel.
Proof.
  apply dijkstra_while_fuel. unfold dj_potential, dijkstra_fuel. dj_simpl.
  rewrite pq_items_put, pq_items_new. simpl.
  pose proof (pending_le ∅ (enum V)). lia.
Qed.

(** ** Dijkstra: the parent dictionary does not steer the loop *)

Definition dj_forget (st : dijkstra_state) : dijkstra_state :=
  mkDj (dj_distance st) (dj_remaining_vertexes st) (dj_visited st) None (dj_finalized st).

Lemma dijkstra_for_forget current_vertex current_distance ns : ∀ st,
  dijkstra_for current_vertex current_distance ns (dj_forget st) =
  outcome_bind (λ st', Return (dj_forget st'))
    (dijkstra_for current_vertex current_distance ns st).
Proof.
  induction ns as [|n ns IH]; intros st; simpl; [done|].
  destruct (get_weight current_vertex n) as [w|]; [|done].
  destruct (dj_distance st !! n) as [d0|]; [|done].
  destruct (float_ltb (current_distance + w) d0); [|apply IH].
  apply (IH (dj_relax current_vertex n (current_distance + w)%Q st)).
Qed.

Lemma dijkstra_while_forget fuel end_ : ∀ st,
  dijkstra_while fuel end_ (dj_forget st) =
  ((dijkstra_while fuel end_ st).1, dj_forget (dijkstra_while fuel end_ st).2).
Proof.
  induction fuel as [|fuel IH]; intros st; simpl;
    destruct (pq_get (dj_remaining_vertexes st)) as [[x q']|]; try done.
  destruct (decide (vertex x ∈ dj_visited st)) as [Hvis|Hvis].
  { apply (IH (dj_get q' st)). }
  change (dj_visit (vertex x) (dj_get q' (dj_forget st)))
    with (dj_forget (dj_visit (vertex x) (dj_get q' st))).
  rewrite dijkstra_for_forget.
  destruct (dijkstra_for _ _ _ (dj_visit (vertex x) (dj_get q' st))) as [st3|e|];
    simpl; [|done..].
  destruct (decide (Some (vertex x) = end_)); [done|]. apply IH.
Qed.

Lemma dijkstra_search_forget self start end_ m :
  _dijkstra_search self start end_ None =
  ((_dijkstra_search self start end_ (Some m)).1,
   dj_forget (_dijkstra_search self start end_ (Some m)).2).
Proof. unfold _dijkstra_search. by rewrite <-dijkstra_while_forget. Qed.

(** ** Dijkstra: the distance table and the finalized vertices *)

Section dijkstra_invariant.

Variables (self : Graph) (start : V).

(** The keys of the distance table: the index of the graph and [start]. *)
Definition dj_keys : gset V := {[start]} ∪ dom (__vertexes self).

Record dj_struct (st : dijkstra_state) : Prop := DjStruct {
  ds_dom : dom (dj_distance st) = dj_keys;
  ds_visited : dj_visited st = list_to_set (dj_finalized st);
  ds_nodup : NoDup (dj_finalized st);
  ds_present : ∀ u n, u ∈ dj_finalized st → n ∈ neighbors u → n ∈ dj_keys
}.

(** The state in which the loop raises: the vertex finalized last has a
    neighbor without an entry in the distance table. *)
Definition dj_raised (e : exn) (st : dijkstra_state) : Prop :=
  ∃ u n fin,
    e = KeyError n ∧ dj_finalized st = fin ++ [u] ∧ NoDup (dj_finalized st) ∧
    n ∈ neighbors u ∧ (n ∉ dj_keys) ∧
    ∀ u' n', u' ∈ fin → n' ∈ neighbors u' → n' ∈ dj_keys.

Definition dj_post (end_ : option V) (r : outcome bool * dijkstra_state) : Prop :=
  match r.1 with
  | Return found =>
      dj_struct r.2 ∧
      (found = true → ∃ e, end_ = Some e ∧ last (dj_finalized r.2) = Some e) ∧
      (found = false → pq_items (dj_remaining_vertexes r.2) = [])
  | Raise e => dj_raised e r.2
  | OutOfFuel => True
  end.

Lemma dijkstra_init_struct vertex_2_parent :
  dj_struct (dijkstra_init self start vertex_2_parent).
Proof.
  split; dj_simpl.
  - by rewrite dom_insert_L, dom_fmap_L.
  - done.
  - constructor.
  - by intros u n ?%elem_of_nil.
Qed.

Lemma dijkstra_while_struct fuel end_ : ∀ st,
  dj_struct st → dj_post end_ (dijkstra_while fuel end_ st).
Proof.
  induction fuel as [|fuel IH]; intros st Hst; simpl;
    destruct (pq_get (dj_remaining_vertexes st)) as [[x q']|] eqn:Hget; try done;
    try (split; [done|]; split; [done|]; intros _; by apply pq_get_None).
  destruct (decide (vertex x ∈ dj_visited st)) as [Hvis|Hvis].
  { apply IH. by destruct Hst. }
  pose proof (dijkstra_for_frame (vertex x) (distance x) (neighbors (vertex x))
                (dj_visit (vertex x) (dj_get q' st)) ltac:(done)) as Hfor.
  destruct Hst as [Hdom Hv Hnd Hpres].
  assert (NoDup (dj_finalized st ++ [vertex x])) as Hnd'.
  { apply NoDup_app. split; [done|]. split; [|apply NoDup_singleton].
    intros y Hy ->%list_elem_of_singleton. apply Hvis. rewrite Hv. set_solver. }
  destruct (dijkstra_for _ _ _ _) as [st3|e|]; [| |done].
  - destruct Hfor as (_ & Hv3 & Hfin3 & Hdom3 & Hns). dj_simpl.
    assert (dj_struct st3) as Hst3.
    { split.
      - by rewrite Hdom3.
      - rewrite Hv3, Hfin3, Hv, list_to_set_app_L. set_solver.
      - by rewrite Hfin3.
      - rewrite Hfin3. intros u n [Hu| ->%list_elem_of_singleton]%elem_of_app Hn.
        + by eapply Hpres.
        + rewrite <-Hdom. by apply Hns. }
    destruct (decide (Some (vertex x) = end_)) as [Hend|Hend]; [|by apply IH].
    split; [done|]. split; [|done]. intros _. exists (vertex x). split; [done|].
    cbn [snd]. by rewrite Hfin3, last_snoc.
  - destruct Hfor as (n & -> & Hn & Hnone). dj_simpl.
    exists (vertex x), n, (dj_finalized st). cbn [snd]. dj_simpl.
    repeat (split; [done|]). split; [by rewrite <-Hdom|done].
Qed.

Lemma dijkstra_search_post end_ vertex_2_parent :
  dj_post end_ (_dijkstra_search self start end_ vertex_2_parent).
Proof. apply dijkstra_while_struct, dijkstra_init_struct. Qed.

(** ** Dijkstra: shortest distances, for weights that are not negative *)

Lemma elem_of_pq_put (q : PQ) x e :
  e ∈ pq_items (pq_put x q) ↔ e = x ∨ e ∈ pq_items q.
Proof. by rewrite pq_items_put, elem_of_cons. Qed.

Lemma elem_of_pq_get (q q' : PQ) x e :
  pq_get q = Some (x, q') → e ∈ pq_items q ↔ e = x ∨ e ∈ pq_items q'.
Proof. intros [Hperm _]%pq_get_Some. by rewrite Hperm, elem_of_cons. Qed.

Lemma float_ltb_true x d :
  float_ltb x d = true ↔ d = Inf ∨ ∃ y, d = Real y ∧ (x < y)%Q.
Proof.
  destruct d as [y|]; simpl; [|naive_solver].
  unfold Qltb. destruct (Qlt_le_dec x y) as [Hlt|Hle].
  - split; [|done]. intros _. right. by exists y.
  - split; [done|]. intros [?|(y' & [= <-] & Hlt)]; [done|]. lra.
Qed.

Lemma float_ltb_false x d :
  float_ltb x d = false ↔ ∃ y, d = Real y ∧ (y <= x)%Q.
Proof.
  destruct d as [y|]; simpl; [|naive_solver].
  unfold Qltb. destruct (Qlt_le_dec x y) as [Hlt|Hle].
  - split; [done|]. intros (y' & [= <-] & Hle). lra.
  - split; [|done]. intros _. by exists y.
Qed.

Hypothesis weights_nonneg : nonnegative_weights.

(** [todo] holds the neighbors of the vertex finalized last that the
    [for] loop has not relaxed yet. *)
Record dj_inv (todo : list V) (st : dijkstra_state) : Prop := DjInv {
  di_start : dj_distance st !! start = Some (Real 0);
  di_visited : dj_visited st = list_to_set (dj_finalized st);
  di_items_nonneg : ∀ e, e ∈ pq_items (dj_remaining_vertexes st) → (0 <= distance e)%Q;
  di_items_dist : ∀ e, e ∈ pq_items (dj_remaining_vertexes st) →
      ∃ x, dj_distance st !! vertex e = Some (Real x) ∧ (x <= distance e)%Q;
  di_best : ∀ v x, dj_distance st !! v = Some (Real x) → v ∉ dj_visited st →
      ∃ e, e ∈ pq_items (dj_remaining_vertexes st) ∧ vertex e = v ∧ (distance e == x)%Q;
  di_visited_dist : ∀ u, u ∈ dj_visited st → ∃ y, dj_distance st !! u = Some (Real y);
  di_relaxed : ∀ u y n w, u ∈ dj_visited st → dj_distance st !! u = Some (Real y) →
      get_weight u n = Some w →
      (∃ z, dj_distance st !! n = Some (Real z) ∧ (z <= y + w)%Q) ∨
      (last (dj_finalized st) = Some u ∧ n ∈ todo);
  di_order : ∀ u y e, u ∈ dj_visited st → dj_distance st !! u = Some (Real y) →
      e ∈ pq_items (dj_remaining_vertexes st) → (y <= distance e)%Q;
  di_opt : ∀ u y p, u ∈ dj_visited st → dj_distance st !! u = Some (Real y) →
      path start p u → (y <= path_weight p)%Q;
  di_parent : ∀ m, dj_vertex_2_parent st = Some m →
      dj_keys ⊆ dom m ∧ m !! start = Some None ∧
      ∀ v x, dj_distance st !! v = Some (Real x) → v ≠ start →
        ∃ u y w i, m !! v = Some (Some u) ∧ dj_finalized st !! i = Some u ∧
                   (∀ j, dj_finalized st !! j = Some v → i < j) ∧
                   get_weight u v = Some w ∧
                   dj_distance st !! u = Some (Real y) ∧ (x == y + w)%Q
}.

Lemma dijkstra_init_inv vertex_2_parent :
  (∀ m, vertex_2_parent = Some m → dj_keys ⊆ dom m ∧ m !! start = Some None) →
  dj_inv [] (dijkstra_init self start vertex_2_parent).
Proof.
  intros Hm0.
  assert (∀ v x, (<[start:=Real 0]> ((λ _, Inf) <$> __vertexes self) : gmap V pyfloat) !! v
                 = Some (Real x) → v = start ∧ x = 0%Q) as Hreal.
  { intros v x. destruct (decide (v = start)) as [->|Hne].
    - rewrite lookup_insert_eq. by intros [= <-].
    - rewrite lookup_insert_ne, lookup_fmap by done.
      by destruct (__vertexes self !! v). }
  assert (∀ e, e ∈ pq_items (pq_put (ShortestDistance 0 start) pq_new) ↔
               e = ShortestDistance 0 start) as Hitems.
  { intros e. rewrite elem_of_pq_put, pq_items_new, elem_of_nil. naive_solver. }
  split; dj_simpl.
  - apply lookup_insert_eq.
  - done.
  - intros e ->%Hitems. simpl. lra.
  - intros e ->%Hitems. exists 0%Q. simpl. rewrite lookup_insert_eq. split; [done|lra].
  - intros v x [-> ->]%Hreal _. exists (ShortestDistance 0 start).
    rewrite Hitems. simpl. split; [done|]. split; [done|lra].
  - by intros u ?%elem_of_empty.
  - by intros u y n w ?%elem_of_empty.
  - by intros u y e ?%elem_of_empty.
  - by intros u y p ?%elem_of_empty.
  - intros m Hm. destruct (Hm0 m Hm) as [Hdom Hroot]. split; [done|]. split; [done|].
    by intros v x [-> _]%Hreal.
Qed.

(** Every path from [start] ends at a finalized vertex whose distance is
    at most the weight of the path, or weighs at least as much as some
    entry in the queue. *)
Lemma dj_frontier st p v :
  dj_inv [] st → path start p v →
  (v ∈ dj_visited st ∧ ∃ y, dj_distance st !! v = Some (Real y) ∧ (y <= path_weight p)%Q) ∨
  (∃ e, e ∈ pq_items (dj_remaining_vertexes st) ∧ (distance e <= path_weight p)%Q).
Proof.
  intros Hinv Hp.
  assert (∀ v z q, dj_distance st !! v = Some (Real z) → (z <= q)%Q →
    (v ∈ dj_visited st ∧ ∃ y, dj_distance st !! v = Some (Real y) ∧ (y <= q)%Q) ∨
    (∃ e, e ∈ pq_items (dj_remaining_vertexes st) ∧ (distance e <= q)%Q)) as Hcase.
  { intros v' z q Hz Hle. destruct (decide (v' ∈ dj_visited st)) as [Hv|Hv].
    - left. split; [done|]. by exists z.
    - right. destruct (di_best _ _ Hinv v' z Hz Hv) as (e & He & _ & Hd).
      exists e. split; [done|lra]. }
  induction Hp as [|p u v Hp IH Hv].
  - apply (Hcase start 0%Q); [apply Hinv|simpl; lra].
  - destruct (get_weight_neighbor u v Hv) as [w Hw].
    pose proof (weights_nonneg u v w Hw) as Hw0.
    pose proof (path_weight_snoc p u v (path_last _ _ _ Hp)) as Hsnoc.
    rewrite Hw in Hsnoc. simpl in Hsnoc.
    destruct IH as [(Hu & y & Hy & Hle)|(e & He & Hle)].
    + destruct (di_relaxed _ _ Hinv u y v w Hu Hy Hw) as [(z & Hz & Hzle)|[_ []%elem_of_nil]].
      apply (Hcase v z); [done|lra].
    + right. exists e. split; [done|lra].
Qed.

(** What the [for] loop knows of the vertex it relaxes from: it was
    finalized last, at the distance it was popped with, and no finalized
    vertex is farther. *)
Definition dj_current (cur : V) (cd : Q) (st : dijkstra_state) : Prop :=
  last (dj_finalized st) = Some cur ∧
  (∃ y, dj_distance st !! cur = Some (Real y) ∧ (y == cd)%Q) ∧
  (∀ u y, u ∈ dj_visited st → dj_distance st !! u = Some (Real y) → (y <= cd)%Q) ∧
  (0 <= cd)%Q.

Lemma dj_current_visited todo cur cd st :
  dj_inv todo st → dj_current cur cd st → cur ∈ dj_visited st.
Proof.
  intros Hinv (Hlast & _). rewrite (di_visited _ _ Hinv), elem_of_list_to_set.
  by eapply last_Some_elem_of.
Qed.

(** One round of the [for] loop that leaves the distance table as it is. *)
Lemma dj_skip_inv cur cd n rest st w z :
  dj_inv (n :: rest) st → dj_current cur cd st →
  get_weight cur n = Some w →
  dj_distance st !! n = Some (Real z) → (z <= cd + w)%Q →
  dj_inv rest st.
Proof.
  intros Hinv (Hlast & (yc & Hyc & Hyc') & _ & _) Hw Hz Hle.
  pose proof Hinv as [Hst Hvis Hnn Hid Hbest Hvd Hrel Hord Hopt Hpar].
  split; try done.
  intros u y n' w' Hu Hy Hw'.
  destruct (Hrel u y n' w' Hu Hy Hw') as [?|[Hlast' Htodo]]; [by left|].
  apply elem_of_cons in Htodo as [->|Htodo]; [left|by right].
  rewrite Hlast in Hlast'. injection Hlast' as <-.
  rewrite Hyc in Hy. injection Hy as <-. rewrite Hw in Hw'. injection Hw' as <-.
  exists z. split; [done|lra].
Qed.

(** One round of the [for] loop that improves the distance of [n]. *)
Lemma dj_relax_inv cur cd n rest st w d0 :
  dj_inv (n :: rest) st → dj_current cur cd st →
  get_weight cur n = Some w →
  dj_distance st !! n = Some d0 → float_ltb (cd + w) d0 = true →
  dj_inv rest (dj_relax cur n (cd + w)%Q st) ∧
  dj_current cur cd (dj_relax cur n (cd + w)%Q st).
Proof.
  intros Hinv Hcur Hw Hd0 Hlt.
  pose proof (dj_current_visited _ _ _ _ Hinv Hcur) as Hcurv.
  destruct Hcur as (Hlast & (yc & Hyc & Hyc') & Hfar & Hcd).
  pose proof Hinv as [Hst Hvis Hnn Hid Hbest Hvd Hrel Hord Hopt Hpar].
  pose proof (weights_nonneg cur n w Hw) as Hw0.
  apply float_ltb_true in Hlt.
  assert (∀ z, d0 = Real z → (cd + w < z)%Q) as Hltz.
  { intros z ->. destruct Hlt as [|(y & [= <-] & ?)]; done. }
  assert (n ∉ dj_visited st) as Hnv.
  { intros Hn. destruct (Hvd n Hn) as [z Hz]. rewrite Hd0 in Hz. injection Hz as ->.
    pose proof (Hfar n z Hn Hd0). pose proof (Hltz z eq_refl). lra. }
  assert (n ≠ start) as Hns.
  { intros ->. rewrite Hst in Hd0. injection Hd0 as <-.
    pose proof (Hltz 0%Q eq_refl). lra. }
  assert (n ≠ cur) as Hnc by (by intros ->).
  assert (∀ u, u ∈ dj_visited st →
            <[n:=Real (cd + w)]> (dj_distance st) !! u = dj_distance st !! u) as Hsame.
  { intros u Hu. apply lookup_insert_ne. by intros ->. }
  split; [split|]; dj_simpl.
  - by rewrite lookup_insert_ne.
  - done.
  - intros e [->|He]%elem_of_pq_put; [simpl; lra|by apply Hnn].
  - intros e [->|He]%elem_of_pq_put.
    { exists (cd + w)%Q. simpl. rewrite lookup_insert_eq. split; [done|lra]. }
    destruct (Hid e He) as (x & Hx & Hxe).
    destruct (decide (vertex e = n)) as [Hen|Hen].
    + rewrite Hen in *. exists (cd + w)%Q. rewrite lookup_insert_eq. split; [done|].
      rewrite Hd0 in Hx. injection Hx as ->. pose proof (Hltz x eq_refl). lra.
    + exists x. by rewrite lookup_insert_ne.
  - intros v x Hx Hv. destruct (decide (v = n)) as [->|Hvn].
    + rewrite lookup_insert_eq in Hx. injection Hx as <-.
      exists (ShortestDistance (cd + w) n). rewrite elem_of_pq_put. simpl.
      split; [by left|]. split; [done|lra].
    + rewrite lookup_insert_ne in Hx by done.
      destruct (Hbest v x Hx Hv) as (e & He & Hev & Hed). exists e.
      rewrite elem_of_pq_put. split; [by right|done].
  - intros u Hu. rewrite Hsame by done. by apply Hvd.
  - intros u y n' w' Hu Hy Hw'. rewrite Hsame in Hy by done.
    destruct (decide (n' = n)) as [->|Hn'].
    + left. exists (cd + w)%Q. rewrite lookup_insert_eq. split; [done|].
      destruct (Hrel u y n w' Hu Hy Hw') as [(z & Hz & Hzle)|[Hlast' _]].
      * rewrite Hd0 in Hz. injection Hz as ->. pose proof (Hltz z eq_refl). lra.
      * rewrite Hlast in Hlast'. injection Hlast' as <-.
        rewrite Hyc in Hy. injection Hy as <-. rewrite Hw in Hw'. injection Hw' as <-. lra.
    + rewrite lookup_insert_ne by done.
      destruct (Hrel u y n' w' Hu Hy Hw') as [?|[Hlast' Htodo]]; [by left|].
      apply elem_of_cons in Htodo as [->|Htodo]; [done|by right].
  - intros u y e Hu Hy [->|He]%elem_of_pq_put.
    + rewrite Hsame in Hy by done. pose proof (Hfar u y Hu Hy). simpl. lra.
    + rewrite Hsame in Hy by done. by eapply Hord.
  - intros u y p Hu Hy. rewrite Hsame in Hy by done. by apply Hopt.
  - intros m' Hm'. destruct (dj_vertex_2_parent st) as [m|]; [|done].
    injection Hm' as <-. destruct (Hpar m eq_refl) as (Hdom & Hroot & Hlink).
    split; [rewrite dom_insert_L; set_solver|].
    split; [by rewrite lookup_insert_ne|].
    intros v x Hx Hvs. destruct (decide (v = n)) as [->|Hvn].
    + rewrite lookup_insert_eq in Hx. injection Hx as <-.
      apply last_Some in Hlast as [fin Hfin].
      exists cur, yc, w, (length fin). rewrite lookup_insert_eq. split; [done|].
      split. { rewrite Hfin. by apply list_lookup_middle. }
      split. { intros j Hj. destruct Hnv. rewrite Hvis. apply elem_of_list_to_set.
               by eapply list_elem_of_lookup_2. }
      split; [done|]. split; [by rewrite lookup_insert_ne|lra].
    + rewrite lookup_insert_ne in Hx by done.
      destruct (Hlink v x Hx Hvs) as (u & y & w' & i & Hmv & Hi & Hij & Hw' & Hy & Hxy).
      exists u, y, w', i. rewrite lookup_insert_ne by done.
      repeat (split; [done|]). split; [|done].
      rewrite Hsame; [done|]. rewrite Hvis. apply elem_of_list_to_set.
      by eapply list_elem_of_lookup_2.
  - split; [done|]. split; [|split; [|done]]; dj_simpl.
    + exists yc. by rewrite lookup_insert_ne.
    + intros u y Hu Hy. rewrite Hsame in Hy by done. by eapply Hfar.
Qed.

Lemma dijkstra_for_inv cur cd todo : ∀ st st',
  dj_inv todo st → dj_current cur cd st →
  dijkstra_for cur cd todo st = Return st' →
  dj_inv [] st' ∧ dj_finalized st' = dj_finalized st.
Proof.
  induction todo as [|n rest IH]; intros st st' Hinv Hcur Hret; simpl in Hret.
  { by injection Hret as <-. }
  destruct (get_weight cur n) as [w|] eqn:Hw; [|done].
  destruct (dj_distance st !! n) as [d0|] eqn:Hd0; [|done].
  destruct (float_ltb (cd + w) d0) eqn:Hlt.
  - destruct (dj_relax_inv cur cd n rest st w d0 Hinv Hcur Hw Hd0 Hlt) as [Hinv' Hcur'].
    by destruct (IH _ _ Hinv' Hcur' Hret).
  - apply float_ltb_false in Hlt as (z & -> & Hz).
    apply (IH st st'); [|done..]. by eapply dj_skip_inv.
Qed.

(** Popping an entry of a vertex that is finalized already. *)
Lemma dj_pop_stale st x q' :
  dj_inv [] st → pq_get (dj_remaining_vertexes st) = Some (x, q') →
  vertex x ∈ dj_visited st → dj_inv [] (dj_get q' st).
Proof.
  intros Hinv Hget Hx.
  pose proof Hinv as [Hst Hvis Hnn Hid Hbest Hvd Hrel Hord Hopt Hpar].
  assert (∀ e, e ∈ pq_items q' → e ∈ pq_items (dj_remaining_vertexes st)) as Hsub.
  { intros e He. rewrite (elem_of_pq_get _ _ _ _ Hget). by right. }
  split; dj_simpl; try done.
  - intros e He. by apply Hnn, Hsub.
  - intros e He. by apply Hid, Hsub.
  - intros v y Hy Hv. destruct (Hbest v y Hy Hv) as (e & He & Hev & Hed).
    exists e. split; [|done].
    apply (elem_of_pq_get _ _ _ _ Hget) in He as [->|He]; [|done]. by rewrite Hev in Hx.
  - intros u y e Hu Hy He. by eapply Hord, Hsub.
Qed.

(** Popping the entry of a vertex that gets finalized. *)
Lemma dj_pop_visit st x q' :
  dj_inv [] st → pq_get (dj_remaining_vertexes st) = Some (x, q') →
  vertex x ∉ dj_visited st →
  dj_inv (neighbors (vertex x)) (dj_visit (vertex x) (dj_get q' st)) ∧
  dj_current (vertex x) (distance x) (dj_visit (vertex x) (dj_get q' st)).
Proof.
  intros Hinv Hget Hx.
  pose proof Hinv as [Hst Hvis Hnn Hid Hbest Hvd Hrel Hord Hopt Hpar].
  assert (∀ e, e ∈ pq_items q' → e ∈ pq_items (dj_remaining_vertexes st)) as Hsub.
  { intros e He. rewrite (elem_of_pq_get _ _ _ _ Hget). by right. }
  assert (x ∈ pq_items (dj_remaining_vertexes st)) as Hxin.
  { rewrite (elem_of_pq_get _ _ _ _ Hget). by left. }
  pose proof (pq_get_Some _ _ _ Hget) as [_ Hmin].
  destruct (Hid x Hxin) as (yc & Hyc & Hyc1).
  destruct (Hbest (vertex x) yc Hyc Hx) as (e0 & He0 & _ & Hyc2).
  pose proof (Hmin e0 He0) as Hyc3.
  assert (∀ u y, u ∈ {[vertex x]} ∪ dj_visited st →
            dj_distance st !! u = Some (Real y) → (y <= distance x)%Q) as Hfar.
  { intros u y [->%elem_of_singleton|Hu]%elem_of_union Hy.
    - rewrite Hyc in Hy. by injection Hy as <-.
    - by eapply Hord. }
  split; [split|]; dj_simpl; try done.
  - rewrite Hvis, list_to_set_app_L. set_solver.
  - intros e He. by apply Hnn, Hsub.
  - intros e He. by apply Hid, Hsub.
  - intros v y Hy Hv. destruct (Hbest v y Hy ltac:(set_solver)) as (e & He & Hev & Hed).
    exists e. split; [|done].
    apply (elem_of_pq_get _ _ _ _ Hget) in He as [->|He]; [|done]. set_solver.
  - intros u [->%elem_of_singleton|Hu]%elem_of_union; [by exists yc|by apply Hvd].
  - intros u y n w [->%elem_of_singleton|Hu]%elem_of_union Hy Hw.
    + right. rewrite last_snoc. split; [done|]. by eapply get_weight_Some.
    + destruct (Hrel u y n w Hu Hy Hw) as [?|[_ []%elem_of_nil]]. by left.
  - intros u y e Hu Hy He. pose proof (Hfar u y Hu Hy). pose proof (Hmin e (Hsub e He)). lra.
  - intros u y p [->%elem_of_singleton|Hu]%elem_of_union Hy Hp; [|by eapply Hopt].
    rewrite Hyc in Hy. injection Hy as <-.
    destruct (dj_frontier st p (vertex x) Hinv Hp) as [[? _]|(e & He & Hle)]; [done|].
    pose proof (Hmin e He). lra.
  - intros m Hm. destruct (Hpar m Hm) as (Hdom & Hroot & Hlink).
    split; [done|]. split; [done|].
    intros v y Hy Hvs.
    destruct (Hlink v y Hy Hvs) as (u & yu & w & i & Hmv & Hi & Hij & Hw & Hyu & Hxy).
    exists u, yu, w, i. split; [done|].
    split; [by apply lookup_app_l_Some|]. split; [|done].
    intros j Hj. pose proof (lookup_lt_Some _ _ _ Hi) as Hilt.
    destruct (decide (j < length (dj_finalized st))) as [Hjlt|Hjge].
    + apply Hij. by rewrite lookup_app_l in Hj.
    + lia.
  - unfold dj_current. dj_simpl.
    split; [by rewrite last_snoc|]. split; [|split; [done|by apply Hnn]].
    exists yc. split; [done|lra].
Qed.

Lemma dijkstra_while_inv fuel end_ : ∀ st,
  dj_inv [] st →
  match (dijkstra_while fuel end_ st).1 with
  | Return true => dj_inv [] (dijkstra_while fuel end_ st).2
  | _ => True
  end.
Proof.
  induction fuel as [|fuel IH]; intros st Hinv; simpl;
    destruct (pq_get (dj_remaining_vertexes st)) as [[x q']|] eqn:Hget; try done.
  destruct (decide (vertex x ∈ dj_visited st)) as [Hvis|Hvis].
  { apply IH. by eapply dj_pop_stale. }
  destruct (dj_pop_visit st x q' Hinv Hget Hvis) as [Hinv2 Hcur2].
  destruct (dijkstra_for _ _ _ _) as [st3|e|] eqn:Hfor; [|done..].
  destruct (dijkstra_for_inv _ _ _ _ _ Hinv2 Hcur2 Hfor) as [Hinv3 _].
  destruct (decide (Some (vertex x) = end_)); [done|]. by apply IH.
Qed.

(** The parent links of a finalized vertex lead to [start] along a path
    that weighs as much as the distance of the vertex. *)
Lemma dj_parent_chain st m :
  dj_inv [] st → dj_vertex_2_parent st = Some m →
  ∀ j v x, dj_finalized st !! j = Some v → dj_distance st !! v = Some (Real x) →
    ∃ l, parent_chain m v l ∧ path start (rev l) v ∧
         (path_weight (rev l) == x)%Q ∧ length l ≤ S j ∧
         head l = Some v ∧ last l = Some start.
Proof.
  intros Hinv Hm. destruct (di_parent _ _ Hinv m Hm) as (_ & Hroot & Hlink).
  induction j as [j IH] using lt_wf_ind. intros v x Hj Hx.
  destruct (decide (v = start)) as [->|Hne].
  - exists [start]. split; [by constructor|]. split; [constructor|].
    rewrite (di_start _ _ Hinv) in Hx. injection Hx as <-.
    simpl. split; [lra|]. split; [lia|done].
  - destruct (Hlink v x Hx Hne) as (u & y & w & i & Hmv & Hi & Hij & Hw & Hy & Hxy).
    destruct (IH i (Hij j Hj) u y Hi Hy) as (l & Hchain & Hpath & Hwt & Hlen & Hhd & Hlast).
    exists (v :: l). split; [by econstructor|].
    pose proof (path_weight_snoc (rev l) u v (path_last _ _ _ Hpath)) as Hsnoc.
    rewrite Hw in Hsnoc. simpl in Hsnoc.
    split. { simpl. econstructor; [done|]. by eapply get_weight_Some. }
    split. { simpl. lra. }
    split. { simpl. pose proof (Hij j Hj). lia. }
    split; [done|]. destruct l; [done|]. by rewrite last_cons_cons.
Qed.

Lemma dj_extract st m e :
  dj_inv [] st → dj_struct st → dj_vertex_2_parent st = Some m →
  last (dj_finalized st) = Some e →
  ∃ l, _extract_path_from_parent_dictionary e m = Return l ∧
       head l = Some e ∧ last l = Some start ∧ path start (rev l) e ∧
       ∀ p, path start p e → (path_weight (rev l) <= path_weight p)%Q.
Proof.
  intros Hinv Hstruct Hm Hlast.
  assert (e ∈ dj_visited st) as He.
  { rewrite (di_visited _ _ Hinv), elem_of_list_to_set. by eapply last_Some_elem_of. }
  destruct (di_visited_dist _ _ Hinv e He) as [x Hx].
  apply last_Some in Hlast as [fin Hfin].
  assert (dj_finalized st !! length fin = Some e) as Hj.
  { rewrite Hfin. by apply list_lookup_middle. }
  destruct (dj_parent_chain st m Hinv Hm (length fin) e x Hj Hx)
    as (l & Hchain & Hpath & Hwt & Hlen & Hhd & Hlst).
  exists l. split; [|split; [done|split; [done|split; [done|]]]].
  - unfold _extract_path_from_parent_dictionary.
    rewrite (extract_while_chain m e l); [done|done|].
    destruct (di_parent _ _ Hinv m Hm) as (Hdom & _ & _).
    assert (list_to_set (dj_finalized st) ⊆ dom m) as Hsub.
    { intros u Hu. apply Hdom. rewrite <-(ds_dom _ Hstruct).
      rewrite <-(di_visited _ _ Hinv) in Hu.
      destruct (di_visited_dist _ _ Hinv u Hu) as [y Hy]. apply elem_of_dom. by eexists. }
    apply subseteq_size in Hsub.
    rewrite size_list_to_set, size_dom in Hsub by apply Hstruct.
    rewrite Hfin, length_app in Hsub. simpl in Hsub. lia.
  - intros p Hp. pose proof (di_opt _ _ Hinv e x p He Hx Hp). lra.
Qed.

End dijkstra_invariant.

Lemma dijkstra_for_parent_Some cur cd ns : ∀ st st',
  is_Some (dj_vertex_2_parent st) → dijkstra_for cur cd ns st = Return st' →
  is_Some (dj_vertex_2_parent st').
Proof.
  induction ns as [|n ns IH]; intros st st' Hst Hret; simpl in Hret.
  { by injection Hret as <-. }
  destruct (get_weight cur n) as [w|]; [|done].
  destruct (dj_distance st !! n) as [d0|]; [|done].
  destruct (float_ltb (cd + w) d0); [|by eapply IH].
  eapply IH; [|done]. destruct Hst as [m Hm]. simpl. rewrite Hm. by eexists.
Qed.

Lemma dijkstra_while_parent_Some fuel end_ : ∀ st,
  is_Some (dj_vertex_2_parent st) →
  is_Some (dj_vertex_2_parent (dijkstra_while fuel end_ st).2).
Proof.
  induction fuel as [|fuel IH]; intros st Hst; simpl;
    destruct (pq_get (dj_remaining_vertexes st)) as [[x q']|]; try done.
  destruct (decide (vertex x ∈ dj_visited st)); [by apply IH|].
  destruct (dijkstra_for _ _ _ _) as [st3|e|] eqn:Hfor; [|done..].
  apply dijkstra_for_parent_Some in Hfor; [|done].
  destruct (decide (Some (vertex x) = end_)); [done|]. by apply IH.
Qed.

Lemma dijkstra_search_outcome self a b m :
  dijkstra_search self a b = (_dijkstra_search self a (Some b) (Some m)).1.
Proof. unfold dijkstra_search. by rewrite (dijkstra_search_forget _ _ _ m). Qed.

(** ** Dijkstra: what the public operations return *)

Lemma find_weighted_shortest_path_spec self a b :
  nonnegative_weights → is_Some (__vertexes self !! a) →
  dijkstra_search self a b = Return true →
  ∃ l, (∀ reverse, find_weighted_shortest_path self a b reverse
                   = Return (Some (if reverse then l else rev l))) ∧
       head l = Some b ∧ last l = Some a ∧ path a (rev l) b ∧
       ∀ p, path a p b → (path_weight (rev l) <= path_weight p)%Q.
Proof.
  intros Hnn [a' Ha] Hsearch.
  set (m0 := (λ _ : V, @None V) <$> __vertexes self).
  rewrite (dijkstra_search_outcome self a b m0) in Hsearch.
  pose proof (dijkstra_search_post self a (Some b) (Some m0)) as Hpost.
  pose proof (dijkstra_while_inv self a Hnn dijkstra_fuel (Some b)
                (dijkstra_init self a (Some m0))) as Hinv.
  pose proof (dijkstra_while_parent_Some dijkstra_fuel (Some b)
                (dijkstra_init self a (Some m0)) ltac:(by eexists)) as [m Hm].
  fold (_dijkstra_search self a (Some b) (Some m0)) in Hinv, Hm.
  unfold dj_post in Hpost.
  destruct (_dijkstra_search self a (Some b) (Some m0)) as [out st] eqn:Hrun.
  cbn [fst snd] in *. subst out.
  destruct Hpost as (Hstruct & Hlast & _). destruct (Hlast eq_refl) as (e & [= <-] & He).
  destruct (dj_extract self a st m b) as (l & Hext & Hhd & Hlst & Hpath & Hopt);
    [|done|done|done|].
  { apply Hinv. apply dijkstra_init_inv. intros m' [= <-]. split.
    - unfold dj_keys, m0. rewrite dom_fmap_L.
      assert (a ∈ dom (__vertexes self)) by (apply elem_of_dom; by eexists). set_solver.
    - unfold m0. by rewrite lookup_fmap, Ha. }
  exists l. split; [|done].
  intros reverse. unfold find_weighted_shortest_path. fold m0. rewrite Hrun.
  cbn [fst snd outcome_bind]. rewrite Hm. cbn [default from_option id].
  rewrite Hext. cbn [outcome_bind]. by destruct reverse.
Qed.

(** ** Validation and the graphs that the operations build *)

Lemma validate_vertex_spec self v :
  let r := _validate_vertex self v in
  (r.1 = false ↔ fails_validation self v) ∧
  (r.1 = false → r.2 = self) ∧
  __vertexes r.2 = __vertexes self ∧
  (r.1 = true → ∀ x, x ∈ __non_validated_vertexes r.2 ↔
                     x ∈ __non_validated_vertexes self ∧ x ≠ v).
Proof.
  unfold _validate_vertex, fails_validation.
  destruct (decide (v ∉ __non_validated_vertexes self)) as [Hv|Hv]; simpl.
  { split; [naive_solver|]. split; [done|]. split; [done|]. intros _ x. set_solver. }
  apply dec_stable in Hv.
  destruct (all_neighbors_in (__vertexes self) (neighbors v)) eqn:Hall; simpl.
  - split; [naive_solver|]. split; [done|]. split; [done|]. intros _ x. set_solver.
  - split; [naive_solver|]. split; [done|]. split; [done|]. done.
Qed.

(** The validation at the head of a round of the BFS loop. *)
Lemma bfs_validate_spec self v :
  let r := (if decide (v ∈ __non_validated_vertexes self)
            then _validate_vertex self v else (true, self)) in
  (r.1 = false ↔ fails_validation self v) ∧
  (r.1 = false → r.2 = self) ∧
  __vertexes r.2 = __vertexes self ∧
  (r.1 = true → ∀ x, x ∈ __non_validated_vertexes r.2 ↔
                     x ∈ __non_validated_vertexes self ∧ x ≠ v).
Proof.
  destruct (decide (v ∈ __non_validated_vertexes self)) as [Hv|Hv].
  { apply validate_vertex_spec. }
  simpl. unfold fails_validation. split; [naive_solver|]. split; [done|]. split; [done|].
  intros _ x. split; [|naive_solver]. intros Hx. split; [done|]. by intros ->.
Qed.

(** Two graphs in which the same vertices fail their validation. *)
Definition same_failures (g g' : Graph) : Prop :=
  ∀ x, fails_validation g x ↔ fails_validation g' x.

Lemma bfs_validate_same_failures g g' v :
  same_failures g g' →
  let r := (if decide (v ∈ __non_validated_vertexes g)
            then _validate_vertex g v else (true, g)) in
  let r' := (if decide (v ∈ __non_validated_vertexes g')
             then _validate_vertex g' v else (true, g')) in
  r.1 = r'.1 ∧ same_failures r.2 r'.2.
Proof.
  intros Hsame r r'.
  destruct (bfs_validate_spec g v) as (Hf & Hfix & Hix & Hnv).
  destruct (bfs_validate_spec g' v) as (Hf' & Hfix' & Hix' & Hnv').
  fold r in Hf, Hfix, Hix, Hnv. fold r' in Hf', Hfix', Hix', Hnv'.
  assert (r.1 = r'.1) as Heq.
  { destruct (r.1) eqn:E, (r'.1) eqn:E'; try done.
    - assert (fails_validation g v) as Hv by (by apply Hsame, Hf').
      by apply Hf in Hv.
    - assert (fails_validation g' v) as Hv by (by apply Hsame, Hf).
      by apply Hf' in Hv. }
  split; [done|]. destruct (r.1) eqn:E.
  - symmetry in Heq. specialize (Hnv eq_refl). specialize (Hnv' Heq).
    assert (∀ h h' : Graph, __vertexes h' = __vertexes h →
              (∀ x, x ∈ __non_validated_vertexes h' ↔
                    x ∈ __non_validated_vertexes h ∧ x ≠ v) →
              ¬ fails_validation h v →
              ∀ x, fails_validation h' x ↔ fails_validation h x) as Hkeep.
    { intros h h' Hi Hn Hv x. unfold fails_validation in *. rewrite Hi, Hn.
      split; [naive_solver|]. intros [? ?]. split; [|done]. split; [done|].
      intros ->. by apply Hv. }
    intros x. rewrite (Hkeep g r.2), (Hkeep g' r'.2); try done.
    + intros Hv'. apply Hf' in Hv'. congruence.
    + intros Hv'. apply Hf in Hv'. congruence.
  - rewrite Hfix, Hfix' by congruence. done.
Qed.

Definition bfs_set_self (g : Graph) (st : bfs_state) : bfs_state :=
  mkBfs g (bfs_queue st) (bfs_marked_set st) (bfs_vertex_2_parent st) (bfs_dequeued st).

Lemma bfs_for_set_self g vertex end_ ns : ∀ st,
  bfs_for vertex end_ ns (bfs_set_self g st) =
  ((bfs_for vertex end_ ns st).1, bfs_set_self g (bfs_for vertex end_ ns st).2).
Proof.
  induction ns as [|n ns IH]; intros st; simpl; [done|].
  assert ((if decide (n ∈ bfs_marked_set st) then bfs_set_self g st
           else bfs_mark vertex n (bfs_set_self g st)) =
          bfs_set_self g (if decide (n ∈ bfs_marked_set st) then st
                          else bfs_mark vertex n st)) as ->.
  { by case_decide. }
  destruct (decide (Some n = end_)); [done|]. apply IH.
Qed.

Lemma bfs_for_self vertex end_ ns : ∀ st,
  bfs_self (bfs_for vertex end_ ns st).2 = bfs_self st.
Proof.
  induction ns as [|n ns IH]; intros st; simpl; [done|].
  destruct (decide (Some n = end_)); simpl.
  - by case_decide.
  - rewrite IH. by case_decide.
Qed.

(** The loop returns or raises the same in two graphs with the same
    failures. *)
Lemma bfs_while_same_failures fuel end_ : ∀ st g,
  same_failures g (bfs_self st) →
  (bfs_while fuel end_ (bfs_set_self g st)).1 = (bfs_while fuel end_ st).1.
Proof.
  induction fuel as [|fuel IH]; intros st g Hsame; simpl.
  { by destruct (bfs_queue st). }
  destruct (bfs_queue st) as [|v q]; [done|].
  pose proof (bfs_validate_same_failures g (bfs_self st) v Hsame) as [Hok Hsame'].
  destruct (if decide (v ∈ __non_validated_vertexes g) then _ else _) as [ok g1].
  destruct (if decide (v ∈ __non_validated_vertexes (bfs_self st)) then _ else _)
    as [ok' g1'].
  simpl in Hok, Hsame'. subst ok'. destruct ok; [|done].
  change (bfs_popleft v q g1 (bfs_set_self g st))
    with (bfs_set_self g1 (bfs_popleft v q g1' st)).
  rewrite bfs_for_set_self.
  pose proof (bfs_for_self v end_ (neighbors v) (bfs_popleft v q g1' st)) as Hself.
  destruct (bfs_for v end_ (neighbors v) (bfs_popleft v q g1' st)) as [[] st2];
    simpl in *; [done|].
  apply IH. by rewrite Hself.
Qed.

Lemma breadth_first_search_same_failures g g' a b :
  same_failures g g' →
  (breadth_first_search g a b).1 = (breadth_first_search g' a b).1.
Proof.
  intros Hsame. unfold breadth_first_search, _breadth_first_search. cbn [fst].
  apply (bfs_while_same_failures _ _ (bfs_init g' a None) g Hsame).
Qed.

Lemma validate_vertex_wf self v : graph_wf self → graph_wf (_validate_vertex self v).2.
Proof.
  intros Hwf x. destruct (validate_vertex_spec self v) as (Hf & Hfix & Hix & Hnv).
  destruct ((_validate_vertex self v).1) eqn:E.
  - rewrite Hix, (Hnv eq_refl). intros Hx Hnx.
    destruct (decide (x ∈ __non_validated_vertexes self)) as [Hin|Hout]; [|by apply Hwf].
    assert (x = v) as -> by (apply dec_stable; naive_solver).
    destruct (all_neighbors_in (__vertexes self) (neighbors v)) eqn:Hall; [done|].
    assert (fails_validation self v) as Hv by done. by apply Hf in Hv.
  - rewrite Hfix by done. apply Hwf.
Qed.

Lemma Graph_init_wf initial : graph_wf (Graph_init initial).
Proof.
  unfold Graph_init.
  set (self := mkGraph _ _).
  assert (graph_wf self) as Hwf.
  { intros x [y Hx]. unfold self in *. simpl in *.
    apply elem_of_list_to_map_2, list_elem_of_fmap in Hx as (z & [= -> ->] & Hz).
    intros Hnx. destruct Hnx. by apply elem_of_list_to_set. }
  generalize (vertexes self). intros l. revert Hwf. generalize self.
  induction l as [|v l IH]; intros g Hwf; simpl; [done|].
  by apply IH, validate_vertex_wf.
Qed.

Lemma add_vertex_wf self v : graph_wf self → graph_wf (add_vertex self v).
Proof.
  intros Hwf. apply validate_vertex_wf. intros x. simpl. intros Hx Hnx.
  assert (x ≠ v) as Hne by set_solver.
  rewrite lookup_insert_ne in Hx by done.
  pose proof (Hwf x Hx ltac:(set_solver)) as Hall.
  rewrite all_neighbors_in_true in Hall. apply all_neighbors_in_true.
  intros n Hn. destruct (decide (v = n)) as [->|Hvn].
  - rewrite lookup_insert_eq. by eexists.
  - rewrite lookup_insert_ne by done. by apply Hall.
Qed.

Lemma add_vertex_same_failures self v :
  graph_wf self → is_Some (__vertexes self !! v) →
  same_failures (add_vertex self v) self.
Proof.
  intros Hwf Hv x. unfold add_vertex.
  set (self1 := mkGraph _ _).
  assert (dom (__vertexes self1) = dom (__vertexes self)) as Hdom.
  { unfold self1. simpl. rewrite dom_insert_L.
    apply elem_of_dom in Hv. set_solver. }
  destruct (validate_vertex_spec self1 v) as (Hf & Hfix & Hix & Hnv).
  unfold fails_validation in *.
  rewrite Hix, (all_neighbors_in_dom _ _ _ Hdom).
  destruct ((_validate_vertex self1 v).1) eqn:E.
  - rewrite (Hnv eq_refl). unfold self1. simpl.
    destruct (decide (x = v)) as [->|Hne]; [|set_solver].
    split; [naive_solver|]. intros [_ Hall]. exfalso.
    assert (true = false) as Habs; [|done]. apply Hf.
    split; [unfold self1; simpl; set_solver|].
    by rewrite (all_neighbors_in_dom _ _ _ Hdom).
  - rewrite Hfix by done. unfold self1. simpl.
    destruct (decide (x = v)) as [->|Hne]; [|set_solver].
    split; [|set_solver]. intros [_ Hall]. split; [|done].
    apply dec_stable. intros Hnv'. rewrite (Hwf v Hv Hnv') in Hall. done.
Qed.

Lemma add_vertex_dijkstra_init self v start vertex_2_parent :
  is_Some (__vertexes self !! v) →
  dijkstra_init (add_vertex self v) start vertex_2_parent =
  dijkstra_init self start vertex_2_parent.
Proof.
  intros [v' Hv]. unfold dijkstra_init. f_equal. f_equal.
  destruct (validate_vertex_spec
              (mkGraph (<[v:=v]> (__vertexes self))
                       ({[v]} ∪ __non_validated_vertexes self)) v) as (_ & _ & Hix & _).
  unfold add_vertex. rewrite Hix. simpl.
  rewrite fmap_insert. apply insert_id. by rewrite lookup_fmap, Hv.
Qed.

Lemma breadth_first_search_wf self a b :
  graph_wf self → graph_wf (breadth_first_search self a b).2.
Proof.
  intros Hwf. unfold breadth_first_search. cbn [snd].
  pose proof (bfs_search_post self a (Some b) None) as Hpost.
  pose proof (bfs_fuel_enough self a (Some b) None) as Hfuel.
  unfold bfs_post in Hpost.
  destruct (_breadth_first_search self a (Some b) None) as [out st]. cbn [fst snd] in *.
  assert (__vertexes (bfs_self st) = __vertexes self ∧
          ∀ x, x ∈ __non_validated_vertexes self →
               x ∉ __non_validated_vertexes (bfs_self st) →
               ¬ fails_validation self x) as [Hix Hnv].
  { destruct out as [[]|e|]; [| | |done].
    - destruct Hpost as (d & cur & n & todo & _ & _ & _ & _ & Hinv & _).
      split; [apply Hinv|]. intros x Hx Hnx. apply (bi_valid _ _ _ _ _ Hinv).
      apply dec_stable. intros Hdq. apply Hnx, (bi_nv _ _ _ _ _ Hinv). done.
    - destruct Hpost as (d & Hinv & _).
      split; [apply Hinv|]. intros x Hx Hnx. apply (bi_valid _ _ _ _ _ Hinv).
      apply dec_stable. intros Hdq. apply Hnx, (bi_nv _ _ _ _ _ Hinv). done.
    - destruct Hpost as (v & dq & _ & _ & _ & _ & _ & Hval & _ & Hix & Hnv).
      split; [done|]. intros x Hx Hnx. apply Hval.
      apply dec_stable. intros Hdq. apply Hnx, Hnv. done. }
  intros x. rewrite Hix. intros Hx Hnx.
  destruct (decide (x ∈ __non_validated_vertexes self)) as [Hin|Hout]; [|by apply Hwf].
  destruct (all_neighbors_in (__vertexes self) (neighbors x)) eqn:Hall; [done|].
  by destruct (Hnv x Hin Hnx).
Qed.

(** ** What the searches do on the way *)

Lemma bfs_error_spec self start end_ vertex_2_parent :
  let r := _breadth_first_search self start end_ vertex_2_parent in
  NoDup (bfs_dequeued r.2 ++ bfs_queue r.2) ∧
  match r.1 with
  | Return _ => ∀ v, v ∈ bfs_dequeued r.2 → ¬ fails_validation self v
  | Raise e =>
      ∃ v dq, e = ValueError v ∧ bfs_dequeued r.2 = dq ++ [v] ∧
              fails_validation self v ∧
              (∀ u, u ∈ dq → ¬ fails_validation self u) ∧
              v ∈ __non_validated_vertexes (bfs_self r.2) ∧
              __vertexes (bfs_self r.2) = __vertexes self
  | OutOfFuel => False
  end.
Proof.
  intros r. unfold r.
  pose proof (bfs_search_post self start end_ vertex_2_parent) as Hpost.
  pose proof (bfs_fuel_enough self start end_ vertex_2_parent) as Hfuel.
  unfold bfs_post in Hpost.
  destruct (_breadth_first_search self start end_ vertex_2_parent) as [[[]|e|] st];
    cbn [fst snd] in *; [| | |done].
  - destruct Hpost as (d & cur & n & todo & _ & _ & _ & _ & Hinv & _).
    split; apply Hinv.
  - destruct Hpost as (d & Hinv & _). split; apply Hinv.
  - destruct Hpost as (v & dq & -> & Hdq & Hfail & _ & Hnv & Hval & Hnd & Hix & _).
    split; [done|]. by exists v, dq.
Qed.

Lemma bfs_found_dequeued self start b vertex_2_parent :
  (_breadth_first_search self start (Some b) vertex_2_parent).1 = Return true →
  ∃ u, u ∈ bfs_dequeued (_breadth_first_search self start (Some b) vertex_2_parent).2 ∧
       b ∈ neighbors u.
Proof.
  intros Hret. pose proof (bfs_search_post self start (Some b) vertex_2_parent) as Hpost.
  unfold bfs_post in Hpost. rewrite Hret in Hpost.
  destruct Hpost as (d & cur & n & todo & Hcur & [= <-] & Hedge & _).
  exists cur. split; [by eapply last_Some_elem_of|done].
Qed.

Lemma dijkstra_error_spec self start end_ vertex_2_parent :
  let r := _dijkstra_search self start end_ vertex_2_parent in
  NoDup (dj_finalized r.2) ∧
  match r.1 with
  | Return _ =>
      ∀ u n, u ∈ dj_finalized r.2 → n ∈ neighbors u →
             is_Some (__vertexes self !! n) ∨ n = start
  | Raise e =>
      ∃ u n, e = KeyError n ∧ last (dj_finalized r.2) = Some u ∧
             n ∈ neighbors u ∧ __vertexes self !! n = None ∧ n ≠ start
  | OutOfFuel => False
  end.
Proof.
  intros r. unfold r.
  pose proof (dijkstra_search_post self start end_ vertex_2_parent) as Hpost.
  pose proof (dijkstra_fuel_enough self start end_ vertex_2_parent) as Hfuel.
  unfold dj_post in Hpost.
  destruct (_dijkstra_search self start end_ vertex_2_parent) as [[found|e|] st];
    cbn [fst snd] in *; [| |done].
  - destruct Hpost as [[Hdom Hvis Hnd Hpres] _]. split; [done|].
    intros u n Hu Hn. specialize (Hpres u n Hu Hn). unfold dj_keys in Hpres.
    apply elem_of_union in Hpres as [->%elem_of_singleton|Hin]; [by right|].
    left. by apply elem_of_dom.
  - destruct Hpost as (u & n & fin & -> & Hfin & Hnd & Hn & Hkeys & _).
    split; [done|]. exists u, n. split; [done|].
    split; [by rewrite Hfin, last_snoc|]. split; [done|].
    unfold dj_keys in Hkeys. split.
    + apply not_elem_of_dom. set_solver.
    + set_solver.
Qed.

(** The first round of Dijkstra's loop when [end_] is [start]. *)
Lemma dijkstra_search_self self a :
  (∀ n, n ∈ neighbors a → is_Some (__vertexes self !! n)) →
  dijkstra_search self a a = Return true.
Proof.
  intros Hns. unfold dijkstra_search, _dijkstra_search, dijkstra_fuel.
  cbn [plus dijkstra_while]. dj_simpl.
  destruct (pq_get (pq_put (ShortestDistance 0 a) pq_new)) as [[x q']|] eqn:Hget; cycle 1.
  { apply pq_get_None in Hget.
    pose proof (pq_items_put (ShortestDistance 0 a) pq_new) as Hp.
    rewrite Hget in Hp. by apply Permutation_nil_l in Hp. }
  destruct (pq_get_Some _ _ _ Hget) as [Hperm _].
  rewrite pq_items_put, pq_items_new in Hperm.
  apply Permutation_singleton_l in Hperm. injection Hperm as <- _.
  dj_simpl. rewrite decide_False by set_solver.
  pose proof (dijkstra_for_frame a 0 (neighbors a)
    (dj_visit a (dj_get q' (dijkstra_init self a None))) ltac:(done)) as Hfor.
  dj_simpl. destruct (dijkstra_for _ _ _ _) as [st3|e|]; [| |done].
  - by rewrite decide_True.
  - destruct Hfor as (n & _ & Hn & Hnone). destruct Hnone.
    rewrite dom_insert_L, dom_fmap_L. apply elem_of_union. right.
    apply elem_of_dom. by apply Hns.
Qed.

(** ** The reference priority queue meets the contract *)

Lemma list_pq_get_None q : list_pq_get q = None ↔ q = [].
Proof.
  destruct q as [|x rest]; [done|]. simpl.
  destruct (list_pq_get rest) as [[y rest']|]; [|done].
  by destruct (Qltb (distance y) (distance x)).
Qed.

Lemma list_pq_get_Some q : ∀ x q', list_pq_get q = Some (x, q') →
  q ≡ₚ x :: q' ∧ ∀ y, y ∈ q → (distance x <= distance y)%Q.
Proof.
  induction q as [|x0 rest IH]; intros x q' Hget; [done|]. simpl in Hget.
  destruct (list_pq_get rest) as [[y rest']|] eqn:Hrest.
  - destruct (IH y rest' eq_refl) as [Hperm Hmin].
    unfold Qltb in Hget. destruct (Qlt_le_dec (distance y) (distance x0)) as [Hlt|Hle];
      injection Hget as <- <-.
    + split; [rewrite Hperm; apply Permutation_swap|].
      intros z [->|Hz]%elem_of_cons; [lra|by apply Hmin].
    + split; [done|]. intros z [->|Hz]%elem_of_cons; [lra|].
      pose proof (Hmin z Hz). lra.
  - apply list_pq_get_None in Hrest as ->. injection Hget as <- <-.
    split; [done|]. intros z ->%list_elem_of_singleton. lra.
Qed.

(** * The claims *)

(** C1, as amended.  When the search finds [b], both path operations
    return with [reverse = true] the raw extraction order, [b] first and
    [a] last, and with [reverse = false] the reverse of it, [a] first and
    [b] last.  (The weighted operation is taken on a graph without negative
    weights, from a vertex of its index.) *)
Theorem reverse_flag_order self a b :
  ((breadth_first_search self a b).1 = Return true →
   ∃ l, (find_shortest_path self a b true).1 = Return (Some l) ∧
        (find_shortest_path self a b false).1 = Return (Some (rev l)) ∧
        head l = Some b ∧ last l = Some a ∧
        head (rev l) = Some a ∧ last (rev l) = Some b ∧ path a (rev l) b) ∧
  (nonnegative_weights → is_Some (__vertexes self !! a) →
   dijkstra_search self a b = Return true →
   ∃ l, find_weighted_shortest_path self a b true = Return (Some l) ∧
        find_weighted_shortest_path self a b false = Return (Some (rev l)) ∧
        head l = Some b ∧ last l = Some a ∧
        head (rev l) = Some a ∧ last (rev l) = Some b ∧ path a (rev l) b).
Proof.
  split.
  - intros Hfound. pose proof (find_shortest_path_spec self a b) as Hspec.
    rewrite Hfound in Hspec. destruct Hspec as (l & Hrun & Hhd & Hlst & Hpath & _).
    exists l. split; [apply (Hrun true)|]. split; [apply (Hrun false)|].
    repeat (split; [done|]). by rewrite head_rev, last_rev.
  - intros Hnn Ha Hfound.
    destruct (find_weighted_shortest_path_spec self a b Hnn Ha Hfound)
      as (l & Hrun & Hhd & Hlst & Hpath & _).
    exists l. split; [apply (Hrun true)|]. split; [apply (Hrun false)|].
    repeat (split; [done|]). by rewrite head_rev, last_rev.
Qed.


(** C4, as amended.  Unless the traversal raises the referential-integrity
    error, [find_shortest_path a b] returns a path exactly when some
    directed path of at least one edge leads from [a] to [b], and nothing
    otherwise; for [a ≠ b] the path returned has the fewest edges among all
    directed paths from [a] to [b], and for [a = b] it is the single vertex
    [a]. *)
Theorem shortest_path_fewest_edges self a b reverse :
  match (find_shortest_path self a b reverse).1 with
  | Return (Some q) =>
      let p := if reverse then rev q else q in
      reachable_by_edge a b ∧ path a p b ∧
      (a ≠ b → ∀ p', path a p' b → edge_count p ≤ edge_count p') ∧
      (a = b → p = [a])
  | Return None => ¬ reachable_by_edge a b
  | Raise e => ∃ v, e = ValueError v ∧ reachable a v ∧ fails_validation self v
  | OutOfFuel => False
  end.
Proof.
  pose proof (find_shortest_path_spec self a b) as Hspec.
  pose proof (bfs_outcome_spec self a b (Some ∅)) as Hout.
  rewrite <-(breadth_first_search_outcome self a b ∅) in Hout.
  destruct ((breadth_first_search self a b).1) as [[]|e|]; [| | |done].
  - destruct Hspec as (l & Hrun & _ & _ & Hpath & Hmin & Hself).
    rewrite (Hrun reverse). cbn zeta.
    assert ((if reverse then rev (if reverse then l else rev l)
             else (if reverse then l else rev l)) = rev l) as ->.
    { by destruct reverse. }
    split; [done|]. split; [done|]. split; [done|].
    intros Hab. by rewrite (Hself Hab).
  - by rewrite (Hspec reverse).
  - by rewrite (Hspec reverse).
Qed.

(** C5.  A BFS traversal raises the referential-integrity error exactly
    when it dequeues a vertex of the non-validated set with a neighbor
    missing from the index; the error names that vertex, the last one
    dequeued, which stays in the non-validated set; a validation that
    fails leaves the graph as it was. *)
Theorem bfs_referential_integrity self start end_ vertex_2_parent :
  let r := _breadth_first_search self start end_ vertex_2_parent in
  ((∃ v, r.1 = Raise (ValueError v)) ↔
   (∃ v, v ∈ bfs_dequeued r.2 ∧ fails_validation self v)) ∧
  (∀ e, r.1 = Raise e →
     ∃ v, e = ValueError v ∧ last (bfs_dequeued r.2) = Some v ∧
          fails_validation self v ∧
          v ∈ __non_validated_vertexes (bfs_self r.2) ∧
          fails_validation (bfs_self r.2) v) ∧
  (∀ g v, (_validate_vertex g v).1 = false →
     (_validate_vertex g v).2 = g ∧ v ∈ __non_validated_vertexes g).
Proof.
  intros r. pose proof (bfs_error_spec self start end_ vertex_2_parent) as [_ Hspec].
  fold r in Hspec. split; [|split].
  - destruct (r.1) as [found|e|]; [| |done].
    + split; [by intros [v ?]|]. intros (v & Hv & Hfail). by destruct (Hspec v Hv).
    + destruct Hspec as (v & dq & -> & Hdq & Hfail & _).
      split; intros _; [|by exists v]. exists v. split; [|done].
      rewrite Hdq. set_solver.
  - intros e He. rewrite He in Hspec.
    destruct Hspec as (v & dq & -> & Hdq & Hfail & _ & Hnv & Hix).
    exists v. split; [done|]. split; [by rewrite Hdq, last_snoc|].
    split; [done|]. split; [done|]. split; [done|]. rewrite Hix. apply Hfail.
  - intros g v Hfalse. destruct (validate_vertex_spec g v) as (Hf & Hfix & _).
    split; [by apply Hfix|]. by apply Hf.
Qed.

(** C6, as amended.  Comparing a [_ShortestDistance] with an operand of
    another class raises [TypeError] when the operand is true, and returns
    [False] when the operand is false ([None], [0], the empty string). *)
Theorem shortest_distance_compare s x :
  isinstance_ShortestDistance x = false →
  (truthy x = true →
     __lt__ s x = Raise (TypeError x) ∧ __gt__ s x = Raise (TypeError x)) ∧
  (truthy x = false → __lt__ s x = Return false ∧ __gt__ s x = Return false).
Proof.
  intros Hclass. unfold __lt__, __gt__.
  split; intros ->; simpl; [|done]. by destruct x.
Qed.

(** C7.  In a graph built by the operations of the class, adding again a
    vertex that is in the index already changes no result of
    [breadth_first_search] and [dijkstra_search], values and errors alike. *)
Theorem add_vertex_twice_same_results self v a b :
  graph_wf self → is_Some (__vertexes self !! v) →
  (breadth_first_search (add_vertex self v) a b).1 = (breadth_first_search self a b).1 ∧
  dijkstra_search (add_vertex self v) a b = dijkstra_search self a b.
Proof.
  intros Hwf Hv. split.
  - by apply breadth_first_search_same_failures, add_vertex_same_failures.
  - unfold dijkstra_search, _dijkstra_search. by rewrite add_vertex_dijkstra_init.
Qed.

Lemma bfs_while_more_fuel n end_ : ∀ st m,
  (bfs_while n end_ st).1 ≠ OutOfFuel → n ≤ m →
  bfs_while m end_ st = bfs_while n end_ st.
Proof.
  induction n as [|n IH]; intros st m Hn Hle.
  - simpl in *. destruct (bfs_queue st) eqn:Hq; [|done].
    destruct m; simpl; by rewrite Hq.
  - destruct m as [|m]; [lia|]. simpl in *.
    destruct (bfs_queue st) as [|v q]; [done|].
    destruct (if decide (v ∈ _) then _ else _) as [valid self'].
    destruct valid; [|done].
    destruct (bfs_for v end_ (neighbors v) (bfs_popleft v q self' st)) as [[] st2];
      [done|]. apply IH; [done|lia].
Qed.

Lemma dijkstra_while_more_fuel n end_ : ∀ st m,
  (dijkstra_while n end_ st).1 ≠ OutOfFuel → n ≤ m →
  dijkstra_while m end_ st = dijkstra_while n end_ st.
Proof.
  induction n as [|n IH]; intros st m Hn Hle.
  - simpl in *. destruct (pq_get (dj_remaining_vertexes st)) as [[x q']|] eqn:Hq; [done|].
    destruct m; simpl; by rewrite Hq.
  - destruct m as [|m]; [lia|]. simpl in *.
    destruct (pq_get (dj_remaining_vertexes st)) as [[x q']|]; [|done].
    destruct (decide (vertex x ∈ dj_visited st)); [apply IH; [done|lia]|].
    destruct (dijkstra_for _ _ _ _) as [st3|e|]; [|done..].
    destruct (decide (Some (vertex x) = end_)); [done|]. apply IH; [done|lia].
Qed.

(** C8.  On every finite graph, loops and cycles included, both searches
    end: the fuel the operations pass is never used up and more fuel
    changes nothing; BFS puts no vertex in its queue twice, Dijkstra
    finalizes no vertex twice, and a search that returns [False] has
    emptied its queue. *)
Theorem searches_terminate self start end_ vertex_2_parent :
  let r := _breadth_first_search self start end_ vertex_2_parent in
  let r' := _dijkstra_search self start end_ vertex_2_parent in
  (r.1 ≠ OutOfFuel ∧
   (∀ fuel, S (card V) ≤ fuel →
      bfs_while fuel end_ (bfs_init self start vertex_2_parent) = r) ∧
   NoDup (bfs_dequeued r.2 ++ bfs_queue r.2) ∧
   (r.1 = Return false → bfs_queue r.2 = [])) ∧
  (r'.1 ≠ OutOfFuel ∧
   (∀ fuel, dijkstra_fuel ≤ fuel →
      dijkstra_while fuel end_ (dijkstra_init self start vertex_2_parent) = r') ∧
   NoDup (dj_finalized r'.2) ∧
   (r'.1 = Return false → pq_items (dj_remaining_vertexes r'.2) = [])).
Proof.
  intros r r'. split.
  - pose proof (bfs_fuel_enough self start end_ vertex_2_parent) as Hfuel.
    pose proof (bfs_error_spec self start end_ vertex_2_parent) as [Hnd _].
    pose proof (bfs_search_post self start end_ vertex_2_parent) as Hpost.
    fold r in Hfuel, Hnd, Hpost.
    split; [done|]. split; [|split; [done|]].
    + intros fuel Hle. by apply bfs_while_more_fuel.
    + intros Hfalse. unfold bfs_post in Hpost. rewrite Hfalse in Hpost.
      by destruct Hpost as (d & _ & _ & Hq).
  - pose proof (dijkstra_fuel_enough self start end_ vertex_2_parent) as Hfuel.
    pose proof (dijkstra_error_spec self start end_ vertex_2_parent) as [Hnd _].
    pose proof (dijkstra_search_post self start end_ vertex_2_parent) as Hpost.
    fold r' in Hfuel, Hnd, Hpost.
    split; [done|]. split; [|split; [done|]].
    + intros fuel Hle. by apply dijkstra_while_more_fuel.
    + intros Hfalse. unfold dj_post in Hpost. rewrite Hfalse in Hpost.
      destruct Hpost as (_ & _ & Hq). by apply Hq.
Qed.

(** C9.  [_dijkstra_search] raises exactly when a vertex it finalizes has a
    neighbor that is neither in the index nor [start]; the error is the
    [KeyError] of the distance table for that neighbor, never the
    referential-integrity error; when the neighbors of every finalized
    vertex are in the index, the search returns. *)
Theorem dijkstra_missing_neighbor_key_error self start end_ vertex_2_parent :
  let r := _dijkstra_search self start end_ vertex_2_parent in
  ((∃ u n, u ∈ dj_finalized r.2 ∧ n ∈ neighbors u ∧
           __vertexes self !! n = None ∧ n ≠ start) ↔
   (∃ n, r.1 = Raise (KeyError n))) ∧
  (∀ e, r.1 = Raise e →
     ∃ u n, e = KeyError n ∧ last (dj_finalized r.2) = Some u ∧
            n ∈ neighbors u ∧ __vertexes self !! n = None ∧ n ≠ start) ∧
  ((∀ u n, u ∈ dj_finalized r.2 → n ∈ neighbors u → is_Some (__vertexes self !! n)) →
   ∃ found, r.1 = Return found).
Proof.
  intros r. pose proof (dijkstra_error_spec self start end_ vertex_2_parent) as [_ Hspec].
  fold r in Hspec. split; [|split].
  - destruct (r.1) as [found|e|]; [| |done].
    + split; [|by intros [n ?]]. intros (u & n & Hu & Hn & Hnone & Hne).
      destruct (Hspec u n Hu Hn) as [[? ?]|?]; congruence.
    + destruct Hspec as (u & n & -> & Hlast & Hn & Hnone & Hne).
      split; intros _; [by exists n|]. exists u, n.
      split; [by eapply last_Some_elem_of|done].
  - intros e He. by rewrite He in Hspec.
  - intros Hall. destruct (r.1) as [found|e|]; [by exists found| |done].
    destruct Hspec as (u & n & -> & Hlast & Hn & Hnone & Hne).
    destruct (Hall u n) as [? ?]; [by eapply last_Some_elem_of|done|congruence].
Qed.

(** C10, as amended.  For a vertex [a] whose neighbors are all in the
    index, [dijkstra_search a a] returns [True].  [breadth_first_search a a]
    returns [True] only when a vertex it dequeued has an edge to [a], and
    then [a] lies on a directed cycle; it returns [False] when [a] lies on
    no cycle, unless a vertex it dequeues fails its validation: then it
    raises the referential-integrity error. *)
Theorem search_from_vertex_to_itself self a :
  (∀ n, n ∈ neighbors a → is_Some (__vertexes self !! n)) →
  dijkstra_search self a a = Return true ∧
  match (breadth_first_search self a a).1 with
  | Return found =>
      (found = true ↔ reachable_by_edge a a) ∧
      (found = true →
         ∃ u, u ∈ bfs_dequeued (_breadth_first_search self a (Some a) None).2 ∧
              a ∈ neighbors u)
  | Raise e => ∃ v, e = ValueError v ∧ reachable a v ∧ fails_validation self v
  | OutOfFuel => False
  end.
Proof.
  intros Hns. split; [by apply dijkstra_search_self|].
  pose proof (bfs_outcome_spec self a a None) as Hout.
  pose proof (bfs_found_dequeued self a a None) as Hdq.
  unfold breadth_first_search. cbn [fst].
  destruct ((_breadth_first_search self a (Some a) None).1) as [[]|e|]; [| |done..].
  - split; [done|]. intros _. by apply Hdq.
  - split; [|done]. split; [done|]. intros Hre. by destruct Hout.
Qed.

(** * Further properties of the code *)

(** ** The comparisons of [_ShortestDistance] between two instances *)


(** ** Validation, the constructor and [add_vertex] *)

(** X2.  [_validate_vertex] leaves the index alone; a second call on the
    same vertex returns what the first did and changes nothing; after
    [True] the vertex is out of the non-validated set; validating one
    vertex changes the answer for no vertex, and two validations give the
    same graph in either order. *)
Theorem validate_vertex_idempotent self v u :
  let r := _validate_vertex self v in
  __vertexes r.2 = __vertexes self ∧
  _validate_vertex r.2 v = r ∧
  (r.1 = true → v ∉ __non_validated_vertexes r.2) ∧
  (_validate_vertex r.2 u).1 = (_validate_vertex self u).1 ∧
  (_validate_vertex r.2 u).2 = (_validate_vertex (_validate_vertex self u).2 v).2.
Proof.
  unfold _validate_vertex.
  destruct (all_neighbors_in (__vertexes self) (neighbors v)) eqn:Hv,
           (all_neighbors_in (__vertexes self) (neighbors u)) eqn:Hu;
    repeat (case_decide; cbn [fst snd __vertexes __non_validated_vertexes] in *;
            rewrite ?Hv, ?Hu in *);
    repeat split; try done; try set_solver;
    try (f_equal; set_solver);
    destruct (decide (u = v)) as [->|Hne]; [congruence|set_solver].
Qed.

(** The loop of the constructor, over any list of vertices. *)
Lemma validate_all_spec ks : ∀ g,
  let g' := foldl (λ g v, (_validate_vertex g v).2) g ks in
  __vertexes g' = __vertexes g ∧
  ∀ x, x ∈ __non_validated_vertexes g' ↔
       x ∈ __non_validated_vertexes g ∧
       (x ∈ ks → all_neighbors_in (__vertexes g) (neighbors x) = false).
Proof.
  induction ks as [|v ks IH]; intros g; cbn [foldl].
  { split; [done|]. intros x. rewrite elem_of_nil. naive_solver. }
  destruct (validate_vertex_spec g v) as (Hf & Hfix & Hix & Hnv).
  destruct (IH (_validate_vertex g v).2) as [Hix' Hnv'].
  split; [by rewrite Hix', Hix|].
  intros x. rewrite Hnv', Hix, elem_of_cons. unfold fails_validation in Hf.
  destruct ((_validate_vertex g v).1) eqn:E.
  - rewrite (Hnv eq_refl). split.
    + intros ((Hx & Hne) & Hks). split; [done|]. intros [->|Hin]; [done|by apply Hks].
    + intros (Hx & Hks). split; [split; [done|]|by intros Hin; apply Hks; right].
      intros ->. destruct (all_neighbors_in (__vertexes g) (neighbors v)) eqn:Hall.
      * by specialize (Hks (or_introl eq_refl)).
      * assert (true = false) as Habs by (by apply Hf). done.
  - rewrite (Hfix eq_refl). destruct Hf as [Hf _]. destruct (Hf eq_refl) as [Hv Hall].
    split.
    + intros (Hx & Hks). split; [done|]. intros [->|Hin]; [done|by apply Hks].
    + intros (Hx & Hks). split; [done|]. intros Hin. apply Hks. by right.
Qed.

(** The index and the non-validated set that the constructor leaves. *)
Lemma Graph_init_index (l : list V) v :
  __vertexes (Graph_init (Some l)) !! v = if decide (v ∈ l) then Some v else None.
Proof.
  unfold Graph_init. change (default [] (Some l)) with l.
  set (self0 := mkGraph (list_to_map ((λ v, (v, v)) <$> l)) (list_to_set l)).
  destruct (validate_all_spec (vertexes self0) self0) as [-> _].
  unfold self0. cbn [__vertexes]. case_decide as Hv.
  - apply elem_of_list_to_map_1'.
    + intros y Hy. by apply list_elem_of_fmap in Hy as (z & [= -> ->] & _).
    + apply list_elem_of_fmap. by exists v.
  - apply not_elem_of_list_to_map_1. rewrite <-list_fmap_compose.
    intros Hin. apply list_elem_of_fmap in Hin as (z & -> & Hz). done.
Qed.

Lemma vertexes_elem_of (self : Graph) v : v ∈ vertexes self ↔ is_Some (__vertexes self !! v).
Proof.
  unfold vertexes. rewrite list_elem_of_fmap. split.
  - intros ([k x] & -> & Hkx). apply elem_of_map_to_list in Hkx. by exists x.
  - intros [x Hx]. exists (v, x). split; [done|]. by apply elem_of_map_to_list.
Qed.

Lemma Graph_init_non_validated (l : list V) v :
  v ∈ __non_validated_vertexes (Graph_init (Some l)) ↔
  v ∈ l ∧ ∃ n, n ∈ neighbors v ∧ n ∉ l.
Proof.
  pose proof (Graph_init_index l) as Hix0. revert Hix0.
  unfold Graph_init. change (default [] (Some l)) with l.
  set (self0 := mkGraph (list_to_map ((λ v, (v, v)) <$> l)) (list_to_set l)).
  destruct (validate_all_spec (vertexes self0) self0) as [Hix Hnv].
  cbv zeta in Hix, Hnv. rewrite Hix. intros Hix0.
  rewrite Hnv, vertexes_elem_of, all_neighbors_in_false.
  unfold self0 at 1. cbn [__non_validated_vertexes]. rewrite elem_of_list_to_set.
  split.
  - intros (Hv & Hall). split; [done|]. destruct Hall as (n & Hn & Hnone).
    { rewrite Hix0. rewrite decide_True by done. by eexists. }
    exists n. split; [done|]. rewrite Hix0 in Hnone. by case_decide.
  - intros (Hv & n & Hn & Hout). split; [done|]. intros _. exists n. split; [done|].
    rewrite Hix0. by rewrite decide_False.
Qed.

(** X3.  The constructor indexes the vertices of its list, each under
    itself; [vertexes] yields each of them once; and the vertices left in
    the non-validated set are those with a neighbor outside the list.  No
    list and the empty list give the same graph. *)
Theorem Graph_init_spec (l : list V) :
  let self := Graph_init (Some l) in
  (∀ v, __vertexes self !! v = if decide (v ∈ l) then Some v else None) ∧
  (∀ v, v ∈ vertexes self ↔ v ∈ l) ∧
  NoDup (vertexes self) ∧
  (∀ v, v ∈ __non_validated_vertexes self ↔
        v ∈ l ∧ ∃ n, n ∈ neighbors v ∧ n ∉ l) ∧
  Graph_init None = Graph_init (Some []).
Proof.
  cbv zeta. split; [|split; [|split; [|split]]].
  - apply Graph_init_index.
  - intros v. rewrite vertexes_elem_of, Graph_init_index.
    case_decide; [by split; [|eexists]|]. split; [by intros [? ?]|done].
  - unfold vertexes. apply NoDup_fst_map_to_list.
  - apply Graph_init_non_validated.
  - done.
Qed.

(** The vertices at which validation fails after [add_vertex]. *)
Lemma add_vertex_fails self v x :
  fails_validation (add_vertex self v) x ↔
  (x = v ∨ x ∈ __non_validated_vertexes self) ∧
  ∃ n, n ∈ neighbors x ∧ <[v:=v]> (__vertexes self) !! n = None.
Proof.
  unfold add_vertex. set (self1 := mkGraph _ _).
  destruct (validate_vertex_spec self1 v) as (Hf & Hfix & Hix & Hnv).
  unfold fails_validation in *. rewrite Hix, all_neighbors_in_false.
  change (__vertexes self1) with (<[v:=v]> (__vertexes self)) in *.
  change (__non_validated_vertexes self1) with ({[v]} ∪ __non_validated_vertexes self) in *.
  destruct ((_validate_vertex self1 v).1) eqn:E.
  - rewrite (Hnv eq_refl). split.
    + intros ((Hx & Hne) & Hall). split; [|done]. set_solver.
    + intros (Hx & Hall). split; [|done]. split; [set_solver|].
      intros ->. apply all_neighbors_in_false in Hall.
      assert (true = false) as Habs; [|done]. apply Hf. split; [set_solver|done].
  - rewrite (Hfix eq_refl).
    change (__non_validated_vertexes self1) with ({[v]} ∪ __non_validated_vertexes self).
    set_solver.
Qed.

Lemma add_vertex_index self v :
  __vertexes (add_vertex self v) = <[v := v]> (__vertexes self).
Proof.
  unfold add_vertex. set (self1 := mkGraph _ _).
  by destruct (validate_vertex_spec self1 v) as (_ & _ & -> & _).
Qed.

Lemma add_vertex_non_validated self v x :
  x ∈ __non_validated_vertexes (add_vertex self v) ↔
  if decide (x = v)
  then ∃ n, n ∈ neighbors v ∧ n ≠ v ∧ __vertexes self !! n = None
  else x ∈ __non_validated_vertexes self.
Proof.
  unfold add_vertex. set (self1 := mkGraph _ _).
  destruct (validate_vertex_spec self1 v) as (Hf & Hfix & Hix & Hnv).
  assert ((∃ n, n ∈ neighbors v ∧ n ≠ v ∧ __vertexes self !! n = None) ↔
          all_neighbors_in (__vertexes self1) (neighbors v) = false) as Hall.
  { rewrite all_neighbors_in_false. unfold self1. cbn [__vertexes]. split.
    - intros (n & Hn & Hne & Hnone). exists n. by rewrite lookup_insert_ne.
    - intros (n & Hn & Hnone). exists n. destruct (decide (n = v)) as [->|Hne].
      + by rewrite lookup_insert_eq in Hnone.
      + by rewrite lookup_insert_ne in Hnone. }
  unfold fails_validation in Hf.
  assert (∀ y, y ∈ __non_validated_vertexes self1 ↔
               y = v ∨ y ∈ __non_validated_vertexes self) as Hnv1.
  { intros y. unfold self1. cbn [__non_validated_vertexes]. set_solver. }
  destruct ((_validate_vertex self1 v).1) eqn:E.
  - rewrite (Hnv eq_refl), Hnv1. case_decide as Hx.
    + subst x. rewrite Hall. split; [naive_solver|]. intros Hfalse.
      assert (true = false) as Habs; [|done]. apply Hf. split; [|done].
      apply Hnv1. by left.
    + naive_solver.
  - rewrite (Hfix eq_refl), Hnv1. destruct Hf as [Hf _]. destruct (Hf eq_refl) as [Hv Hfalse].
    case_decide as Hx; [|naive_solver]. subst x. rewrite Hall. naive_solver.
Qed.

(** X4.  [add_vertex] stores the vertex in the index under itself.  It
    validates the new vertex only: every other vertex stays in or out of the
    non-validated set as it was, also one that was waiting for the new
    vertex; the new vertex stays non-validated exactly when it has a
    neighbor other than itself that the index lacks. *)
Theorem add_vertex_spec self v :
  let self' := add_vertex self v in
  __vertexes self' = <[v := v]> (__vertexes self) ∧
  (∀ x, x ≠ v → x ∈ __non_validated_vertexes self' ↔ x ∈ __non_validated_vertexes self) ∧
  (v ∈ __non_validated_vertexes self' ↔
   ∃ n, n ∈ neighbors v ∧ n ≠ v ∧ __vertexes self !! n = None).
Proof.
  cbv zeta. split; [apply add_vertex_index|]. split.
  - intros x Hne. by rewrite add_vertex_non_validated, decide_False.
  - by rewrite add_vertex_non_validated, decide_True.
Qed.

(** X5.  Two vertices can be added in either order: the searches return the
    same results, values and errors alike. *)
Theorem add_vertex_order_irrelevant self u v a b :
  (breadth_first_search (add_vertex (add_vertex self u) v) a b).1 =
  (breadth_first_search (add_vertex (add_vertex self v) u) a b).1 ∧
  dijkstra_search (add_vertex (add_vertex self u) v) a b =
  dijkstra_search (add_vertex (add_vertex self v) u) a b.
Proof.
  assert (<[v:=v]> (<[u:=u]> (__vertexes self)) = <[u:=u]> (<[v:=v]> (__vertexes self)))
    as Hcomm.
  { destruct (decide (u = v)) as [->|Hne]; [done|]. by apply insert_insert_ne. }
  assert (∀ g x y z,
    fails_validation (add_vertex (add_vertex g x) y) z ↔
    (z = x ∨ z = y ∨ z ∈ __non_validated_vertexes g) ∧
    ∃ n, n ∈ neighbors z ∧ <[y:=y]> (<[x:=x]> (__vertexes g)) !! n = None) as Hfails.
  { intros g x y z. rewrite add_vertex_fails, add_vertex_index, add_vertex_non_validated.
    assert (∀ n, <[y:=y]> (<[x:=x]> (__vertexes g)) !! n = None →
                 n ≠ x ∧ __vertexes g !! n = None) as Hmiss.
    { intros n Hnone.
      destruct (decide (n = y)) as [->|Hny]; [by rewrite lookup_insert_eq in Hnone|].
      rewrite lookup_insert_ne in Hnone by done.
      destruct (decide (n = x)) as [->|Hnx]; [by rewrite lookup_insert_eq in Hnone|].
      by rewrite lookup_insert_ne in Hnone. }
    case_decide as Hzx.
    - subst z. split; [intros [_ Hn]; split; [by left|done]|].
      intros (_ & n & Hn & Hnone). split; [|by exists n]. right. exists n.
      split; [done|]. by apply Hmiss.
    - naive_solver. }
  split.
  - apply breadth_first_search_same_failures. intros x.
    rewrite !Hfails, Hcomm. naive_solver.
  - unfold dijkstra_search, _dijkstra_search, dijkstra_init.
    by rewrite !add_vertex_index, Hcomm.
Qed.

(** ** Path extraction: the three ways the walk can go *)

Lemma parent_chain_walk m v l :
  parent_chain m v l → walk_ends m v l ∧ ∃ k, last l = Some k ∧ m !! k = Some None.
Proof.
  induction 1 as [v Hv|v u l Hv Hc [Hw (k & Hk & Hroot)]].
  - split; [by constructor|]. by exists v.
  - split; [by econstructor|]. exists k. split; [|done].
    destruct l; [done|]. by rewrite last_cons_cons.
Qed.

Lemma walk_ends_cases m v l :
  walk_ends m v l →
  ∃ k, last l = Some k ∧ ((m !! k = Some None ∧ parent_chain m v l) ∨ m !! k = None).
Proof.
  induction 1 as [v Hv|v Hv|v u l Hv Hw (k & Hk & Hcase)].
  - exists v. split; [done|]. left. split; [done|by constructor].
  - exists v. split; [done|]. by right.
  - exists k. split. { destruct l; [done|]. by rewrite last_cons_cons. }
    destruct Hcase as [[Hroot Hc]|Hnone]; [left|by right]. split; [done|by econstructor].
Qed.

Lemma extract_while_missing m v l : walk_ends m v l → ∀ k fuel acc,
  last l = Some k → m !! k = None → length l ≤ fuel →
  extract_while fuel m (Some v) acc = Raise (KeyError k).
Proof.
  induction 1 as [v Hv|v Hv|v u l Hv Hw IH]; intros k [|fuel] acc Hk Hnone Hlen;
    cbn [length] in Hlen; try lia; cbn [extract_while].
  - injection Hk as <-. congruence.
  - injection Hk as <-. by rewrite Hv.
  - rewrite Hv. apply IH; [|done|lia]. destruct l; [by inversion Hw|].
    by rewrite last_cons_cons in Hk.
Qed.

Lemma extract_path_walk v m l :
  walk_ends m v l →
  (_extract_path_from_parent_dictionary v m = Return l ∧ parent_chain m v l) ∨
  (∃ k, _extract_path_from_parent_dictionary v m = Raise (KeyError k) ∧
        last l = Some k ∧ m !! k = None).
Proof.
  intros Hl. pose proof (walk_ends_length m v l Hl) as Hlen.
  destruct (walk_ends_cases m v l Hl) as (k & Hk & [[Hroot Hc]|Hnone]).
  - left. split; [|done]. by apply (extract_while_chain m v l _ []).
  - right. exists k. split; [|done]. by apply (extract_while_missing m v l Hl).
Qed.

Lemma extract_path_cases v m :
  match _extract_path_from_parent_dictionary v m with
  | Return l => parent_chain m v l
  | Raise e => ∃ l k, e = KeyError k ∧ walk_ends m v l ∧ last l = Some k ∧ m !! k = None
  | OutOfFuel => ¬ ∃ l, walk_ends m v l
  end.
Proof.
  pose proof (extract_while_ends m (S (size m)) v []) as Hrun.
  pose proof (extract_path_walk v m) as Hwalk.
  unfold _extract_path_from_parent_dictionary in *.
  destruct (extract_while (S (size m)) m (Some v) []) as [l|e|].
  - destruct Hrun as [l' Hl']; [done|].
    destruct (Hwalk l' Hl') as [[[= ->] Hc]|(k & ? & _)]; done.
  - destruct Hrun as [l Hl]; [done|].
    destruct (Hwalk l Hl) as [[? _]|(k & [= ->] & Hk & Hnone)]; [done|]. by exists l, k.
  - intros [l Hl]. destruct (Hwalk l Hl) as [[? _]|(k & ? & _)]; done.
Qed.

(** X6.  [_extract_path_from_parent_dictionary] returns a list exactly when
    the parent links from [last] lead to a vertex whose parent is [None],
    and the list is that chain, [last] first and no vertex twice; it raises
    [KeyError] exactly when the links lead to a key the dictionary lacks,
    and names that key; when the links run in a cycle the loop goes on for
    ever. *)
Theorem extract_path_outcome v m :
  let r := _extract_path_from_parent_dictionary v m in
  (∀ l, r = Return l ↔ parent_chain m v l) ∧
  (∀ l, r = Return l → head l = Some v ∧ NoDup l) ∧
  (∀ e, r = Raise e ↔
        ∃ l k, e = KeyError k ∧ walk_ends m v l ∧ last l = Some k ∧ m !! k = None) ∧
  (r = OutOfFuel ↔ ¬ ∃ l, walk_ends m v l) ∧
  (r = OutOfFuel → ∀ fuel, extract_while fuel m (Some v) [] = OutOfFuel).
Proof.
  intros r.
  assert (∀ l, r = Return l → head l = Some v ∧ NoDup l) as Hsimple.
  { intros l Hr. pose proof (extract_path_cases v m) as Hc. fold r in Hc. rewrite Hr in Hc.
    split; [by eapply parent_chain_head|].
    destruct (parent_chain_walk m v l Hc) as [Hl _]. by eapply walk_ends_NoDup. }
  pose proof (extract_path_walk v m) as Hwalk. fold r in Hwalk.
  pose proof (extract_path_cases v m) as Hcases. fold r in Hcases.
  assert (r = OutOfFuel → ∀ fuel, extract_while fuel m (Some v) [] = OutOfFuel) as Hcut.
  { intros Hr fuel. pose proof (extract_fuel_enough m v fuel) as Hfuel. fold r in Hfuel.
    destruct (extract_while fuel m (Some v) []) as [l|e|]; [| |done].
    - rewrite Hfuel in Hr; done.
    - rewrite Hfuel in Hr; done. }
  clearbody r. split; [|split; [done|split; [|split]]]; [| | |done].
  - intros l. split.
    + intros ->. done.
    + intros Hc. destruct (parent_chain_walk m v l Hc) as (Hl & k & Hk & Hroot).
      destruct (Hwalk l Hl) as [[Hr _]|(k' & _ & Hk' & Hnone)]; [done|congruence].
  - intros e. split.
    + intros ->. done.
    + intros (l & k & -> & Hl & Hk & Hnone).
      destruct (Hwalk l Hl) as [[_ Hc]|(k' & Hr & Hk' & _)]; [|congruence].
      destruct (parent_chain_walk m v l Hc) as (_ & k' & Hk' & Hroot). congruence.
  - split.
    + intros ->. done.
    + intros Hno. destruct r as [l|e|]; [| |done].
      * destruct Hno. destruct (parent_chain_walk m v l Hcases) as [Hl _]. by exists l.
      * destruct Hno. destruct Hcases as (l & k & _ & Hl & _). by exists l.
Qed.

(** ** Breadth-first search: what a search leaves behind *)

Ltac bfs_cbn :=
  cbn [bfs_self bfs_queue bfs_marked_set bfs_vertex_2_parent bfs_dequeued
       bfs_init bfs_mark bfs_popleft bfs_forget bfs_set_self fst snd] in *.

(** The graph after a traversal: the index as it was, and the non-validated
    set without the vertices that passed their validation. *)
Lemma bfs_search_graph self start end_ vertex_2_parent :
  let r := _breadth_first_search self start end_ vertex_2_parent in
  __vertexes (bfs_self r.2) = __vertexes self ∧
  ∃ dq : list V,
        (∀ u, u ∈ dq → ¬ fails_validation self u) ∧
        (∀ u, u ∈ dq → u ∈ bfs_dequeued r.2) ∧
        (∀ x, x ∈ __non_validated_vertexes (bfs_self r.2) ↔
              x ∈ __non_validated_vertexes self ∧ x ∉ dq).
Proof.
  intros r. unfold r.
  pose proof (bfs_search_post self start end_ vertex_2_parent) as Hpost.
  pose proof (bfs_fuel_enough self start end_ vertex_2_parent) as Hfuel.
  unfold bfs_post in Hpost.
  destruct (_breadth_first_search self start end_ vertex_2_parent) as [[[]|e|] st];
    cbn [fst snd] in *; [| | |done].
  - destruct Hpost as (d & cur & n & todo & _ & _ & _ & _ & Hinv & _).
    split; [apply Hinv|]. exists (bfs_dequeued st).
    split; [apply Hinv|]. split; [done|apply Hinv].
  - destruct Hpost as (d & Hinv & _).
    split; [apply Hinv|]. exists (bfs_dequeued st).
    split; [apply Hinv|]. split; [done|apply Hinv].
  - destruct Hpost as (v & dq & _ & Hdq & _ & _ & _ & Hvalid & _ & Hix & Hnv).
    split; [done|]. exists dq. split; [done|]. split; [|done].
    intros u Hu. rewrite Hdq. apply elem_of_app. by left.
Qed.

Lemma bfs_search_same_failures self start end_ vertex_2_parent :
  same_failures (bfs_self (_breadth_first_search self start end_ vertex_2_parent).2) self.
Proof.
  destruct (bfs_search_graph self start end_ vertex_2_parent) as (Hix & dq & Hdq & _ & Hnv).
  cbv zeta in *. intros x. unfold fails_validation. rewrite Hix, Hnv.
  split; [naive_solver|]. intros [Hx Hall]. split; [split; [done|]|done].
  intros Hin. by apply (Hdq x Hin).
Qed.

(** The traversal of two graphs with the same failures differs in the graph
    alone. *)
Lemma bfs_while_set_self fuel end_ : ∀ st g,
  same_failures g (bfs_self st) →
  ∃ g', bfs_while fuel end_ (bfs_set_self g st) =
        ((bfs_while fuel end_ st).1, bfs_set_self g' (bfs_while fuel end_ st).2).
Proof.
  induction fuel as [|fuel IH]; intros st g Hsame; simpl.
  { exists g. by destruct (bfs_queue st). }
  destruct (bfs_queue st) as [|v q] eqn:Hq; [by exists g|].
  pose proof (bfs_validate_same_failures g (bfs_self st) v Hsame) as [Hok Hsame'].
  destruct (if decide (v ∈ __non_validated_vertexes g) then _ else _) as [ok g1].
  destruct (if decide (v ∈ __non_validated_vertexes (bfs_self st)) then _ else _)
    as [ok' g1'].
  simpl in Hok, Hsame'. subst ok'. destruct ok; [|by exists g1].
  change (bfs_popleft v q g1 (bfs_set_self g st))
    with (bfs_set_self g1 (bfs_popleft v q g1' st)).
  rewrite bfs_for_set_self.
  pose proof (bfs_for_self v end_ (neighbors v) (bfs_popleft v q g1' st)) as Hself.
  destruct (bfs_for v end_ (neighbors v) (bfs_popleft v q g1' st)) as [[] st2];
    simpl in *; [by exists g1|].
  apply IH. by rewrite Hself.
Qed.

Lemma find_shortest_path_same_failures g g' a b reverse :
  same_failures g g' →
  (find_shortest_path g a b reverse).1 = (find_shortest_path g' a b reverse).1.
Proof.
  intros Hsame. unfold find_shortest_path, _breadth_first_search. cbn [fst].
  destruct (bfs_while_set_self (S (card V)) (Some b) (bfs_init g' a (Some ∅)) g Hsame)
    as [g1 Hrun].
  change (bfs_set_self g (bfs_init g' a (Some ∅))) with (bfs_init g a (Some ∅)) in Hrun.
  by rewrite Hrun.
Qed.

(** X7.  A search changes the graph only by taking validated vertices out of
    the non-validated set, and [find_shortest_path] leaves the graph that
    [breadth_first_search] leaves; whatever was searched before, every
    later search and path query returns what it returns on the graph as it
    was. *)
Theorem breadth_first_search_frame self a b c d reverse reverse' :
  let g := (breadth_first_search self a b).2 in
  (find_shortest_path self a b reverse).2 = g ∧
  __vertexes g = __vertexes self ∧
  __non_validated_vertexes g ⊆ __non_validated_vertexes self ∧
  (breadth_first_search g c d).1 = (breadth_first_search self c d).1 ∧
  (find_shortest_path g c d reverse').1 = (find_shortest_path self c d reverse').1 ∧
  dijkstra_search g c d = dijkstra_search self c d ∧
  find_weighted_shortest_path g c d reverse' = find_weighted_shortest_path self c d reverse'.
Proof.
  intros g.
  destruct (bfs_search_graph self a (Some b) None) as (Hix & dq & _ & _ & Hnv).
  pose proof (bfs_search_same_failures self a (Some b) None) as Hsame.
  cbv zeta in *. change (bfs_self (_breadth_first_search self a (Some b) None).2) with g in *.
  split; [|split; [done|split; [|split; [|split; [|split]]]]].
  - unfold g, find_shortest_path, breadth_first_search. cbn [snd].
    by rewrite (bfs_search_forget self a (Some b) ∅).
  - intros x Hx. by apply Hnv in Hx as [Hx _].
  - by apply breadth_first_search_same_failures.
  - by apply find_shortest_path_same_failures.
  - unfold dijkstra_search, _dijkstra_search, dijkstra_init. by rewrite Hix.
  - unfold find_weighted_shortest_path, _dijkstra_search, dijkstra_init. by rewrite Hix.
Qed.

(** ** Breadth-first search: the target is met as a neighbor *)

Definition bfs_target_free (start : V) (end_ : option V) (st : bfs_state) : Prop :=
  ∀ v, v ∈ bfs_dequeued st ++ bfs_queue st → Some v = end_ → v = start.

Lemma bfs_for_target start cur end_ ns : ∀ st,
  bfs_target_free start end_ st →
  bfs_dequeued (bfs_for cur end_ ns st).2 = bfs_dequeued st ∧
  ((bfs_for cur end_ ns st).1 = false →
   bfs_target_free start end_ (bfs_for cur end_ ns st).2).
Proof.
  induction ns as [|n ns IH]; intros st Hfree; simpl; [done|].
  destruct (decide (Some n = end_)) as [Hend|Hend]; simpl.
  { split; [by case_decide|done]. }
  case_decide as Hmk; [by apply IH|].
  destruct (IH (bfs_mark cur n st)) as [Hdq Hrest]; [|done].
  intros v. bfs_cbn. rewrite app_assoc, elem_of_app, list_elem_of_singleton.
  intros [Hv| ->]; [by apply Hfree|done].
Qed.

Lemma bfs_while_target start fuel end_ : ∀ st,
  bfs_target_free start end_ st →
  ∀ v, v ∈ bfs_dequeued (bfs_while fuel end_ st).2 → Some v = end_ → v = start.
Proof.
  induction fuel as [|fuel IH]; intros st Hfree; simpl.
  { destruct (bfs_queue st) as [|x q]; simpl; intros v Hv; apply Hfree, elem_of_app;
      by left. }
  destruct (bfs_queue st) as [|x q] eqn:Hq.
  { simpl. intros v Hv. apply Hfree, elem_of_app. by left. }
  destruct (if decide (x ∈ _) then _ else _) as [valid self'].
  assert (bfs_target_free start end_ (bfs_popleft x q self' st)) as Hfree1.
  { intros v. bfs_cbn. rewrite <-app_assoc. simpl. rewrite <-Hq. apply Hfree. }
  destruct valid; cycle 1.
  { simpl. intros v Hv. apply Hfree1, elem_of_app. by left. }
  destruct (bfs_for_target start x end_ (neighbors x) _ Hfree1) as [Hdq Hrest].
  destruct (bfs_for x end_ (neighbors x) (bfs_popleft x q self' st)) as [[] st2];
    cbn [fst snd] in *.
  - intros v Hv. rewrite Hdq in Hv. apply Hfree1, elem_of_app. by left.
  - by apply IH, Hrest.
Qed.

(** X8.  [breadth_first_search a b] with [a ≠ b] never takes [b] out of the
    queue: it does not validate [b], does not look at the neighbors of [b],
    and cannot raise the referential-integrity error for [b]; [b] is in
    the non-validated set afterwards exactly when it was before. *)
Theorem bfs_never_expands_target self a b vertex_2_parent :
  a ≠ b →
  let r := _breadth_first_search self a (Some b) vertex_2_parent in
  (b ∉ bfs_dequeued r.2) ∧
  r.1 ≠ Raise (ValueError b) ∧
  (b ∈ __non_validated_vertexes (bfs_self r.2) ↔ b ∈ __non_validated_vertexes self).
Proof.
  intros Hne r.
  assert (b ∉ bfs_dequeued r.2) as Hb.
  { intros Hin. apply Hne. symmetry.
    apply (bfs_while_target a (S (card V)) (Some b) (bfs_init self a vertex_2_parent));
      [|done..].
    intros v. bfs_cbn. simpl. by intros ->%list_elem_of_singleton [= ->]. }
  split; [done|]. split.
  - destruct (bfs_error_spec self a (Some b) vertex_2_parent) as [_ Herr].
    fold r in Herr. intros Hr. rewrite Hr in Herr.
    destruct Herr as (v & dq & [= <-] & Hdq & _). apply Hb. rewrite Hdq.
    apply elem_of_app. right. by apply list_elem_of_singleton.
  - destruct (bfs_search_graph self a (Some b) vertex_2_parent) as (_ & dq & _ & Hsub & Hnv).
    fold r in Hsub, Hnv. rewrite Hnv. split; [naive_solver|]. intros Hin.
    split; [done|]. intros Hdq. by apply Hb, Hsub.
Qed.

(** ** Dijkstra: which vertices the search reaches, for any weights *)

Section dijkstra_reach.

Variables (start : V) (end_ : option V).

(** A vertex has a finite distance only when a path leads to it; one that
    is not finalized yet has an entry in the queue; the neighbors of a
    finalized vertex have a finite distance, [todo] apart. *)
Record dj_reach (todo : list V) (st : dijkstra_state) : Prop := DjReach {
  dr_start : ∃ x, dj_distance st !! start = Some (Real x);
  dr_visited : dj_visited st = list_to_set (dj_finalized st);
  dr_sound : ∀ v x, dj_distance st !! v = Some (Real x) → reachable start v;
  dr_items : ∀ e, e ∈ pq_items (dj_remaining_vertexes st) →
      ∃ x, dj_distance st !! vertex e = Some (Real x);
  dr_visited_real : ∀ u, u ∈ dj_visited st → ∃ x, dj_distance st !! u = Some (Real x);
  dr_pending : ∀ v x, dj_distance st !! v = Some (Real x) → v ∉ dj_visited st →
      ∃ e, e ∈ pq_items (dj_remaining_vertexes st) ∧ vertex e = v;
  dr_closed : ∀ u n, u ∈ dj_visited st → n ∈ neighbors u →
      (∃ z, dj_distance st !! n = Some (Real z)) ∨
      (last (dj_finalized st) = Some u ∧ n ∈ todo)
}.

Lemma dijkstra_init_reach self vertex_2_parent :
  dj_reach [] (dijkstra_init self start vertex_2_parent).
Proof.
  assert (∀ v x, (<[start:=Real 0]> ((λ _, Inf) <$> __vertexes self) : gmap V pyfloat) !! v
                 = Some (Real x) → v = start) as Hreal.
  { intros v x. destruct (decide (v = start)) as [->|Hne]; [done|].
    rewrite lookup_insert_ne, lookup_fmap by done.
    by destruct (__vertexes self !! v). }
  split; dj_simpl.
  - exists 0%Q. apply lookup_insert_eq.
  - done.
  - intros v x ->%Hreal. exists [start]. constructor.
  - intros e [->|He]%elem_of_pq_put.
    + exists 0%Q. apply lookup_insert_eq.
    + rewrite pq_items_new in He. by apply elem_of_nil in He.
  - by intros u ?%elem_of_empty.
  - intros v x ->%Hreal _. exists (ShortestDistance 0 start).
    rewrite elem_of_pq_put. split; [by left|done].
  - by intros u n ?%elem_of_empty.
Qed.

Lemma dj_reach_step cur cd n rest st w d0 :
  dj_reach (n :: rest) st → last (dj_finalized st) = Some cur →
  get_weight cur n = Some w → dj_distance st !! n = Some d0 →
  dj_reach rest (if float_ltb (cd + w) d0
                 then dj_relax cur n (cd + w)%Q st else st).
Proof.
  intros Hinv Hcur Hw Hd0.
  pose proof Hinv as [Hst Hvis Hsound Hitems Hvreal Hpend Hclosed].
  destruct (float_ltb (cd + w) d0) eqn:Hlt.
  - assert (cur ∈ dj_visited st) as Hcurv.
    { rewrite Hvis, elem_of_list_to_set. by eapply last_Some_elem_of. }
    assert (∀ v x, dj_distance st !! v = Some (Real x) →
              ∃ x', <[n:=Real (cd + w)]> (dj_distance st) !! v = Some (Real x')) as Hkeep.
    { intros v x Hx. destruct (decide (v = n)) as [->|Hne].
      - exists (cd + w)%Q. apply lookup_insert_eq.
      - exists x. by rewrite lookup_insert_ne. }
    split; dj_simpl.
    + destruct Hst as [x Hx]. by eapply Hkeep.
    + done.
    + intros v x Hx. destruct (decide (v = n)) as [->|Hne].
      * destruct (Hvreal cur Hcurv) as [y Hy]. destruct (Hsound cur y Hy) as [p Hp].
        exists (p ++ [n]). econstructor; [done|]. by eapply get_weight_Some.
      * rewrite lookup_insert_ne in Hx by done. by eapply Hsound.
    + intros e [->|He]%elem_of_pq_put.
      * exists (cd + w)%Q. apply lookup_insert_eq.
      * destruct (Hitems e He) as [x Hx]. by eapply Hkeep.
    + intros u Hu. destruct (Hvreal u Hu) as [x Hx]. by eapply Hkeep.
    + intros v x Hx Hv. destruct (decide (v = n)) as [->|Hne].
      * exists (ShortestDistance (cd + w) n). rewrite elem_of_pq_put. split; [by left|done].
      * rewrite lookup_insert_ne in Hx by done.
        destruct (Hpend v x Hx Hv) as (e & He & Hev). exists e.
        rewrite elem_of_pq_put. split; [by right|done].
    + intros u n' Hu Hn'. destruct (decide (n' = n)) as [->|Hne].
      { left. exists (cd + w)%Q. apply lookup_insert_eq. }
      destruct (Hclosed u n' Hu Hn') as [[z Hz]|[Hlast Htodo]].
      * left. by eapply Hkeep.
      * right. split; [done|]. apply elem_of_cons in Htodo as [->|Htodo]; done.
  - destruct d0 as [z|]; [|done].
    split; try done.
    intros u n' Hu Hn'. destruct (Hclosed u n' Hu Hn') as [?|[Hlast Htodo]]; [by left|].
    apply elem_of_cons in Htodo as [->|Htodo]; [left; by exists z|by right].
Qed.

Lemma dijkstra_for_reach cur cd todo : ∀ st st',
  dj_reach todo st → last (dj_finalized st) = Some cur →
  dijkstra_for cur cd todo st = Return st' →
  dj_reach [] st' ∧ dj_finalized st' = dj_finalized st.
Proof.
  induction todo as [|n rest IH]; intros st st' Hinv Hcur Hret; simpl in Hret.
  { by injection Hret as <-. }
  destruct (get_weight cur n) as [w|] eqn:Hw; [|done].
  destruct (dj_distance st !! n) as [d0|] eqn:Hd0; [|done].
  pose proof (dj_reach_step cur cd n rest st w d0 Hinv Hcur Hw Hd0) as Hstep.
  destruct (float_ltb (cd + w) d0).
  - by destruct (IH _ _ Hstep Hcur Hret).
  - by apply IH.
Qed.

Lemma dj_reach_pop st x q' :
  dj_reach [] st → pq_get (dj_remaining_vertexes st) = Some (x, q') →
  (vertex x ∈ dj_visited st → dj_reach [] (dj_get q' st)) ∧
  (vertex x ∉ dj_visited st →
     dj_reach (neighbors (vertex x)) (dj_visit (vertex x) (dj_get q' st))).
Proof.
  intros Hinv Hget.
  pose proof Hinv as [Hst Hvis Hsound Hitems Hvreal Hpend Hclosed].
  assert (∀ e, e ∈ pq_items q' → e ∈ pq_items (dj_remaining_vertexes st)) as Hsub.
  { intros e He. rewrite (elem_of_pq_get _ _ _ _ Hget). by right. }
  assert (x ∈ pq_items (dj_remaining_vertexes st)) as Hxin.
  { rewrite (elem_of_pq_get _ _ _ _ Hget). by left. }
  split; intros Hx; split; dj_simpl; try done.
  - intros e He. by apply Hitems, Hsub.
  - intros v y Hy Hv. destruct (Hpend v y Hy Hv) as (e & He & Hev).
    exists e. split; [|done].
    apply (elem_of_pq_get _ _ _ _ Hget) in He as [->|He]; [|done]. by rewrite Hev in Hx.
  - rewrite Hvis, list_to_set_app_L. set_solver.
  - intros e He. by apply Hitems, Hsub.
  - intros u [->%elem_of_singleton|Hu]%elem_of_union; [by apply Hitems|by apply Hvreal].
  - intros v y Hy Hv. destruct (Hpend v y Hy ltac:(set_solver)) as (e & He & Hev).
    exists e. split; [|done].
    apply (elem_of_pq_get _ _ _ _ Hget) in He as [->|He]; [|done]. set_solver.
  - intros u n [->%elem_of_singleton|Hu]%elem_of_union Hn.
    + right. by rewrite last_snoc.
    + destruct (Hclosed u n Hu Hn) as [?|[_ []%elem_of_nil]]. by left.
Qed.

(** When the queue has run empty, the finalized vertices are the vertices
    within reach. *)
Lemma dj_reach_exhausted st v :
  dj_reach [] st → pq_items (dj_remaining_vertexes st) = [] →
  reachable start v → v ∈ dj_visited st.
Proof.
  intros Hinv Hq [p Hp].
  assert (∀ u x, dj_distance st !! u = Some (Real x) → u ∈ dj_visited st) as Hreal.
  { intros u x Hx. apply dec_stable. intros Hu.
    destruct (dr_pending _ _ Hinv u x Hx Hu) as (e & He & _).
    rewrite Hq in He. by apply elem_of_nil in He. }
  induction Hp as [|p u v Hp IH Hv].
  - destruct (dr_start _ _ Hinv) as [x Hx]. by eapply Hreal.
  - destruct (dr_closed _ _ Hinv u v IH Hv) as [[z Hz]|[_ []%elem_of_nil]].
    by eapply Hreal.
Qed.

Definition dj_reach_post (r : outcome bool * dijkstra_state) : Prop :=
  match r.1 with
  | Return found =>
      dj_reach [] r.2 ∧
      (found = true → ∃ b, end_ = Some b ∧ last (dj_finalized r.2) = Some b) ∧
      (found = false →
         pq_items (dj_remaining_vertexes r.2) = [] ∧
         ∀ u, u ∈ dj_finalized r.2 → Some u ≠ end_)
  | Raise _ => ∀ u, u ∈ dj_finalized r.2 → reachable start u
  | OutOfFuel => True
  end.

Lemma dijkstra_while_reach fuel : ∀ st,
  dj_reach [] st → (∀ u, u ∈ dj_finalized st → Some u ≠ end_) →
  dj_reach_post (dijkstra_while fuel end_ st).
Proof.
  induction fuel as [|fuel IH]; intros st Hinv Hnoend; simpl;
    destruct (pq_get (dj_remaining_vertexes st)) as [[x q']|] eqn:Hget; try done;
    try (split; [done|]; split; [done|]; intros _; split; [by apply pq_get_None|done]).
  destruct (dj_reach_pop st x q' Hinv Hget) as [Hstale Hvisit].
  destruct (decide (vertex x ∈ dj_visited st)) as [Hvis|Hvis].
  { by apply IH; [apply Hstale|]. }
  destruct (dijkstra_for _ _ _ _) as [st3|e|] eqn:Hfor; [| |done].
  2:{ intros u Hu. cbn [snd] in Hu.
      assert (u ∈ dj_visited (dj_visit (vertex x) (dj_get q' st))) as Hu'.
      { rewrite (dr_visited _ _ (Hvisit Hvis)). by apply elem_of_list_to_set. }
      destruct (dr_visited_real _ _ (Hvisit Hvis) u Hu') as [y Hy].
      by eapply (dr_sound _ _ (Hvisit Hvis)). }
  destruct (dijkstra_for_reach _ _ _ _ _ (Hvisit Hvis) ltac:(dj_simpl; by rewrite last_snoc) Hfor)
    as [Hinv3 Hfin3].
  destruct (decide (Some (vertex x) = end_)) as [Hend|Hend].
  - split; [done|]. split; [|done]. intros _. exists (vertex x). split; [done|].
    cbn [snd]. rewrite Hfin3. dj_simpl. by rewrite last_snoc.
  - apply IH; [done|]. rewrite Hfin3. dj_simpl.
    intros u [Hu| ->%list_elem_of_singleton]%elem_of_app; [by apply Hnoend|done].
Qed.

End dijkstra_reach.

Lemma dijkstra_search_reach self a end_ vertex_2_parent :
  dj_reach_post a end_ (_dijkstra_search self a end_ vertex_2_parent).
Proof.
  apply dijkstra_while_reach; [apply dijkstra_init_reach|]. by intros u ?%elem_of_nil.
Qed.

Lemma dijkstra_search_cases self a b vertex_2_parent :
  match (_dijkstra_search self a (Some b) vertex_2_parent).1 with
  | Return found => found = true ↔ reachable a b
  | Raise e => ∃ u n, e = KeyError n ∧ reachable a u ∧ n ∈ neighbors u ∧
                      __vertexes self !! n = None ∧ n ≠ a
  | OutOfFuel => False
  end.
Proof.
  pose proof (dijkstra_error_spec self a (Some b) vertex_2_parent) as [_ Herr].
  pose proof (dijkstra_search_reach self a (Some b) vertex_2_parent) as Hpost.
  unfold dj_reach_post in Hpost.
  destruct (_dijkstra_search self a (Some b) vertex_2_parent) as [[found|e|] st];
    cbn [fst snd] in *.
  - destruct Hpost as (Hinv & Htrue & Hfalse). destruct found.
    + split; [|done]. intros _. destruct (Htrue eq_refl) as (b' & [= <-] & Hlast).
      assert (b ∈ dj_visited st) as Hb.
      { rewrite (dr_visited _ _ _ Hinv), elem_of_list_to_set. by eapply last_Some_elem_of. }
      destruct (dr_visited_real _ _ _ Hinv b Hb) as [x Hx]. by eapply dr_sound.
    + split; [done|]. intros Hreach. destruct (Hfalse eq_refl) as [Hq Hnoend].
      pose proof (dj_reach_exhausted a st b Hinv Hq Hreach) as Hb.
      rewrite (dr_visited _ _ _ Hinv), elem_of_list_to_set in Hb. by destruct (Hnoend b Hb).
  - destruct Herr as (u & n & -> & Hlast & Hn & Hnone & Hne). exists u, n.
    split; [done|]. split; [|done]. apply Hpost. by eapply last_Some_elem_of.
  - done.
Qed.


(** ** The two searches side by side *)


(** X11.  A graph built from a list that holds the neighbors of each of its
    vertices has nothing left to validate, and no search or unweighted path
    query from a vertex of the list raises. *)
Theorem closed_graph_never_raises (l : list V) a b reverse :
  (∀ v n, v ∈ l → n ∈ neighbors v → n ∈ l) → a ∈ l →
  let self := Graph_init (Some l) in
  __non_validated_vertexes self = ∅ ∧
  (∃ f, (breadth_first_search self a b).1 = Return f) ∧
  (∃ q, (find_shortest_path self a b reverse).1 = Return q) ∧
  (∃ f, dijkstra_search self a b = Return f).
Proof.
  intros Hclosed Ha self.
  assert (__non_validated_vertexes self = ∅) as Hnv.
  { apply elem_of_equiv_empty_L. intros v (Hv & n & Hn & Hout)%Graph_init_non_validated.
    apply Hout. by eapply Hclosed. }
  assert (∀ v, ¬ fails_validation self v) as Hvalid.
  { intros v [Hv _]. rewrite Hnv in Hv. by apply elem_of_empty in Hv. }
  assert ((breadth_first_search self a b).1 = (_breadth_first_search self a (Some b) None).1)
    as Hbfs by done.
  pose proof (bfs_outcome_spec self a b None) as Hb. rewrite <-Hbfs in Hb.
  pose proof (find_shortest_path_spec self a b) as Hp.
  split; [done|]. split; [|split].
  - destruct ((breadth_first_search self a b).1) as [f|e|]; [by exists f| |done].
    destruct Hb as (v & _ & _ & Hv). by destruct (Hvalid v).
  - destruct ((breadth_first_search self a b).1) as [[]|e|]; [| | |done].
    + destruct Hp as (q & Hq & _). rewrite Hq. by eexists.
    + rewrite Hp. by eexists.
    + destruct Hb as (v & _ & _ & Hv). by destruct (Hvalid v).
  - pose proof (dijkstra_search_cases self a b None) as Hd. unfold dijkstra_search.
    destruct ((_dijkstra_search self a (Some b) None).1) as [f|e|]; [by exists f| |done].
    destruct Hd as (u & n & _ & [p Hp'] & Hn & Hnone & _).
    assert (u ∈ l) as Hu.
    { clear Hn. induction Hp' as [|p u v Hp' IH Hv]; [done|]. by eapply Hclosed. }
    unfold self in Hnone. rewrite Graph_init_index in Hnone.
    rewrite decide_True in Hnone; [done|]. by eapply Hclosed.
Qed.

(** ** Breadth-first search without a target *)

(** X12.  [_breadth_first_search] with [end = None] never returns [True]:
    unless a vertex within reach fails its validation, it returns [False]
    after it has dequeued exactly the vertices reachable from [start], all
    of which have left the non-validated set; the parent dictionary then
    gives for each of them a path from [start] with the fewest edges. *)
Theorem bfs_full_traversal self start m0 :
  let r := _breadth_first_search self start None (Some m0) in
  match r.1 with
  | Return found =>
      found = false ∧
      (∀ v, v ∈ bfs_dequeued r.2 ↔ reachable start v) ∧
      (∀ v, reachable start v → v ∉ __non_validated_vertexes (bfs_self r.2)) ∧
      ∃ m, bfs_vertex_2_parent r.2 = Some m ∧
        ∀ v, reachable start v →
          ∃ l, _extract_path_from_parent_dictionary v m = Return l ∧
               path start (rev l) v ∧
               ∀ p, path start p v → edge_count (rev l) ≤ edge_count p
  | Raise e => ∃ v, e = ValueError v ∧ reachable start v ∧ fails_validation self v
  | OutOfFuel => False
  end.
Proof.
  intros r. unfold r.
  pose proof (bfs_search_post self start None (Some m0)) as Hpost.
  pose proof (bfs_fuel_enough self start None (Some m0)) as Hfuel.
  pose proof (bfs_while_parent_Some (S (card V)) None (bfs_init self start (Some m0))
                ltac:(by eexists)) as Hpar.
  fold (_breadth_first_search self start None (Some m0)) in Hpar.
  unfold bfs_post in Hpost.
  destruct (_breadth_first_search self start None (Some m0)) as [[[]|e|] st];
    cbn [fst snd] in *; [| | |done].
  - by destruct Hpost as (d & cur & n & todo & _ & Hn & _).
  - destruct Hpost as (d & Hinv & _ & Hq). split; [done|].
    assert (∀ v, v ∈ bfs_dequeued st ↔ reachable start v) as Hdq.
    { intros v. split.
      - intros Hv. eapply bi_reach; [done|]. by eapply bfs_inv_dequeued_marked.
      - by eapply bfs_exhausted. }
    split; [done|]. split.
    { intros v Hv%Hdq Hnv. by apply (bi_nv _ _ _ _ _ Hinv) in Hnv as [_ Hnv]. }
    destruct Hpar as [m Hm]. exists m. split; [done|]. intros v Hv.
    pose proof Hv as Hvdq%Hdq.
    assert (v ∈ bfs_marked_set st) as Hmk by (by eapply bfs_inv_dequeued_marked).
    destruct (bfs_extract self start d [] st m v Hinv Hm Hmk)
      as (l & Hl & Hpath & Hlen & _ & _).
    exists l. split; [done|]. split; [done|]. intros p Hp.
    unfold edge_count at 1. rewrite length_rev, Hlen. cbn [pred].
    destruct (last (bfs_dequeued st)) as [cur|] eqn:Hcur; cycle 1.
    { apply last_None in Hcur. rewrite Hcur in Hvdq. by apply elem_of_nil in Hvdq. }
    pose proof (bi_past _ _ _ _ _ Hinv v Hvdq) as Hpast.
    unfold bfs_depth in Hpast. rewrite Hcur in Hpast. cbn [from_option] in Hpast.
    destruct (bfs_lower_bound self start d [] st cur p v Hinv Hcur Hp) as [[_ Hle]|Hle]; lia.
  - destruct Hpost as (v & dq & -> & _ & Hfails & Hreach & _). by exists v.
Qed.

(** ** Dijkstra: the parent dictionary, for any weights *)

Section dijkstra_tree.

Variables (self : Graph) (start : V).








End dijkstra_tree.

(** ** Dijkstra: two runs that differ in the parent dictionary alone *)

(** [m] and [m'] come from [m0] and [m0'] by the same assignments. *)
Definition parent_rel (m0 m0' m m' : gmap V (option V)) : Prop :=
  ∀ k, (m !! k = m' !! k ∧ ∃ u, m !! k = Some (Some u)) ∨
       (m !! k = m0 !! k ∧ m' !! k = m0' !! k).

Lemma parent_rel_insert m0 m0' m m' n u :
  parent_rel m0 m0' m m' →
  parent_rel m0 m0' (<[n := Some u]> m) (<[n := Some u]> m').
Proof.
  intros Hrel k. destruct (decide (k = n)) as [->|Hne].
  - left. rewrite !lookup_insert_eq. split; [done|by exists u].
  - rewrite !lookup_insert_ne by done. apply Hrel.
Qed.

Lemma dijkstra_for_parent_rel m0 m0' cur cd ns : ∀ st st' m m',
  dj_forget st = dj_forget st' →
  dj_vertex_2_parent st = Some m → dj_vertex_2_parent st' = Some m' →
  parent_rel m0 m0' m m' →
  match dijkstra_for cur cd ns st, dijkstra_for cur cd ns st' with
  | Return s, Return s' =>
      dj_forget s = dj_forget s' ∧
      ∃ m2 m2', dj_vertex_2_parent s = Some m2 ∧ dj_vertex_2_parent s' = Some m2' ∧
                parent_rel m0 m0' m2 m2'
  | Raise e, Raise e' => e = e'
  | _, _ => False
  end.
Proof.
  induction ns as [|n ns IH]; intros st st' m m' Hsame Hm Hm' Hrel; simpl.
  { split; [done|]. by exists m, m'. }
  pose proof Hsame as Hfields. unfold dj_forget in Hfields.
  injection Hfields as Hd Hq Hv Hf.
  destruct (get_weight cur n) as [w|]; [|done]. rewrite <-Hd.
  destruct (dj_distance st !! n) as [d0|]; [|done].
  destruct (float_ltb (cd + w) d0); [|by eapply IH].
  apply (IH _ _ (<[n := Some cur]> m) (<[n := Some cur]> m')).
  - unfold dj_forget, dj_relax. cbn. by rewrite Hd, Hq, Hv, Hf.
  - dj_simpl. by rewrite Hm.
  - dj_simpl. by rewrite Hm'.
  - by apply parent_rel_insert.
Qed.

Lemma dijkstra_while_parent_rel m0 m0' fuel end_ : ∀ st st' m m',
  dj_forget st = dj_forget st' →
  dj_vertex_2_parent st = Some m → dj_vertex_2_parent st' = Some m' →
  parent_rel m0 m0' m m' →
  (dijkstra_while fuel end_ st).1 = (dijkstra_while fuel end_ st').1 ∧
  ∃ m2 m2', dj_vertex_2_parent (dijkstra_while fuel end_ st).2 = Some m2 ∧
            dj_vertex_2_parent (dijkstra_while fuel end_ st').2 = Some m2' ∧
            parent_rel m0 m0' m2 m2'.
Proof.
  induction fuel as [|fuel IH]; intros st st' m m' Hsame Hm Hm' Hrel;
    pose proof Hsame as Hfields; unfold dj_forget in Hfields;
    injection Hfields as Hd Hq Hv Hf; simpl; rewrite <-Hq;
    destruct (pq_get (dj_remaining_vertexes st)) as [[x q']|];
    try (split; [done|]; by exists m, m').
  rewrite <-Hv.
  destruct (decide (vertex x ∈ dj_visited st)) as [Hvis|Hvis].
  { apply (IH _ _ m m'); [|done..]. unfold dj_forget, dj_get. cbn. by rewrite Hd, Hv, Hf. }
  assert (dj_forget (dj_visit (vertex x) (dj_get q' st)) =
          dj_forget (dj_visit (vertex x) (dj_get q' st'))) as Hsame2.
  { unfold dj_forget, dj_visit, dj_get. cbn. by rewrite Hd, Hv, Hf. }
  pose proof (dijkstra_for_parent_rel m0 m0' (vertex x) (distance x) (neighbors (vertex x))
    (dj_visit (vertex x) (dj_get q' st)) (dj_visit (vertex x) (dj_get q' st')) m m'
    Hsame2 Hm Hm' Hrel) as Hfor.
  destruct (dijkstra_for (vertex x) (distance x) (neighbors (vertex x))
              (dj_visit (vertex x) (dj_get q' st))) as [s|e|],
           (dijkstra_for (vertex x) (distance x) (neighbors (vertex x))
              (dj_visit (vertex x) (dj_get q' st'))) as [s'|e'|]; try done.
  - destruct Hfor as (Hs & m2 & m2' & Hm2 & Hm2' & Hrel2).
    destruct (decide (Some (vertex x) = end_)).
    + split; [done|]. by exists m2, m2'.
    + by apply (IH _ _ m2 m2').
  - subst e'. split; [done|]. by exists m, m'.
Qed.

(** ** The weighted path query, for any weights and any start vertex *)



Lemma parent_chain_transfer m0 m0' m m' a :
  parent_rel m0 m0' m m' → m0 !! a = None → (∀ k u, m0' !! k ≠ Some (Some u)) →
  ∀ v l, parent_chain m' v l → last l = Some a → walk_ends m v l ∧ m !! a = None.
Proof.
  intros Hrel Ha Hnone. induction 1 as [v Hv|v u l Hv Hc IH]; intros Hlast.
  - injection Hlast as ->.
    destruct (Hrel a) as [[Heq [u Hu]]|[Hm _]]; [congruence|].
    rewrite Ha in Hm. split; [by apply walk_missing|done].
  - assert (last l = Some a) as Hlast'.
    { destruct l; [by inversion Hc|]. by rewrite last_cons_cons in Hlast. }
    destruct (IH Hlast') as [Hwalk Hma]. split; [|done].
    destruct (Hrel v) as [[Heq _]|[_ Hm']].
    + apply walk_link with u; [congruence|done].
    + rewrite Hv in Hm'. by destruct (Hnone v u).
Qed.

Lemma find_weighted_outside_index self a b reverse :
  nonnegative_weights → __vertexes self !! a = None →
  dijkstra_search self a b = Return true →
  find_weighted_shortest_path self a b reverse = Raise (KeyError a).
Proof.
  intros Hnn Ha Hsearch.
  set (m0 := (λ _ : V, @None V) <$> __vertexes self).
  set (m0' := <[a := None]> m0).
  assert (∀ k u, m0' !! k ≠ Some (Some u)) as Hnone'.
  { intros k u. unfold m0', m0. destruct (decide (k = a)) as [->|Hne].
    - by rewrite lookup_insert_eq.
    - rewrite lookup_insert_ne, lookup_fmap by done. by destruct (__vertexes self !! k). }
  rewrite (dijkstra_search_outcome self a b m0') in Hsearch.
  pose proof (dijkstra_search_post self a (Some b) (Some m0')) as Hpost.
  pose proof (dijkstra_while_inv self a Hnn dijkstra_fuel (Some b)
                (dijkstra_init self a (Some m0'))) as Hinv.
  destruct (dijkstra_while_parent_rel m0 m0' dijkstra_fuel (Some b)
              (dijkstra_init self a (Some m0)) (dijkstra_init self a (Some m0')) m0 m0'
              eq_refl eq_refl eq_refl) as (Hout & m & m' & Hm & Hm' & Hrel).
  { intros k. by right. }
  fold (_dijkstra_search self a (Some b) (Some m0)) in Hout, Hm.
  fold (_dijkstra_search self a (Some b) (Some m0')) in Hout, Hm', Hinv.
  unfold find_weighted_shortest_path. fold m0.
  unfold dj_post in Hpost.
  destruct (_dijkstra_search self a (Some b) (Some m0')) as [out' st'].
  destruct (_dijkstra_search self a (Some b) (Some m0)) as [out st].
  cbn [fst snd] in *. subst out out'. cbn [outcome_bind].
  destruct Hpost as (Hstruct & Hlast & _). destruct (Hlast eq_refl) as (e & [= <-] & He).
  destruct (dj_extract self a st' m' b) as (l & Hext & _ & Hlst & _); [|done|done|done|].
  { apply Hinv. apply dijkstra_init_inv. intros m1 [= <-]. split.
    - unfold dj_keys, m0', m0. by rewrite dom_insert_L, dom_fmap_L.
    - apply lookup_insert_eq. }
  pose proof (extract_path_cases b m') as Hchain. rewrite Hext in Hchain.
  destruct (parent_chain_transfer m0 m0' m m' a Hrel) with (v := b) (l := l)
    as [Hwalk Hma]; [|done|done|done|].
  { unfold m0. by rewrite lookup_fmap, Ha. }
  rewrite Hm. cbn [default from_option id].
  destruct (extract_path_walk b m l Hwalk) as [[_ Hc]|(k & -> & Hk & _)].
  - destruct (parent_chain_walk m b l Hc) as (_ & k & Hk & Hroot). congruence.
  - rewrite Hlst in Hk. by injection Hk as <-.
Qed.


(** X14.  On a graph without negative weights, from a vertex [a] that is
    not in the index: when [dijkstra_search a b] returns [True],
    [find_weighted_shortest_path a b] raises [KeyError] for [a], which the
    parent dictionary, made of the vertices of the index, does not hold. *)
Theorem weighted_path_from_unindexed_start self a b reverse :
  nonnegative_weights → __vertexes self !! a = None →
  dijkstra_search self a b = Return true →
  find_weighted_shortest_path self a b reverse = Raise (KeyError a) ∧
  reachable a b.
Proof.
  intros Hnn Ha Hs. split; [by apply find_weighted_outside_index|].
  pose proof (dijkstra_search_cases self a b None) as Hsearch.
  fold (dijkstra_search self a b) in Hsearch. rewrite Hs in Hsearch. by apply Hsearch.
Qed.

(** ** Dijkstra without a target *)




End graph.

(** * Edge weights and breadth-first search *)

#[global] Instance list_pq {V : Type} :
  PriorityQueue (V:=V) (list (_ShortestDistance (V:=V))).
Proof.
  refine {| pq_new := [];
            pq_put := λ x q, x :: q;
            pq_get := list_pq_get;
            pq_items := λ q, q |}.
  - reflexivity.
  - reflexivity.
  - apply list_pq_get_None.
  - apply list_pq_get_Some.
Defined.

Section weights.

Context `{Countable V, !Finite V}.

Variables edges edges' : V → list (V * Q).

Hypothesis same_neighbors : ∀ v, neighbors edges' v = neighbors edges v.

Lemma validate_vertex_weights g v :
  _validate_vertex edges' g v = _validate_vertex edges g v.
Proof. unfold _validate_vertex. by rewrite same_neighbors. Qed.

Lemma bfs_while_weights fuel end_ : ∀ st,
  bfs_while edges' fuel end_ st = bfs_while edges fuel end_ st.
Proof.
  induction fuel as [|fuel IH]; intros st; simpl; [done|].
  destruct (bfs_queue st) as [|v q]; [done|].
  rewrite validate_vertex_weights, same_neighbors.
  destruct (if decide (v ∈ _) then _ else _) as [valid self'].
  destruct valid; [|done].
  destruct (bfs_for v end_ (neighbors edges v) (bfs_popleft v q self' st)) as [[] st2];
    [done|]. apply IH.
Qed.

Lemma breadth_first_search_weights self a b :
  breadth_first_search edges' self a b = breadth_first_search edges self a b.
Proof.
  unfold breadth_first_search, _breadth_first_search. by rewrite bfs_while_weights.
Qed.

End weights.

(** C3, as amended.  Unless the traversal raises the referential-integrity
    error (at a vertex within reach that fails its validation),
    [breadth_first_search a b] returns [True] exactly when a directed path
    of at least one edge leads from [a] to [b]: for [a = b], when [a] lies
    on a directed cycle.  Edge weights have no effect on the result. *)
Theorem bfs_true_iff_path_with_edge `{Countable V, !Finite V}
    (edges : V → list (V * Q)) (self : Graph) (a b : V) :
  match (breadth_first_search edges self a b).1 with
  | Return found => found = true ↔ reachable_by_edge edges a b
  | Raise e =>
      ∃ v, e = ValueError v ∧ reachable edges a v ∧ fails_validation edges self v
  | OutOfFuel => False
  end ∧
  ∀ edges' : V → list (V * Q),
    (∀ v, neighbors edges' v = neighbors edges v) →
    breadth_first_search edges' self a b = breadth_first_search edges self a b.
Proof.
  split; [|intros edges' Hsame; by apply breadth_first_search_weights].
  pose proof (bfs_outcome_spec edges self a b None) as Hout.
  unfold breadth_first_search. cbn [fst].
  destruct ((_breadth_first_search edges self a (Some b) None).1) as [[]|e|]; [| |done..].
  - done.
  - split; [done|]. intros Hre. by destruct Hout.
Qed.

(** * A worked graph

    The graph of the spec's scenarios: A has edges to B (weight 1) and C
    (weight 4), B and C have an edge to D (weight 1 each), D has none and E
    stands alone. *)

Inductive name := A | B | C | D | E.

#[global] Instance name_eq_dec : EqDecision name.
Proof. solve_decision. Defined.

Definition name_to_nat (n : name) : nat :=
  match n with A => 0 | B => 1 | C => 2 | D => 3 | E => 4 end.

Definition name_of_nat (n : nat) : option name :=
  match n with
  | 0 => Some A | 1 => Some B | 2 => Some C | 3 => Some D | 4 => Some E
  | _ => None
  end.

#[global] Instance name_countable : Countable name.
Proof. refine (inj_countable name_to_nat name_of_nat _). by intros []. Defined.

#[global] Program Instance name_finite : Finite name := {| enum := [A; B; C; D; E] |}.
Next Obligation. repeat constructor; set_solver. Qed.
Next Obligation. intros []; set_solver. Qed.

Definition scenario_edges (v : name) : list (name * Q) :=
  match v with
  | A => [(B, 1%Q); (C, 4%Q)]
  | B => [(D, 1%Q)]
  | C => [(D, 1%Q)]
  | D => []
  | E => []
  end.

Definition scenario_graph : Graph (V:=name) := Graph_init scenario_edges (Some [A; B; C; D; E]).

(** The same vertices with other weights. *)
Definition reweighted_edges (v : name) : list (name * Q) :=
  match v with
  | A => [(B, 7%Q); (C, (1 # 2)%Q)]
  | B => [(D, 3%Q)]
  | C => [(D, 0%Q)]
  | D => []
  | E => []
  end.

(** A graph with a gap: A has an edge to B and B to C, and C was never
    added, so B stays in the non-validated set. *)
Definition gap_edges (v : name) : list (name * Q) :=
  match v with
  | A => [(B, 1%Q)]
  | B => [(C, 1%Q)]
  | _ => []
  end.

Definition gap_graph : Graph (V:=name) := Graph_init gap_edges (Some [A; B]).

Lemma scenario_weights_nonneg : nonnegative_weights scenario_edges.
Proof.
  intros u v w Hw. destruct u, v; vm_compute in Hw; try discriminate;
    injection Hw as <-; vm_compute; discriminate.
Qed.

(** The spec's scenarios. *)
Example scenario_weighted_path :
  find_weighted_shortest_path scenario_edges (PQ:=list _ShortestDistance)
    scenario_graph A D false = Return (Some [A; B; D]).
Proof. vm_compute. reflexivity. Qed.

Example scenario_unweighted_path :
  (find_shortest_path scenario_edges scenario_graph A D false).1 = Return (Some [A; B; D]).
Proof. vm_compute. reflexivity. Qed.

Example scenario_unreachable :
  (breadth_first_search scenario_edges scenario_graph A E).1 = Return false ∧
  (find_shortest_path scenario_edges scenario_graph A E true).1 = Return None.
Proof. vm_compute. done. Qed.

Example gap_errors :
  (breadth_first_search gap_edges gap_graph A D).1 = Raise (ValueError B) ∧
  dijkstra_search gap_edges (PQ:=list _ShortestDistance) gap_graph A D
    = Raise (KeyError C).
Proof. vm_compute. done. Qed.

(** From a start vertex that is not in the index Dijkstra's search succeeds,
    and the extraction then misses the start vertex in the parent
    dictionary, which holds the vertices of the index only. *)
Example weighted_path_from_outside_index :
  let g := Graph_init scenario_edges (Some [B; C; D]) in
  dijkstra_search scenario_edges (PQ:=list _ShortestDistance) g A D = Return true ∧
  find_weighted_shortest_path scenario_edges (PQ:=list _ShortestDistance) g A D true
    = Raise (KeyError A) ∧
  (find_shortest_path scenario_edges g A D true).1 = Return (Some [D; B; A]).
Proof. vm_compute. done. Qed.

(** ** The claims on the worked graph *)

(** C1 as stated fails: with [reverse = true] both operations list the path
    from the end vertex D back to the start vertex A. *)
Lemma reverse_true_lists_end_first :
  (find_shortest_path scenario_edges scenario_graph A D true).1
    = Return (Some [D; B; A]) ∧
  find_weighted_shortest_path scenario_edges (PQ:=list _ShortestDistance)
    scenario_graph A D true = Return (Some [D; B; A]) ∧
  (find_shortest_path scenario_edges scenario_graph A D false).1
    = Return (Some [A; B; D]) ∧
  find_weighted_shortest_path scenario_edges (PQ:=list _ShortestDistance)
    scenario_graph A D false = Return (Some [A; B; D]).
Proof. vm_compute. done. Qed.

Lemma reverse_flag_order_witness :
  (∃ l, (find_shortest_path scenario_edges scenario_graph A D true).1 = Return (Some l) ∧
        (find_shortest_path scenario_edges scenario_graph A D false).1
          = Return (Some (rev l)) ∧
        head l = Some D ∧ last l = Some A ∧
        head (rev l) = Some A ∧ last (rev l) = Some D ∧
        path scenario_edges A (rev l) D) ∧
  (∃ l, find_weighted_shortest_path scenario_edges (PQ:=list _ShortestDistance)
          scenario_graph A D true = Return (Some l) ∧
        find_weighted_shortest_path scenario_edges (PQ:=list _ShortestDistance)
          scenario_graph A D false = Return (Some (rev l)) ∧
        head l = Some D ∧ last l = Some A ∧
        head (rev l) = Some A ∧ last (rev l) = Some D ∧
        path scenario_edges A (rev l) D).
Proof.
  pose proof (reverse_flag_order scenario_edges (PQ:=list _ShortestDistance)
                scenario_graph A D) as [Hbfs Hdijkstra].
  split.
  - apply Hbfs. vm_compute. reflexivity.
  - apply Hdijkstra.
    + apply scenario_weights_nonneg.
    + vm_compute. eauto.
    + vm_compute. reflexivity.
Defined.


(** C3 as stated fails for [a = b]: E reaches itself, by the path of no
    edge, and the search from E to E returns [False]. *)
Lemma bfs_same_vertex_without_cycle :
  (breadth_first_search scenario_edges scenario_graph E E).1 = Return false ∧
  reachable scenario_edges E E.
Proof. split; [vm_compute; reflexivity|]. exists [E]. constructor. Qed.

(** C4 as stated fails for [a = b]: [E] alone is a directed path from E to
    E, and [find_shortest_path] returns nothing. *)
Lemma shortest_path_same_vertex_without_cycle :
  (find_shortest_path scenario_edges scenario_graph E E true).1 = Return None ∧
  path scenario_edges E [E] E ∧ edge_count [E] = 0.
Proof. split; [vm_compute; reflexivity|]. split; [constructor|done]. Qed.

(** C6 as stated fails for an operand that is false: the comparison
    returns [False] and raises nothing. *)
Lemma compare_with_none_returns_false :
  isinstance_ShortestDistance (V:=name) PyNone = false ∧
  __lt__ (ShortestDistance 1 A) PyNone = Return false ∧
  __gt__ (ShortestDistance 1 A) PyNone = Return false ∧
  __lt__ (ShortestDistance 1 A) (PyInt 0) = Return false.
Proof. vm_compute. done. Qed.

Lemma shortest_distance_compare_witness :
  (__lt__ (ShortestDistance 1 A) (PyInt 5) = Raise (TypeError (PyInt 5)) ∧
   __gt__ (ShortestDistance 1 A) (PyInt 5) = Raise (TypeError (PyInt 5))) ∧
  (__lt__ (ShortestDistance 1 A) PyNone = Return false ∧
   __gt__ (ShortestDistance 1 A) PyNone = Return false).
Proof.
  split.
  - apply (shortest_distance_compare (ShortestDistance 1 A) (PyInt 5)); reflexivity.
  - apply (shortest_distance_compare (ShortestDistance 1 A) PyNone); reflexivity.
Defined.

Lemma add_vertex_twice_same_results_witness :
  (breadth_first_search gap_edges (add_vertex gap_edges gap_graph B) A D).1
    = (breadth_first_search gap_edges gap_graph A D).1 ∧
  dijkstra_search gap_edges (PQ:=list _ShortestDistance)
    (add_vertex gap_edges gap_graph B) A D
    = dijkstra_search gap_edges (PQ:=list _ShortestDistance) gap_graph A D.
Proof.
  apply add_vertex_twice_same_results.
  - apply Graph_init_wf.
  - vm_compute. eauto.
Defined.

(** C10 as stated fails: the neighbors of A are in the index of the graph
    with a gap and A lies on no cycle, and the search from A to A raises
    at B. *)
Lemma bfs_same_vertex_raises :
  Forall (λ n, is_Some (__vertexes gap_graph !! n)) (neighbors gap_edges A) ∧
  (breadth_first_search gap_edges gap_graph A A).1 = Raise (ValueError B) ∧
  ¬ reachable_by_edge gap_edges A A.
Proof.
  split; [|split].
  - repeat constructor. vm_compute. eauto.
  - vm_compute. reflexivity.
  - intros (u & _ & Hu)%reachable_by_edge_last.
    destruct u; vm_compute in Hu; set_solver.
Qed.

Lemma search_from_vertex_to_itself_witness :
  dijkstra_search scenario_edges (PQ:=list _ShortestDistance) scenario_graph A A
    = Return true ∧
  match (breadth_first_search scenario_edges scenario_graph A A).1 with
  | Return found =>
      (found = true ↔ reachable_by_edge scenario_edges A A) ∧
      (found = true →
         ∃ u, u ∈ bfs_dequeued
                    (_breadth_first_search scenario_edges scenario_graph A (Some A) None).2 ∧
              A ∈ neighbors scenario_edges u)
  | Raise e =>
      ∃ v, e = ValueError v ∧ reachable scenario_edges A v ∧
           fails_validation scenario_edges scenario_graph v
  | OutOfFuel => False
  end.
Proof.
  apply search_from_vertex_to_itself.
  intros n _. destruct n; vm_compute; eauto.
Defined.

Lemma bfs_true_iff_path_with_edge_witness :
  reachable_by_edge scenario_edges A D ∧
  breadth_first_search reweighted_edges scenario_graph A D
    = breadth_first_search scenario_edges scenario_graph A D.
Proof.
  destruct (bfs_true_iff_path_with_edge scenario_edges scenario_graph A D)
    as [Hiff Hweights].
  assert ((breadth_first_search scenario_edges scenario_graph A D).1 = Return true)
    as Hrun by (vm_compute; reflexivity).
  rewrite Hrun in Hiff. split.
  - by apply Hiff.
  - apply Hweights. intros []; reflexivity.
Defined.

Lemma shortest_path_fewest_edges_witness :
  reachable_by_edge scenario_edges A D ∧ path scenario_edges A [A; B; D] D ∧
  ∀ p', path scenario_edges A p' D → edge_count [A; B; D] ≤ edge_count p'.
Proof.
  pose proof (shortest_path_fewest_edges scenario_edges scenario_graph A D false) as Hspec.
  assert ((find_shortest_path scenario_edges scenario_graph A D false).1
          = Return (Some [A; B; D])) as Hrun by (vm_compute; reflexivity).
  rewrite Hrun in Hspec. cbv zeta in Hspec.
  destruct Hspec as (Hreach & Hpath & Hmin & _).
  split; [done|]. split; [done|]. by apply Hmin.
Defined.

Lemma bfs_referential_integrity_witness :
  ∃ v, v ∈ bfs_dequeued (_breadth_first_search gap_edges gap_graph A (Some D) None).2 ∧
       fails_validation gap_edges gap_graph v.
Proof.
  destruct (bfs_referential_integrity gap_edges gap_graph A (Some D) None) as [Hiff _].
  apply Hiff. exists B. vm_compute. reflexivity.
Defined.

Lemma dijkstra_missing_neighbor_key_error_witness :
  ∃ u n,
    u ∈ dj_finalized
          (_dijkstra_search gap_edges (PQ:=list _ShortestDistance)
             gap_graph A (Some D) None).2 ∧
    n ∈ neighbors gap_edges u ∧ __vertexes gap_graph !! n = None ∧ n ≠ A.
Proof.
  destruct (dijkstra_missing_neighbor_key_error gap_edges (PQ:=list _ShortestDistance)
              gap_graph A (Some D) None) as [Hiff _].
  apply Hiff. exists C. vm_compute. reflexivity.
Defined.

(** ** The further properties on the worked graphs *)

(** In the graph with a gap the search from A to B returns [True], although
    B, whose neighbor C is missing, would fail its validation: B is never
    dequeued and stays in the non-validated set. *)
Lemma bfs_never_expands_target_witness :
  (breadth_first_search gap_edges gap_graph A B).1 = Return true ∧
  fails_validation gap_edges gap_graph B ∧
  (B ∉ bfs_dequeued (_breadth_first_search gap_edges gap_graph A (Some B) None).2) ∧
  (_breadth_first_search gap_edges gap_graph A (Some B) None).1 ≠ Raise (ValueError B) ∧
  (B ∈ __non_validated_vertexes
         (bfs_self (_breadth_first_search gap_edges gap_graph A (Some B) None).2) ↔
   B ∈ __non_validated_vertexes gap_graph).
Proof.
  split; [vm_compute; reflexivity|]. split; [vm_compute; split; reflexivity|].
  apply (bfs_never_expands_target gap_edges gap_graph A B None). discriminate.
Defined.


Lemma closed_graph_never_raises_witness :
  A ∈ [A; B; C; D; E] ∧
  __non_validated_vertexes scenario_graph = ∅ ∧
  (∃ f, (breadth_first_search scenario_edges scenario_graph A D).1 = Return f) ∧
  (∃ q, (find_shortest_path scenario_edges scenario_graph A D true).1 = Return q) ∧
  (∃ f, dijkstra_search scenario_edges (PQ:=list _ShortestDistance) scenario_graph A D
        = Return f).
Proof.
  split; [repeat constructor|].
  apply (closed_graph_never_raises scenario_edges (PQ:=list _ShortestDistance)
           [A; B; C; D; E] A D true).
  - intros v n _ _. destruct n; repeat constructor.
  - repeat constructor.
Defined.

Lemma weighted_path_from_unindexed_start_witness :
  __vertexes (Graph_init scenario_edges (Some [B; C; D])) !! A = None ∧
  dijkstra_search scenario_edges (PQ:=list _ShortestDistance)
    (Graph_init scenario_edges (Some [B; C; D])) A D = Return true ∧
  find_weighted_shortest_path scenario_edges (PQ:=list _ShortestDistance)
    (Graph_init scenario_edges (Some [B; C; D])) A D true = Raise (KeyError A) ∧
  reachable scenario_edges A D.
Proof.
  split; [vm_compute; reflexivity|]. split; [vm_compute; reflexivity|].
  apply (weighted_path_from_unindexed_start scenario_edges (PQ:=list _ShortestDistance)
           (Graph_init scenario_edges (Some [B; C; D])) A D true).
  - apply scenario_weights_nonneg.
  - vm_compute. reflexivity.
  - vm_compute. reflexivity.
Defined.

